(** * Dreams and Poems: the video manager, embedded and verified

    A shallow embedding of [VideoManager] (src/js/videoManager.js), of
    [ArrayUtils.shuffle] (src/js/utils.js) and of the browser event loop
    that drives them, followed by the properties the specification
    states about them; then of more of src/js/utils.js ([chunk],
    [throttle], [debounce], [getExtension], [retry]), with properties
    of their own.

    JavaScript runs every handler to completion, so an [async] method is
    embedded one synchronous segment at a time: the segment up to its
    first [await] is a function on the manager's state, and what resumes
    it (a media event, a timer) is an [event] of the loop, see [step].
    The continuation of an [await] runs in the step of the event that
    settles the promise, as microtasks run before the next event.
    Numbers are integers ([Z]); [%] is the truncating remainder
    ([Z.rem]) and yields NaN ([None]) for a zero divisor.  The
    floating-point performance metrics ([performanceMetrics]) are read by
    no operation modelled here and are left out. *)

From Stdlib Require Import ZArith Lia.
From stdpp Require Import gmap strings list fin_maps.

Local Open Scope string_scope.
Local Open Scope list_scope.
Local Open Scope Z_scope.

(** ** JavaScript values *)

(** A map key or an array read: a URL, or [undefined]. *)
Abbreviation key := (option string).
Abbreviation undefined := (@None string).

(** [a % b] on integers. *)
Definition js_rem (a b : Z) : option Z :=
  if b =? 0 then None else Some (Z.rem a b).

(** [array[i]]: [undefined] off either end. *)
Definition js_index {A} (l : list A) (i : Z) : option A :=
  if i <? 0 then None else l !! Z.to_nat i.

(** [array.indexOf(x)]: the first position of [x], or [-1]. *)
Fixpoint indexOf (l : list string) (x : key) : Z :=
  match l with
  | [] => -1
  | y :: l' =>
      if decide (x = Some y) then 0
      else let r := indexOf l' x in if r <? 0 then -1 else r + 1
  end.

Definition length_ {A} (l : list A) : Z := Z.of_nat (length l).

(** [array.slice(start, end)] on integers: a negative bound counts from
    the end, and both are clamped to the array. *)
Definition js_slice {A} (array : list A) (start final : Z) : list A :=
  let len := length_ array in
  let k := if start <? 0 then Z.max (len + start) 0 else Z.min start len in
  let final := if final <? 0 then Z.max (len + final) 0 else Z.min final len in
  take (Z.to_nat (final - k)) (drop (Z.to_nat k) array).

(** ** utils.js *)

Module ArrayUtils.

(** [[a[i], a[j]] = [a[j], a[i]]] for positions inside the array. *)
Definition swap {A} (a : list A) (i j : nat) : list A :=
  match a !! i, a !! j with
  | Some x, Some y => <[i := y]> (<[j := x]> a)
  | _, _ => a
  end.

(** The loop of [shuffle], from [i] down to 1.  [draw i] is what
    [Math.random()] yields in iteration [i]; [Math.floor(Math.random()
    * (i + 1))] lies in [0, i], so the draw is reduced to that range. *)
Fixpoint shuffle_from {A} (draw : nat → nat) (i : nat) (shuffled : list A) : list A :=
  match i with
  | O => shuffled
  | S i' =>
      let j := (draw i `mod` (i + 1))%nat in
      shuffle_from draw i' (swap shuffled i j)
  end.

Definition shuffle {A} (draw : nat → nat) (array : list A) : list A :=
  let shuffled := array in
  shuffle_from draw (length shuffled - 1) shuffled.

(** The loop of [chunk] from [i] on.  With a [size] that is not
    positive the loop over a non-empty array never ends: [fuel] bounds
    the iterations, and [None] is a loop still running when the fuel is
    spent. *)
Fixpoint chunk_from {A} (fuel : nat) (array : list A) (size i : Z)
    (chunks : list (list A)) : option (list (list A)) :=
  match fuel with
  | O => None
  | S fuel' =>
      if i <? length_ array
      then chunk_from fuel' array size (i + size)
             (chunks ++ [js_slice array i (i + size)])
      else Some chunks
  end.

Definition chunk {A} (fuel : nat) (array : list A) (size : Z) : option (list (list A)) :=
  chunk_from fuel array size 0 [].

End ArrayUtils.

Module PerformanceUtils.

(** What happens to the function [throttle] or [debounce] returns: it
    is called, or a timer it has set fires. *)
Inductive closure_event (A : Type) :=
| Call (args : A)
| TimerFires.
Arguments Call {A} args.
Arguments TimerFires {A}.

(** A call of the function [throttle] returns: its arguments and, for
    the case that this call runs [func], what [func] does then: the
    calls it makes to the throttled function itself before it ends, and
    whether it ends by throwing. *)
#[warnings="-register-all"] Inductive invocation (A : Type) :=
| Invoke (args : A) (nested : list (invocation A)) (throws : bool).
Arguments Invoke {A} args nested throws.

Definition invoked {A} (c : invocation A) : A :=
  match c with Invoke args _ _ => args end.

Definition nested_calls {A} (c : invocation A) : list (invocation A) :=
  match c with Invoke _ nested _ => nested end.

Definition func_throws {A} (c : invocation A) : bool :=
  match c with Invoke _ _ throws => throws end.

(** The closure of [throttle(func, limit)]: its variable [inThrottle],
    the timers pending, and the calls [func] has received. *)
Record throttled (A : Type) := {
  inThrottle : bool;
  throttle_timers : nat;
  throttle_applied : list A
}.
Arguments inThrottle {A} t.
Arguments throttle_timers {A} t.
Arguments throttle_applied {A} t.

Definition throttle {A} : throttled A :=
  {| inThrottle := false; throttle_timers := 0; throttle_applied := [] |}.

(** [executedFunction] of [throttle]: with [inThrottle] unset, [func]
    runs, the calls it makes to [executedFunction] included, and only
    when it has returned is [inThrottle] set and the timer started; an
    exception of [func] leaves before that. *)
Fixpoint throttle_executedFunction {A} (c : invocation A) (s : throttled A)
  : throttled A :=
  match c with
  | Invoke args nested throws =>
      if negb (inThrottle s) then
        let s := {| inThrottle := inThrottle s; throttle_timers := throttle_timers s;
                    throttle_applied := throttle_applied s ++ [args] |} in
        let s := fold_left (λ s c', throttle_executedFunction c' s) nested s in
        if throws then s
        else {| inThrottle := true; throttle_timers := S (throttle_timers s);
                throttle_applied := throttle_applied s |}
      else s
  end.

(** [() => inThrottle = false] *)
Definition throttle_timer_callback {A} (s : throttled A) : throttled A :=
  match throttle_timers s with
  | O => s
  | S pending =>
      {| inThrottle := false; throttle_timers := pending;
         throttle_applied := throttle_applied s |}
  end.

Definition throttle_step {A} (s : throttled A) (e : closure_event (invocation A))
  : throttled A :=
  match e with
  | Call c => throttle_executedFunction c s
  | TimerFires => throttle_timer_callback s
  end.

(** The closure of [debounce(func, wait)]: the timer [timeout] names if
    it is pending, with the arguments [later] holds, and the calls
    [func] has received. *)
Record debounced (A : Type) := {
  timeout : option A;
  debounce_applied : list A
}.
Arguments timeout {A} d.
Arguments debounce_applied {A} d.

Definition debounce {A} : debounced A :=
  {| timeout := None; debounce_applied := [] |}.

(** [executedFunction] of [debounce]: [clearTimeout(timeout)], then
    [timeout = setTimeout(later, wait)]. *)
Definition debounce_executedFunction {A} (args : A) (s : debounced A) : debounced A :=
  {| timeout := Some args; debounce_applied := debounce_applied s |}.

(** [later], run by the timer. *)
Definition later {A} (s : debounced A) : debounced A :=
  match timeout s with
  | Some args => {| timeout := None; debounce_applied := debounce_applied s ++ [args] |}
  | None => s
  end.

Definition debounce_step {A} (s : debounced A) (e : closure_event A) : debounced A :=
  match e with
  | Call args => debounce_executedFunction args s
  | TimerFires => later s
  end.

End PerformanceUtils.

Module UrlUtils.

(** The character ['.']. *)
Definition dot : Ascii.ascii := Ascii.ascii_of_nat 46.

(** [pathname.split(separator)] for a separator of one character. *)
Fixpoint split (separator : Ascii.ascii) (s : string) : list string :=
  match s with
  | EmptyString => [EmptyString]
  | String c rest =>
      if Ascii.eqb c separator then EmptyString :: split separator rest
      else match split separator rest with
           | first :: others => String c first :: others
           | [] => [String c EmptyString]
           end
  end.

(** [toLowerCase] on the ASCII characters a [pathname] is made of. *)
Definition lower (c : Ascii.ascii) : Ascii.ascii :=
  let n := Ascii.nat_of_ascii c in
  if ((65 <=? n) && (n <=? 90))%nat then Ascii.ascii_of_nat (n + 32) else c.

Fixpoint toLowerCase (s : string) : string :=
  match s with
  | EmptyString => EmptyString
  | String c rest => String (lower c) (toLowerCase rest)
  end.

(** [getExtension]; [pathname] is what [new URL(url).pathname] yields,
    [None] when the constructor throws. *)
Definition getExtension (pathname : option string) : string :=
  match pathname with
  | Some pathname => toLowerCase (List.last (split dot pathname) EmptyString)
  | None => EmptyString
  end.

Definition isVideo (pathname : option string) : bool :=
  let videoExtensions := ["mp4"; "webm"; "ogg"; "mov"; "avi"] in
  bool_decide (getExtension pathname ∈ videoExtensions).

End UrlUtils.

Module ErrorUtils.

(** How a promise settles. *)
Inductive settled (A : Type) :=
| Fulfilled (value : A)
| Rejected (error : string).
Arguments Fulfilled {A} value.
Arguments Rejected {A} error.

(** The loop of [retry] from [attempt] on.  [func attempt] is how the
    promise of the call made in that attempt settles; the result is how
    the promise of [retry] settles ([None] for [undefined]) and the
    delays it has waited, in order.  [fuel] bounds the iterations. *)
Fixpoint retry_from {A} (fuel : nat) (func : Z → settled A)
    (maxAttempts baseDelay attempt : Z) (waited : list Z)
  : option (settled (option A) * list Z) :=
  match fuel with
  | O => None
  | S fuel' =>
      if attempt <=? maxAttempts then
        match func attempt with
        | Fulfilled value => Some (Fulfilled (Some value), waited)
        | Rejected error =>
            if attempt =? maxAttempts then Some (Rejected error, waited)
            else
              let delay := baseDelay * 2 ^ (attempt - 1) in
              retry_from fuel' func maxAttempts baseDelay (attempt + 1) (waited ++ [delay])
        end
      else Some (Fulfilled None, waited)
  end.

Definition retry {A} (fuel : nat) (func : Z → settled A) (maxAttempts baseDelay : Z)
  : option (settled (option A) * list Z) :=
  retry_from fuel func maxAttempts baseDelay 1 [].

End ErrorUtils.

(** ** The manager's state *)

(** The two [<video>] elements of the page. *)
Inductive element := VideoA | VideoB.

#[global] Instance element_eq_dec : EqDecision element.
Proof. solve_decision. Defined.

(** A [<video>] element, as far as the manager drives it. *)
Record video := {
  src : key;
  opacity : option Z;      (* style.opacity, once set: '1' or '0' *)
  paused : bool;
  listening : bool;        (* videoEventHandler is attached *)
  configured : bool        (* setupVideoElements has set the static attributes *)
}.

Definition set_src (v : key) (e : video) : video :=
  {| src := v; opacity := opacity e; paused := paused e; listening := listening e;
     configured := configured e |}.
Definition set_opacity (v : option Z) (e : video) : video :=
  {| src := src e; opacity := v; paused := paused e; listening := listening e;
     configured := configured e |}.
Definition set_paused (v : bool) (e : video) : video :=
  {| src := src e; opacity := opacity e; paused := v; listening := listening e;
     configured := configured e |}.
Definition set_listening (v : bool) (e : video) : video :=
  {| src := src e; opacity := opacity e; paused := paused e; listening := v;
     configured := configured e |}.
Definition set_configured (v : bool) (e : video) : video :=
  {| src := src e; opacity := opacity e; paused := paused e; listening := listening e;
     configured := v |}.

(** A detached element created by [preloadVideo] and kept in the cache. *)
Record handle := { h_src : key; readyState : Z }.

Record Config := {
  preloadBufferSize : Z;
  maxRetries : Z;
  retryDelay : Z;
  loadTimeout : Z;
  crossfadeDuration : Z
}.

Definition set_preloadBufferSize (v : Z) (c : Config) : Config :=
  {| preloadBufferSize := v; maxRetries := maxRetries c; retryDelay := retryDelay c;
     loadTimeout := loadTimeout c; crossfadeDuration := crossfadeDuration c |}.

(** What [emit] hands to the subscribers. *)
Inductive payload :=
| VideoData (target : element)                      (* { video } *)
| TimeData (target : element)                       (* { video, currentTime, duration } *)
| ErrorData (target : element) (error : string)     (* { video, error } *)
| PlaybackErrorData (error : string)                (* { error } *)
| OtherData (n : Z).

(** A call a subscriber makes, while it runs, to [on] or to [off] of the
    manager that is calling it; [off] looks its argument up by identity. *)
Inductive re_entry (C : Type) :=
| OnCall (event : string) (cb : C)
| OffCall (event : string) (id : nat).
Arguments OnCall {C} event cb.
Arguments OffCall {C} event id.

(** A subscriber: a function object, with its identity ([indexOf]
    compares by identity), the calls to [on] and [off] it makes when it
    is handed a given payload, and whether it then throws.  A
    subscriber that calls other methods of the manager while it runs is
    not covered. *)
#[warnings="-register-all"] Inductive callback := {
  cb_id : nat;
  cb_throws : payload → bool;
  cb_calls : payload → list (re_entry callback)
}.

Inductive announcement :=
| Initialized
| PlayingVideo (n total : Z)
| SkippingToNext.

(** What the manager does to the outside, in order. *)
Inductive effect :=
| Console (level message : string)
| Announce (message : announcement)
| Called (event : string) (cb : nat) (data : payload)
| Unhandled (message : string)       (* a rejected promise nobody awaits *)
| DomAppend (url : key)
| DomRemove (url : key).

(** Where the running [playVideo] is suspended: the promise it awaits,
    with the listeners and the timer that settle it. *)
Inductive suspension :=
| AwaitCanPlay (onError : bool) (timeout : Z)
    (* loadNewVideo (onError attached) or usePreloadedVideo (not) *)
| AwaitCrossfade (duration : Z).

#[global] Instance suspension_eq_dec : EqDecision suspension.
Proof. solve_decision. Defined.

(** The fields of the object, then the event loop's part: the pending
    promise of [playVideo], the pending retry timers (their delays), the
    [preloadVideo] calls in flight, and the effects so far. *)
Record VideoManager := {
  config : Config;
  videoUrls : list string;
  currentIndex : Z;
  videoA : video;
  videoB : video;
  activeVideoElement : element;
  inactiveVideoElement : element;
  isTransitioning : bool;
  preloadedVideos : gmap key handle;
  loadingPromises : gset key;
  errorCount : Z;
  maxErrors : Z;
  eventListeners : gmap string (list callback);
  awaiting : option suspension;
  retryTimers : list Z;
  preloads : list key;
  effects : list effect
}.
Definition set_config (v : Config) (m : VideoManager) : VideoManager :=
  {| config := v; videoUrls := videoUrls m; currentIndex := currentIndex m;
     videoA := videoA m; videoB := videoB m; activeVideoElement := activeVideoElement m;
     inactiveVideoElement := inactiveVideoElement m; isTransitioning := isTransitioning m;
     preloadedVideos := preloadedVideos m; loadingPromises := loadingPromises m;
     errorCount := errorCount m; maxErrors := maxErrors m;
     eventListeners := eventListeners m; awaiting := awaiting m;
     retryTimers := retryTimers m; preloads := preloads m; effects := effects m |}.

Definition set_videoUrls (v : list string) (m : VideoManager) : VideoManager :=
  {| config := config m; videoUrls := v; currentIndex := currentIndex m; videoA := videoA m;
     videoB := videoB m; activeVideoElement := activeVideoElement m;
     inactiveVideoElement := inactiveVideoElement m; isTransitioning := isTransitioning m;
     preloadedVideos := preloadedVideos m; loadingPromises := loadingPromises m;
     errorCount := errorCount m; maxErrors := maxErrors m;
     eventListeners := eventListeners m; awaiting := awaiting m;
     retryTimers := retryTimers m; preloads := preloads m; effects := effects m |}.

Definition set_currentIndex (v : Z) (m : VideoManager) : VideoManager :=
  {| config := config m; videoUrls := videoUrls m; currentIndex := v; videoA := videoA m;
     videoB := videoB m; activeVideoElement := activeVideoElement m;
     inactiveVideoElement := inactiveVideoElement m; isTransitioning := isTransitioning m;
     preloadedVideos := preloadedVideos m; loadingPromises := loadingPromises m;
     errorCount := errorCount m; maxErrors := maxErrors m;
     eventListeners := eventListeners m; awaiting := awaiting m;
     retryTimers := retryTimers m; preloads := preloads m; effects := effects m |}.

Definition set_videoA (v : video) (m : VideoManager) : VideoManager :=
  {| config := config m; videoUrls := videoUrls m; currentIndex := currentIndex m;
     videoA := v; videoB := videoB m; activeVideoElement := activeVideoElement m;
     inactiveVideoElement := inactiveVideoElement m; isTransitioning := isTransitioning m;
     preloadedVideos := preloadedVideos m; loadingPromises := loadingPromises m;
     errorCount := errorCount m; maxErrors := maxErrors m;
     eventListeners := eventListeners m; awaiting := awaiting m;
     retryTimers := retryTimers m; preloads := preloads m; effects := effects m |}.

Definition set_videoB (v : video) (m : VideoManager) : VideoManager :=
  {| config := config m; videoUrls := videoUrls m; currentIndex := currentIndex m;
     videoA := videoA m; videoB := v; activeVideoElement := activeVideoElement m;
     inactiveVideoElement := inactiveVideoElement m; isTransitioning := isTransitioning m;
     preloadedVideos := preloadedVideos m; loadingPromises := loadingPromises m;
     errorCount := errorCount m; maxErrors := maxErrors m;
     eventListeners := eventListeners m; awaiting := awaiting m;
     retryTimers := retryTimers m; preloads := preloads m; effects := effects m |}.

Definition set_activeVideoElement (v : element) (m : VideoManager) : VideoManager :=
  {| config := config m; videoUrls := videoUrls m; currentIndex := currentIndex m;
     videoA := videoA m; videoB := videoB m; activeVideoElement := v;
     inactiveVideoElement := inactiveVideoElement m; isTransitioning := isTransitioning m;
     preloadedVideos := preloadedVideos m; loadingPromises := loadingPromises m;
     errorCount := errorCount m; maxErrors := maxErrors m;
     eventListeners := eventListeners m; awaiting := awaiting m;
     retryTimers := retryTimers m; preloads := preloads m; effects := effects m |}.

Definition set_inactiveVideoElement (v : element) (m : VideoManager) : VideoManager :=
  {| config := config m; videoUrls := videoUrls m; currentIndex := currentIndex m;
     videoA := videoA m; videoB := videoB m; activeVideoElement := activeVideoElement m;
     inactiveVideoElement := v; isTransitioning := isTransitioning m;
     preloadedVideos := preloadedVideos m; loadingPromises := loadingPromises m;
     errorCount := errorCount m; maxErrors := maxErrors m;
     eventListeners := eventListeners m; awaiting := awaiting m;
     retryTimers := retryTimers m; preloads := preloads m; effects := effects m |}.

Definition set_isTransitioning (v : bool) (m : VideoManager) : VideoManager :=
  {| config := config m; videoUrls := videoUrls m; currentIndex := currentIndex m;
     videoA := videoA m; videoB := videoB m; activeVideoElement := activeVideoElement m;
     inactiveVideoElement := inactiveVideoElement m; isTransitioning := v;
     preloadedVideos := preloadedVideos m; loadingPromises := loadingPromises m;
     errorCount := errorCount m; maxErrors := maxErrors m;
     eventListeners := eventListeners m; awaiting := awaiting m;
     retryTimers := retryTimers m; preloads := preloads m; effects := effects m |}.

Definition set_preloadedVideos (v : gmap key handle) (m : VideoManager) : VideoManager :=
  {| config := config m; videoUrls := videoUrls m; currentIndex := currentIndex m;
     videoA := videoA m; videoB := videoB m; activeVideoElement := activeVideoElement m;
     inactiveVideoElement := inactiveVideoElement m; isTransitioning := isTransitioning m;
     preloadedVideos := v; loadingPromises := loadingPromises m; errorCount := errorCount m;
     maxErrors := maxErrors m; eventListeners := eventListeners m; awaiting := awaiting m;
     retryTimers := retryTimers m; preloads := preloads m; effects := effects m |}.

Definition set_loadingPromises (v : gset key) (m : VideoManager) : VideoManager :=
  {| config := config m; videoUrls := videoUrls m; currentIndex := currentIndex m;
     videoA := videoA m; videoB := videoB m; activeVideoElement := activeVideoElement m;
     inactiveVideoElement := inactiveVideoElement m; isTransitioning := isTransitioning m;
     preloadedVideos := preloadedVideos m; loadingPromises := v; errorCount := errorCount m;
     maxErrors := maxErrors m; eventListeners := eventListeners m; awaiting := awaiting m;
     retryTimers := retryTimers m; preloads := preloads m; effects := effects m |}.

Definition set_errorCount (v : Z) (m : VideoManager) : VideoManager :=
  {| config := config m; videoUrls := videoUrls m; currentIndex := currentIndex m;
     videoA := videoA m; videoB := videoB m; activeVideoElement := activeVideoElement m;
     inactiveVideoElement := inactiveVideoElement m; isTransitioning := isTransitioning m;
     preloadedVideos := preloadedVideos m; loadingPromises := loadingPromises m;
     errorCount := v; maxErrors := maxErrors m; eventListeners := eventListeners m;
     awaiting := awaiting m; retryTimers := retryTimers m; preloads := preloads m;
     effects := effects m |}.

Definition set_eventListeners (v : gmap string (list callback)) (m : VideoManager) : VideoManager :=
  {| config := config m; videoUrls := videoUrls m; currentIndex := currentIndex m;
     videoA := videoA m; videoB := videoB m; activeVideoElement := activeVideoElement m;
     inactiveVideoElement := inactiveVideoElement m; isTransitioning := isTransitioning m;
     preloadedVideos := preloadedVideos m; loadingPromises := loadingPromises m;
     errorCount := errorCount m; maxErrors := maxErrors m; eventListeners := v;
     awaiting := awaiting m; retryTimers := retryTimers m; preloads := preloads m;
     effects := effects m |}.

Definition set_awaiting (v : option suspension) (m : VideoManager) : VideoManager :=
  {| config := config m; videoUrls := videoUrls m; currentIndex := currentIndex m;
     videoA := videoA m; videoB := videoB m; activeVideoElement := activeVideoElement m;
     inactiveVideoElement := inactiveVideoElement m; isTransitioning := isTransitioning m;
     preloadedVideos := preloadedVideos m; loadingPromises := loadingPromises m;
     errorCount := errorCount m; maxErrors := maxErrors m;
     eventListeners := eventListeners m; awaiting := v; retryTimers := retryTimers m;
     preloads := preloads m; effects := effects m |}.

Definition set_retryTimers (v : list Z) (m : VideoManager) : VideoManager :=
  {| config := config m; videoUrls := videoUrls m; currentIndex := currentIndex m;
     videoA := videoA m; videoB := videoB m; activeVideoElement := activeVideoElement m;
     inactiveVideoElement := inactiveVideoElement m; isTransitioning := isTransitioning m;
     preloadedVideos := preloadedVideos m; loadingPromises := loadingPromises m;
     errorCount := errorCount m; maxErrors := maxErrors m;
     eventListeners := eventListeners m; awaiting := awaiting m; retryTimers := v;
     preloads := preloads m; effects := effects m |}.

Definition set_preloads (v : list key) (m : VideoManager) : VideoManager :=
  {| config := config m; videoUrls := videoUrls m; currentIndex := currentIndex m;
     videoA := videoA m; videoB := videoB m; activeVideoElement := activeVideoElement m;
     inactiveVideoElement := inactiveVideoElement m; isTransitioning := isTransitioning m;
     preloadedVideos := preloadedVideos m; loadingPromises := loadingPromises m;
     errorCount := errorCount m; maxErrors := maxErrors m;
     eventListeners := eventListeners m; awaiting := awaiting m;
     retryTimers := retryTimers m; preloads := v; effects := effects m |}.

Definition set_effects (v : list effect) (m : VideoManager) : VideoManager :=
  {| config := config m; videoUrls := videoUrls m; currentIndex := currentIndex m;
     videoA := videoA m; videoB := videoB m; activeVideoElement := activeVideoElement m;
     inactiveVideoElement := inactiveVideoElement m; isTransitioning := isTransitioning m;
     preloadedVideos := preloadedVideos m; loadingPromises := loadingPromises m;
     errorCount := errorCount m; maxErrors := maxErrors m;
     eventListeners := eventListeners m; awaiting := awaiting m;
     retryTimers := retryTimers m; preloads := preloads m; effects := v |}.

Definition element_state (el : element) (m : VideoManager) : video :=
  match el with VideoA => videoA m | VideoB => videoB m end.

Definition update_element (el : element) (f : video → video) (m : VideoManager)
  : VideoManager :=
  match el with
  | VideoA => set_videoA (f (videoA m)) m
  | VideoB => set_videoB (f (videoB m)) m
  end.

Definition log (e : effect) (m : VideoManager) : VideoManager :=
  set_effects (effects m ++ [e]) m.

(** ** Exceptions and rejected promises

    A method either returns or throws.  For an [async] method [Thrown]
    is the promise it hands back already rejected, and [a ;; b] is
    [await a; b]. *)

Inductive outcome :=
| Returned (m : VideoManager)
| Thrown (error : string) (m : VideoManager).

Definition state_of (o : outcome) : VideoManager :=
  match o with Returned m | Thrown _ m => m end.

Definition is_thrown (o : outcome) : bool :=
  match o with Returned _ => false | Thrown _ _ => true end.

Definition M := VideoManager → outcome.

Definition modify (f : VideoManager → VideoManager) : M := λ m, Returned (f m).

Definition throw (error : string) : M := Thrown error.

Definition andThen (a b : M) : M :=
  λ m, match a m with Returned m' => b m' | Thrown e m' => Thrown e m' end.

Declare Scope M_scope.
Notation "a ;; b" := (andThen a b)
  (at level 100, b at level 200, right associativity) : M_scope.
Local Open Scope M_scope.

Definition try_catch (body : M) (handler : string → M) : M :=
  λ m, match body m with Returned m' => Returned m' | Thrown e m' => handler e m' end.

(** [try { body } finally { final }] *)
Definition try_finally (body final : M) : M :=
  λ m,
    match body m with
    | Returned m' => final m'
    | Thrown e m' =>
        match final m' with Returned m'' => Thrown e m'' | Thrown e' m'' => Thrown e' m'' end
    end.

(** A call to an [async] method whose promise is dropped: a rejection
    reaches nobody. *)
Definition detached (a : M) : M :=
  try_catch a (λ error, modify (log (Unhandled error))).

(** [array.forEach(f)]: an exception of [f] ends the iteration. *)
Fixpoint forEach {A} (array : list A) (f : A → M) : M :=
  match array with
  | [] => modify id
  | x :: rest => f x ;; forEach rest f
  end.

(** ** The event emitter *)

Definition on (event : string) (cb : callback) : M :=
  modify (λ m,
    let listeners := default [] (eventListeners m !! event) in
    set_eventListeners (<[event := listeners ++ [cb]]> (eventListeners m)) m).

(** [listeners.splice(listeners.indexOf(callback), 1)] *)
Fixpoint remove_first (id : nat) (listeners : list callback) : list callback :=
  match listeners with
  | [] => []
  | cb :: rest => if decide (cb_id cb = id) then rest else cb :: remove_first id rest
  end.

Definition off (event : string) (cb : callback) : M :=
  modify (λ m,
    match eventListeners m !! event with
    | Some listeners =>
        set_eventListeners
          (<[event := remove_first (cb_id cb) listeners]> (eventListeners m)) m
    | None => m
    end).

(** [off(event, callback)] for the function object of identity [id]. *)
Definition off_id (event : string) (id : nat) : M :=
  modify (λ m,
    match eventListeners m !! event with
    | Some listeners =>
        set_eventListeners (<[event := remove_first id listeners]> (eventListeners m)) m
    | None => m
    end).

Definition re_enter (c : re_entry callback) : M :=
  match c with
  | OnCall event cb => on event cb
  | OffCall event id => off_id event id
  end.

(** [callback(data)]: the subscriber runs, calling [on] and [off] as it
    does, and returns or throws. *)
Definition call (event : string) (data : payload) (cb : callback) : M :=
  modify (log (Called event (cb_id cb) data)) ;;
  forEach (cb_calls cb data) re_enter ;;
  if cb_throws cb data then throw "listener failed" else modify id.

(** [listeners.forEach(f)] on the array of [event], which [off] and [on]
    change in place while [f] runs: the indices below the length the
    array had at the start, in order, each read when it is reached, and
    skipped when the array ends before it. *)
Fixpoint forEach_live (event : string) (f : callback → M) (remaining k : nat) : M :=
  match remaining with
  | O => modify id
  | S remaining' =>
      (λ m, match default [] (eventListeners m !! event) !! k with
            | Some callback => f callback m
            | None => Returned m
            end) ;;
      forEach_live event f remaining' (S k)
  end.

Definition emit (event : string) (data : payload) : M :=
  λ m,
    match eventListeners m !! event with
    | Some listeners =>
        forEach_live event (λ callback,
          try_catch (call event data callback)
            (λ error, modify (log (Console "error" "Event listener error:"))))
          (length listeners) 0 m
    | None => Returned m
    end.

(** ** Playback *)

Definition playVideo_guard (m : VideoManager) : bool :=
  isTransitioning m || (length_ (videoUrls m) =? 0).

(** [usePreloadedVideo], up to the promise it returns: only [canplay]
    and the 5 s timer settle it. *)
Definition usePreloadedVideo (preloadedVideo : handle) : M :=
  modify (λ m, update_element (inactiveVideoElement m) (set_src (h_src preloadedVideo)) m) ;;
  modify (set_awaiting (Some (AwaitCanPlay false 5000))).

(** [loadNewVideo], up to the promise it returns: [canplay], [error]
    and the load timer settle it. *)
Definition loadNewVideo (videoUrl : key) : M :=
  modify (λ m, update_element (inactiveVideoElement m) (set_src videoUrl) m) ;;
  modify (λ m, set_awaiting (Some (AwaitCanPlay true (loadTimeout (config m)))) m).

(** [playVideo], up to its first [await]. *)
Definition playVideo (index : Z) : M :=
  λ m,
    if playVideo_guard m then
      Thrown "Cannot play video: transitioning or no URLs" m
    else
      (modify (set_isTransitioning true) ;;
       modify (λ m, set_currentIndex (Z.rem index (length_ (videoUrls m))) m) ;;
       λ m,
         let videoUrl := js_index (videoUrls m) (currentIndex m) in
         match preloadedVideos m !! videoUrl with
         | Some preloadedVideo =>
             if 2 <=? readyState preloadedVideo
             then usePreloadedVideo preloadedVideo m
             else loadNewVideo videoUrl m
         | None => loadNewVideo videoUrl m
         end) m.

(** A NaN index comes from [% 0] alone, that is from an empty playlist,
    where [playVideo] rejects before it reads the index. *)
Definition playVideo_at (index : option Z) : M :=
  match index with
  | Some i => playVideo i
  | None => throw "Cannot play video: transitioning or no URLs"
  end.

Definition playNext : M :=
  λ m,
    let nextIndex := js_rem (currentIndex m + 1) (length_ (videoUrls m)) in
    playVideo_at nextIndex m.

Definition playPrevious : M :=
  λ m,
    let prevIndex :=
      js_rem (currentIndex m - 1 + length_ (videoUrls m)) (length_ (videoUrls m)) in
    playVideo_at prevIndex m.

(** [r] is what [Math.random()] yields, as the index it selects. *)
Definition playRandom (r : nat) : M :=
  λ m,
    let randomIndex :=
      if length_ (videoUrls m) =? 0 then 0
      else Z.of_nat (r `mod` length (videoUrls m)) in
    playVideo randomIndex m.

Definition retryCurrentVideo : M :=
  try_catch (λ m, playVideo (currentIndex m) m)
    (λ error, modify (log (Console "error" "Retry failed:")) ;; playNext).

Definition handleVideoError (video : element) (error : string) : M :=
  modify (λ m, set_errorCount (errorCount m + 1) m) ;;
  modify (log (Console "error" "Video error:")) ;;
  emit "videoError" (ErrorData video error) ;;
  λ m,
    if errorCount m >? maxErrors m then
      (modify (log (Announce SkippingToNext)) ;; playNext) m
    else
      modify (λ m, set_retryTimers (retryTimers m ++ [retryDelay (config m)]) m) m.

(** The callback of the retry timer. *)
Definition retry_timer_callback : M :=
  λ m, if negb (isTransitioning m) then detached retryCurrentVideo m else Returned m.

(** [crossfade], up to the promise it returns. *)
Definition crossfade : M :=
  modify (λ m, update_element (inactiveVideoElement m) (set_paused false) m) ;;
  modify (λ m, update_element (inactiveVideoElement m) (set_opacity (Some 1)) m) ;;
  modify (λ m, update_element (activeVideoElement m) (set_opacity (Some 0)) m) ;;
  modify (λ m, set_awaiting (Some (AwaitCrossfade (crossfadeDuration (config m)))) m).

Definition setupActiveVideoListeners : M :=
  modify (λ m, update_element (inactiveVideoElement m) (set_listening false) m) ;;
  modify (λ m, update_element (activeVideoElement m) (set_listening true) m).

(** The callback of the crossfade timer. *)
Definition crossfade_timer_callback : M :=
  modify (λ m,
    set_activeVideoElement (inactiveVideoElement m)
      (set_inactiveVideoElement (activeVideoElement m) m)) ;;
  modify (λ m, update_element (inactiveVideoElement m) (set_paused true) m) ;;
  setupActiveVideoListeners.

(** ** The preload cache *)

(** [(videoIndex - currentIndex + length) % length] of a cache key. *)
Definition distance (m : VideoManager) (url : key) : option Z :=
  let videoIndex := indexOf (videoUrls m) url in
  js_rem (videoIndex - currentIndex m + length_ (videoUrls m)) (length_ (videoUrls m)).

(** [x > y] where [x] may be NaN. *)
Definition js_gt (x : option Z) (y : Z) : bool :=
  match x with Some x => x >? y | None => false end.

(** The test under which [cleanupPreloadQueue] deletes an entry. *)
Definition evicted (m : VideoManager) (url : key) : bool :=
  let currentUrl := js_index (videoUrls m) (currentIndex m) in
  js_gt (distance m url) (preloadBufferSize (config m))
  && bool_decide (url ≠ currentUrl).

Definition cleanupPreloadQueue : M :=
  modify (λ m,
    let gone := filter (λ kv, evicted m kv.1 = true) (preloadedVideos m) in
    let m := set_preloadedVideos
               (filter (λ kv, evicted m kv.1 = false) (preloadedVideos m)) m in
    set_effects (effects m ++ (DomRemove <$> (map_to_list gone).*1)) m).

(** [preloadVideo], up to [await loadPromise]. *)
Definition preloadVideo (url : key) : M :=
  modify (λ m, set_loadingPromises ({[url]} ∪ loadingPromises m) m) ;;
  modify (log (DomAppend url)) ;;
  modify (λ m, set_preloads (preloads m ++ [url]) m).

(** [updateBufferHealth] only writes a performance metric. *)
Definition updatePreloadQueue : M :=
  cleanupPreloadQueue ;;
  λ m,
    forEach (seq 1 (Z.to_nat (preloadBufferSize (config m)))) (λ i m,
      let nextIndex := js_rem (currentIndex m + Z.of_nat i) (length_ (videoUrls m)) in
      let nextUrl := nextIndex ≫= js_index (videoUrls m) in
      if bool_decide (preloadedVideos m !! nextUrl = None)
         && bool_decide (nextUrl ∉ loadingPromises m)
      then detached (preloadVideo nextUrl) m
      else Returned m) m.

(** [preloadVideo] after [await loadPromise]: the promise resolved with
    the element ([canplaythrough]), or was rejected ([error], timeout). *)
Definition preload_resolved (url : key) (ready : Z) : M :=
  modify (λ m, set_preloadedVideos
                 (<[url := {| h_src := url; readyState := ready |}]> (preloadedVideos m)) m) ;;
  modify (λ m, set_loadingPromises (loadingPromises m ∖ {[url]}) m).

Definition preload_rejected (url : key) : M :=
  modify (log (Console "warn" "Preload failed:")) ;;
  modify (λ m, set_loadingPromises (loadingPromises m ∖ {[url]}) m).

(** ** The rest of [playVideo] *)

(** After [await this.crossfade()]. *)
Definition playVideo_rest : M :=
  updatePreloadQueue ;;
  modify (λ m, log (Announce (PlayingVideo (currentIndex m + 1) (length_ (videoUrls m)))) m).

Definition playVideo_catch (error : string) : M :=
  modify (log (Console "error" "Error playing video:")) ;;
  λ m, detached (handleVideoError (inactiveVideoElement m) error) m.

Definition playVideo_finally : M :=
  modify (set_isTransitioning false).

(** The load promise was rejected: [catch], then [finally]. *)
Definition playVideo_load_failed (error : string) : M :=
  modify (set_awaiting None) ;;
  try_finally (playVideo_catch error) playVideo_finally.

(** The load promise resolved: on to the crossfade. *)
Definition playVideo_loaded : M :=
  modify (set_awaiting None) ;;
  crossfade.

(** The crossfade timer fired: the swap resolves the promise, and the
    rest of the [try] block runs, then [finally]. *)
Definition playVideo_crossfaded : M :=
  modify (set_awaiting None) ;;
  crossfade_timer_callback ;;
  try_finally (try_catch playVideo_rest playVideo_catch) playVideo_finally.

(** ** Media events and the event loop *)

Inductive media_event :=
| LoadStart | CanPlay | Error (message : string) | Ended | TimeUpdate
| Waiting | Playing | Pause.

(** [createVideoEventHandler]: the listeners of the active element. *)
Definition videoEventHandler (e : media_event) (target : element) : M :=
  match e with
  | LoadStart =>
      modify (λ m, set_loadingPromises
                     ({[src (element_state target m)]} ∪ loadingPromises m) m)
  | CanPlay =>
      modify (λ m, set_loadingPromises
                     (loadingPromises m ∖ {[src (element_state target m)]}) m)
  | Error message => detached (handleVideoError target message)
  | Ended => emit "videoEnded" (VideoData target)
  | TimeUpdate => emit "timeUpdate" (TimeData target)
  | Waiting =>
      modify (log (Console "log" "Video buffering:")) ;;
      emit "buffering" (VideoData target)
  | Playing => emit "playing" (VideoData target)
  | Pause => emit "paused" (VideoData target)
  end.

(** The browser dispatches [e] at [target]: to [videoEventHandler] where
    attached, then to the listeners that the pending load promise put on
    the inactive element. *)
Definition dispatch (target : element) (e : media_event) : M :=
  λ m,
    let pending :=
      if decide (target = inactiveVideoElement m) then awaiting m else None in
    ((if listening (element_state target m)
      then videoEventHandler e target else modify id) ;;
     match pending, e with
     | Some (AwaitCanPlay _ _), CanPlay => playVideo_loaded
     | Some (AwaitCanPlay true _), Error message =>
         playVideo_load_failed ("Video load error: " +:+ message)
     | _, _ => modify id
     end) m.

(** [playPromise.catch(...)] in [crossfade]. *)
Definition play_rejected (error : string) : M :=
  modify (log (Console "error" "Playback failed:")) ;;
  emit "playbackError" (PlaybackErrorData error).

Definition destroy : M :=
  modify (λ m, set_effects
                 (effects m ++ (DomRemove <$> (map_to_list (preloadedVideos m)).*1)) m) ;;
  modify (set_preloadedVideos ∅) ;;
  modify (set_loadingPromises ∅) ;;
  modify (set_eventListeners ∅) ;;
  modify (λ m, update_element (activeVideoElement m) (set_listening false) m) ;;
  modify (λ m, update_element (inactiveVideoElement m) (set_listening false) m).

Record VideoInfo := { index : Z; total : Z; url : key }.

Definition getCurrentVideoInfo (m : VideoManager) : VideoInfo :=
  {| index := currentIndex m;
     total := length_ (videoUrls m);
     url := js_index (videoUrls m) (currentIndex m) |}.

Fixpoint remove_one (url : key) (l : list key) : list key :=
  match l with
  | [] => []
  | x :: rest => if decide (x = url) then rest else x :: remove_one url rest
  end.

(** Everything that can happen to an initialized manager: the
    application calls a method, or the browser runs a listener or a
    timer callback. *)
Inductive event :=
| CallPlayVideo (index : Z)
| CallPlayNext
| CallPlayPrevious
| CallPlayRandom (r : nat)
| CallUpdatePreloadQueue
| SetPreloadBufferSize (n : Z)
| CallOn (name : string) (cb : callback)
| CallOff (name : string) (cb : callback)
| CallEmit (name : string) (data : payload)
| CallDestroy
| Media (target : element) (e : media_event)
| LoadTimerFires
| CrossfadeTimerFires
| RetryTimerFires
| PlayRejected (error : string)
| PreloadCanPlayThrough (url : key) (ready : Z)
| PreloadFails (url : key).

Definition handler (e : event) : M :=
  match e with
  | CallPlayVideo index => playVideo index
  | CallPlayNext => playNext
  | CallPlayPrevious => playPrevious
  | CallPlayRandom r => playRandom r
  | CallUpdatePreloadQueue => updatePreloadQueue
  | SetPreloadBufferSize n =>
      modify (λ m, set_config (set_preloadBufferSize n (config m)) m)
  | CallOn name cb => on name cb
  | CallOff name cb => off name cb
  | CallEmit name data => emit name data
  | CallDestroy => destroy
  | Media target e => dispatch target e
  | LoadTimerFires =>
      λ m, match awaiting m with
           | Some (AwaitCanPlay true _) => playVideo_load_failed "Video load timeout" m
           | Some (AwaitCanPlay false _) =>
               playVideo_load_failed "Preloaded video setup timeout" m
           | _ => Returned m
           end
  | CrossfadeTimerFires =>
      λ m, match awaiting m with
           | Some (AwaitCrossfade _) => playVideo_crossfaded m
           | _ => Returned m
           end
  | RetryTimerFires =>
      λ m, match retryTimers m with
           | _ :: rest => (modify (set_retryTimers rest) ;; retry_timer_callback) m
           | [] => Returned m
           end
  | PlayRejected error => play_rejected error
  | PreloadCanPlayThrough url ready =>
      λ m, if bool_decide (url ∈ preloads m)
           then (modify (set_preloads (remove_one url (preloads m))) ;;
                 preload_resolved url ready) m
           else Returned m
  | PreloadFails url =>
      λ m, if bool_decide (url ∈ preloads m)
           then (modify (set_preloads (remove_one url (preloads m))) ;;
                 preload_rejected url) m
           else Returned m
  end.

Definition step (e : event) (m : VideoManager) : VideoManager :=
  state_of (handler e m).

Definition run (es : list event) (m : VideoManager) : VideoManager :=
  fold_left (λ m e, step e m) es m.

(** ** Construction and initialization *)

Definition fresh_video : video :=
  {| src := undefined; opacity := None; paused := true; listening := false;
     configured := false |}.

Definition default_config (mobile : bool) : Config :=
  {| preloadBufferSize := if mobile then 1 else 3;
     maxRetries := 3;
     retryDelay := 1000;
     loadTimeout := 30000;
     crossfadeDuration := 1500 |}.

(** [new VideoManager(config)] on a page with its two elements.  The
    two slot fields are null until [initialize] assigns them; nothing
    reads them before. *)
Definition constructor (cfg : Config) : VideoManager :=
  {| config := cfg;
     videoUrls := [];
     currentIndex := -1;
     videoA := fresh_video;
     videoB := fresh_video;
     activeVideoElement := VideoA;
     inactiveVideoElement := VideoB;
     isTransitioning := false;
     preloadedVideos := ∅;
     loadingPromises := ∅;
     errorCount := 0;
     maxErrors := 10;
     eventListeners := ∅;
     awaiting := None;
     retryTimers := [];
     preloads := [];
     effects := [] |}.

(** The code units [trim] strips, among the ASCII ones. *)
Definition js_whitespace (c : Ascii.ascii) : bool :=
  bool_decide (Ascii.nat_of_ascii c ∈ [9; 10; 11; 12; 13; 32]%nat).

(** [!url.trim()] *)
Fixpoint blank (url : string) : bool :=
  match url with
  | EmptyString => true
  | String c rest => js_whitespace c && blank rest
  end.

Section Initialization.

(** [new URL(url)] returns rather than throws. *)
Variable URL_parses : string → bool.
(** [Math.random()] in the iterations of [shuffle]. *)
Variable draw : nat → nat.

(** The callback of [urls.filter]; the entries are strings. *)
Definition valid (url : string) : bool :=
  if blank url then false else URL_parses url.

Definition setVideoUrls (urls : list string) : M :=
  λ m,
    if length_ urls =? 0 then Thrown "Invalid video URLs provided" m
    else
      let validUrls := List.filter valid urls in
      let warned := List.filter (λ url, negb (blank url) && negb (URL_parses url)) urls in
      let m := set_effects
                 (effects m ++ ((λ _, Console "warn" "Invalid URL detected:") <$> warned)) m in
      if length_ validUrls =? 0 then Thrown "No valid video URLs found" m
      else
        (modify (set_videoUrls (ArrayUtils.shuffle draw validUrls)) ;;
         modify (log (Console "log" "Loaded video URLs"))) m.

Definition setupVideoElements : M :=
  modify (update_element VideoA (set_configured true)) ;;
  modify (update_element VideoB (set_configured true)).

Definition initialize (videoUrls : list string) : M :=
  modify (set_activeVideoElement VideoA) ;;
  modify (set_inactiveVideoElement VideoB) ;;
  setVideoUrls videoUrls ;;
  setupVideoElements ;;
  modify (log (Announce Initialized)).

End Initialization.

(** * Predicates and examples for the properties *)

(** What an operation keeps: [R] relates the state before to the state
    after, thrown or not. *)
Definition preserves (R : relation VideoManager) (a : M) : Prop :=
  ∀ m, R m (state_of (a m)).

(** ** Relations between the state before and after an operation *)

(** [passive]: the operation leaves playback alone (it may touch the
    elements, the caches, the subscribers and the effects). *)
Definition passive (m m' : VideoManager) : Prop :=
  activeVideoElement m' = activeVideoElement m
  ∧ inactiveVideoElement m' = inactiveVideoElement m
  ∧ currentIndex m' = currentIndex m
  ∧ isTransitioning m' = isTransitioning m
  ∧ awaiting m' = awaiting m
  ∧ errorCount m' = errorCount m
  ∧ maxErrors m' = maxErrors m
  ∧ videoUrls m' = videoUrls m
  ∧ retryTimers m' = retryTimers m
  ∧ config m' = config m.

(** [same_cache]: the operation leaves the preload cache and what its
    window is computed from alone. *)
Definition same_cache (m m' : VideoManager) : Prop :=
  preloadedVideos m' = preloadedVideos m
  ∧ config m' = config m
  ∧ videoUrls m' = videoUrls m
  ∧ currentIndex m' = currentIndex m.

(** [calm]: the operation does not resume the running [playVideo].  The
    slots stay, the error count does not fall, a transition is at most
    begun, and nothing changes the cursor of a transition under way. *)
Definition calm (m m' : VideoManager) : Prop :=
  activeVideoElement m' = activeVideoElement m
  ∧ inactiveVideoElement m' = inactiveVideoElement m
  ∧ errorCount m ≤ errorCount m'
  ∧ maxErrors m' = maxErrors m
  ∧ videoUrls m' = videoUrls m
  ∧ ((isTransitioning m' = isTransitioning m ∧ awaiting m' = awaiting m)
     ∨ (isTransitioning m' = true ∧ is_Some (awaiting m')))
  ∧ (isTransitioning m = true →
     isTransitioning m' = true ∧ currentIndex m' = currentIndex m
     ∧ awaiting m' = awaiting m).

Definition swapped (m m' : VideoManager) : Prop :=
  activeVideoElement m' = inactiveVideoElement m
  ∧ inactiveVideoElement m' = activeVideoElement m.

Definition same_slots (m m' : VideoManager) : Prop :=
  activeVideoElement m' = activeVideoElement m
  ∧ inactiveVideoElement m' = inactiveVideoElement m.

(** ** Predicates on operations, states and runs *)

Definition returns (a : M) : Prop := ∀ m, a m = Returned (state_of (a m)).

Definition awaits_crossfade (m : VideoManager) : bool :=
  match awaiting m with Some (AwaitCrossfade _) => true | _ => false end.

(** The flag is up exactly while a promise of [playVideo] is pending. *)
Definition consistent (m : VideoManager) : Prop :=
  isTransitioning m = true ↔ is_Some (awaiting m).

(** What any one step may do.  The slots change in one way only, when
    the crossfade timer ends a crossfade; the error count never falls;
    the cursor of a transition under way is left alone; a step that
    leaves no promise of [playVideo] pending leaves the flag down; the
    flag comes down either with that swap or with a failed load, which
    is counted; and [consistent] is kept. *)
Definition stepped (e : event) (m m' : VideoManager) : Prop :=
  (same_slots m m'
   ∨ (e = CrossfadeTimerFires ∧ awaits_crossfade m = true ∧ swapped m m'
      ∧ isTransitioning m' = false))
  ∧ errorCount m ≤ errorCount m'
  ∧ maxErrors m' = maxErrors m
  ∧ videoUrls m' = videoUrls m
  ∧ (isTransitioning m = true → currentIndex m' = currentIndex m)
  ∧ (is_Some (awaiting m) → awaiting m' = None → isTransitioning m' = false)
  ∧ (isTransitioning m = true → isTransitioning m' = false →
     (e = CrossfadeTimerFires ∧ swapped m m')
     ∨ (e ≠ CrossfadeTimerFires ∧ same_slots m m' ∧ errorCount m < errorCount m'))
  ∧ (consistent m → consistent m').

(** The events [es], one after the other from [m], all find the
    transition flag up, and the last of them takes it down: [es] runs
    within one transition and ends it. *)
Fixpoint settles (es : list event) (m : VideoManager) : bool :=
  match es with
  | [] => negb (isTransitioning m)
  | e :: es' => isTransitioning m && settles es' (step e m)
  end.

(** A load that fails: the load timer, or an [error] event. *)
Definition load_failure (e : event) : bool :=
  match e with
  | LoadTimerFires | Media _ (Error _) => true
  | _ => false
  end.

(** The timer that bounds the promise [playVideo] is suspended on. *)
Definition bounding_timer (m : VideoManager) : event :=
  match awaiting m with
  | Some (AwaitCrossfade _) => CrossfadeTimerFires
  | _ => LoadTimerFires
  end.

(** The manager once [handleVideoError] has counted the failure and
    reported it, before it decides what to do. *)
Definition counted (video : element) (error : string) (m : VideoManager) : VideoManager :=
  state_of ((modify (λ m, set_errorCount (errorCount m + 1) m) ;;
             modify (log (Console "error" "Video error:")) ;;
             emit "videoError" (ErrorData video error)) m).

(** ** Observations of the effects *)

(** The subscribers invoked, in order, with what they were handed. *)
Definition calls (log : list effect) : list (string * nat * payload) :=
  omap (λ e, match e with Called event cb data => Some (event, cb, data) | _ => None end)
       log.

(** The listener failures reported on the console. *)
Definition listener_errors (log : list effect) : nat :=
  length (List.filter (λ e, match e with
                            | Console "error" "Event listener error:" => true
                            | _ => false
                            end) log).

(** ** Example managers *)

(** A parser of which only this is known: that it accepts [known]. *)
Definition accepts (known : list string) : string → bool :=
  λ url, bool_decide (url ∈ known).

(** Draws under which [shuffle] leaves the order as it is. *)
Definition draw_last : nat → nat := id.

Definition url_a : string := "https://example.com/a.mp4".

Definition url_b : string := "https://example.com/b.mp4".

Definition url_c : string := "https://example.com/c.mp4".

Definition url_d : string := "https://example.com/d.mp4".

(** A desktop manager on the playlist [a, b, c]. *)
Definition manager_abc : VideoManager :=
  state_of (initialize (accepts [url_a; url_b; url_c]) draw_last [url_a; url_b; url_c]
              (constructor (default_config false))).

(** The same after [playVideo(0)] has succeeded. *)
Definition playing_a : VideoManager :=
  run [CallPlayVideo 0; Media VideoB CanPlay; CrossfadeTimerFires] manager_abc.

(** A manager on the playlist [a, b, c, a, d] with a buffer of 1: [c]
    played, [a] preloaded meanwhile, then the second [a] played. *)
Definition playing_second_a : VideoManager :=
  run [CallPlayVideo 2; Media VideoB CanPlay; CrossfadeTimerFires;
       PreloadCanPlayThrough (Some url_a) 4;
       CallPlayVideo 3; Media VideoA CanPlay; CrossfadeTimerFires]
    (state_of (initialize (accepts [url_a; url_b; url_c; url_d]) draw_last
                 [url_a; url_b; url_c; url_a; url_d]
                 (constructor (default_config true)))).

(** Ten failures reported on the active element. *)
Definition ten_errors : VideoManager :=
  run (replicate 10 (Media VideoB (Error "decode"))) playing_a.

(** The same, and a transition to index 1 then begun. *)
Definition ten_errors_then_loading : VideoManager :=
  step (CallPlayVideo 1) ten_errors.

(** ** The cursor and the playlist *)

(** The cursor is [-1], as before the first play, or an index of the
    playlist. *)
Definition in_range (m : VideoManager) : Prop :=
  -1 ≤ currentIndex m < length_ (videoUrls m).

(** [ranged]: the operation keeps the playlist, and the cursor inside
    it. *)
Definition ranged (m m' : VideoManager) : Prop :=
  videoUrls m' = videoUrls m ∧ (in_range m → in_range m').

(** The application calls [playVideo] with an index that is not
    negative ([Math.floor(Math.random() * length)]). *)
Definition well_called (e : event) : Prop :=
  match e with
  | CallPlayVideo index => 0 ≤ index
  | _ => True
  end.

(** ** Subscribers *)

(** The callbacks [emit] calls for [event], in order. *)
Definition subscribers (event : string) (m : VideoManager) : list callback :=
  default [] (eventListeners m !! event).

(** [cb], handed [data], calls neither [on] nor [off]. *)
Definition inert (data : payload) (cb : callback) : Prop := cb_calls cb data = [].

(** A subscriber that unsubscribes itself from ["playing"] and then
    throws, and one that only listens. *)
Definition unsubscribes_and_throws : callback :=
  {| cb_id := 1; cb_throws := λ _, true; cb_calls := λ _, [OffCall "playing" 1%nat] |}.

Definition listens : callback :=
  {| cb_id := 2; cb_throws := λ _, false; cb_calls := λ _, [] |}.

(** [cb] (the function object with its identity) is subscribed. *)
Definition subscribed (cb : callback) (listeners : list callback) : Prop :=
  cb_id cb ∈ cb_id <$> listeners.

(** ** The preload window *)

(** [nextUrl] in the [i]-th round of the loop of [updatePreloadQueue]. *)
Definition nextUrl (m : VideoManager) (i : nat) : key :=
  js_rem (currentIndex m + Z.of_nat i) (length_ (videoUrls m)) ≫= js_index (videoUrls m).

(** The [i]-th round of that loop. *)
Definition preload_round (i : nat) : M :=
  λ m,
    if bool_decide (preloadedVideos m !! nextUrl m i = None)
       && bool_decide (nextUrl m i ∉ loadingPromises m)
    then detached (preloadVideo (nextUrl m i)) m
    else Returned m.

(** [url] is in the cache or being loaded into it. *)
Definition covered (m : VideoManager) (url : key) : Prop :=
  is_Some (preloadedVideos m !! url) ∨ url ∈ loadingPromises m.

(** ** The media listeners of the two elements *)

(** [same_listeners]: the operation leaves the slots and the listeners
    [videoEventHandler] has on the two elements as they are. *)
Definition same_listeners (m m' : VideoManager) : Prop :=
  activeVideoElement m' = activeVideoElement m
  ∧ inactiveVideoElement m' = inactiveVideoElement m
  ∧ listening (videoA m') = listening (videoA m)
  ∧ listening (videoB m') = listening (videoB m).

(** The slots name the two elements, and the inactive one does not
    carry [videoEventHandler]. *)
Definition quiet (m : VideoManager) : Prop :=
  activeVideoElement m ≠ inactiveVideoElement m
  ∧ listening (element_state (inactiveVideoElement m) m) = false.

Definition keeps_quiet (m m' : VideoManager) : Prop := quiet m → quiet m'.

(** [playVideo] is suspended on a load promise. *)
Definition awaits_load (m : VideoManager) : bool :=
  match awaiting m with Some (AwaitCanPlay _ _) => true | _ => false end.

(** ** Exponential backoff *)

(** The first [n] delays of [retry]: [baseDelay], twice that, and so on. *)
Definition backoff (baseDelay n : Z) : list Z :=
  (λ j, baseDelay * 2 ^ j) <$> seqZ 0 n.


(** ** Runs of a throttled and of a debounced function *)

Definition throttle_run {A} (es : list (PerformanceUtils.closure_event
                                         (PerformanceUtils.invocation A)))
  : PerformanceUtils.throttled A :=
  fold_left PerformanceUtils.throttle_step es PerformanceUtils.throttle.

(** A call whose [func] neither throws nor calls the throttled function. *)
Definition plain {A} (e : PerformanceUtils.closure_event (PerformanceUtils.invocation A))
  : Prop :=
  match e with
  | PerformanceUtils.Call c =>
      PerformanceUtils.nested_calls c = [] ∧ PerformanceUtils.func_throws c = false
  | PerformanceUtils.TimerFires => True
  end.

(** A call whose [func] calls the throttled function again, [depth]
    calls deep. *)
Fixpoint chain {A} (args : A) (depth : nat) : PerformanceUtils.invocation A :=
  match depth with
  | O => PerformanceUtils.Invoke args [] false
  | S depth' => PerformanceUtils.Invoke args [chain args depth'] false
  end.

Definition debounce_run {A} (es : list (PerformanceUtils.closure_event A))
  : PerformanceUtils.debounced A :=
  fold_left PerformanceUtils.debounce_step es PerformanceUtils.debounce.

(** The timer firings among the events. *)
Definition firings {A} (es : list (PerformanceUtils.closure_event A)) : nat :=
  length (List.filter
            (λ e, match e with PerformanceUtils.TimerFires => true | _ => false end) es).

(** ** Characters of a string *)

(** [s.includes(c)] for a character [c]. *)
Fixpoint occurs (c : Ascii.ascii) (s : string) : bool :=
  match s with
  | EmptyString => false
  | String c' rest => Ascii.eqb c' c || occurs c rest
  end.

(** ** The two elements *)

(** [same_elements]: the operation leaves the slots and the two
    elements as they are. *)
Definition same_elements (m m' : VideoManager) : Prop :=
  activeVideoElement m' = activeVideoElement m
  ∧ inactiveVideoElement m' = inactiveVideoElement m
  ∧ videoA m' = videoA m
  ∧ videoB m' = videoB m.

(** The entries of the cache carry the URL they are filed under. *)
Definition cache_sound (m : VideoManager) : Prop :=
  ∀ url preloadedVideo,
    preloadedVideos m !! url = Some preloadedVideo → h_src preloadedVideo = url.

(** The media events a pending load or the error handling reacts to. *)
Definition load_outcome (e : media_event) : bool :=
  match e with CanPlay | Error _ => true | _ => false end.

(** ** Eleven load failures in a row *)

(** [playVideo(0)]; its load times out; ten times the retry timer fires
    and the load of the retry times out. *)
Definition eleven_load_failures : list event :=
  CallPlayVideo 0 :: LoadTimerFires
  :: concat (replicate 10 [RetryTimerFires; LoadTimerFires]).

(** What has been announced, in order. *)
Definition announced (log : list effect) : list announcement :=
  omap (λ e, match e with Announce message => Some message | _ => None end) log.

(** ** The preload window *)

(** [url] stands at a position of the playlist whose wrapped forward
    distance from the cursor is at most the buffer size. *)
Definition within_window (m : VideoManager) (url : string) : Prop :=
  ∃ entryIndex : nat,
    videoUrls m !! entryIndex = Some url
    ∧ (Z.of_nat entryIndex - currentIndex m + length_ (videoUrls m))
        `mod` length_ (videoUrls m)
      ≤ preloadBufferSize (config m).

(** * Properties *)

(** ** The shuffle is a permutation *)

Lemma swap_Permutation {A} (a : list A) (i j : nat) : ArrayUtils.swap a i j ≡ₚ a.
Proof.
  unfold ArrayUtils.swap.
  destruct (a !! i) as [x|] eqn:Hi; [|done].
  destruct (a !! j) as [y|] eqn:Hj; [|done].
  by apply Permutation_insert_swap.
Qed.

Lemma shuffle_from_Permutation {A} (draw : nat → nat) (i : nat) (a : list A) :
  ArrayUtils.shuffle_from draw i a ≡ₚ a.
Proof.
  revert a. induction i as [|i IH]; intros a; simpl; [done|].
  rewrite IH. apply swap_Permutation.
Qed.

Lemma shuffle_Permutation {A} (draw : nat → nat) (array : list A) :
  ArrayUtils.shuffle draw array ≡ₚ array.
Proof. apply shuffle_from_Permutation. Qed.

Lemma length_zero {A} (l : list A) : (length_ l =? 0) = bool_decide (l = []).
Proof.
  destruct l as [|x l]; [done|].
  transitivity false; [|symmetry; by apply bool_decide_eq_false_2].
  apply Z.eqb_neq. unfold length_. simpl. lia.
Qed.

(** ** What [setVideoUrls] and [initialize] store *)

Section InitializationFacts.

Variable URL_parses : string → bool.
Variable draw : nat → nat.

Lemma setVideoUrls_returns urls m :
  List.filter (valid URL_parses) urls ≠ [] →
  ∃ m', setVideoUrls URL_parses draw urls m = Returned m'
        ∧ videoUrls m' = ArrayUtils.shuffle draw (List.filter (valid URL_parses) urls)
        ∧ activeVideoElement m' = activeVideoElement m
        ∧ inactiveVideoElement m' = inactiveVideoElement m.
Proof.
  intros Hvalid. unfold setVideoUrls.
  rewrite !length_zero.
  rewrite bool_decide_eq_false_2.
  2:{ intros ->. by apply Hvalid. }
  rewrite bool_decide_eq_false_2 by done.
  eexists. split; [reflexivity|]. done.
Qed.


Lemma initialize_returns urls m :
  List.filter (valid URL_parses) urls ≠ [] →
  ∃ m', initialize URL_parses draw urls m = Returned m'
        ∧ videoUrls m' = ArrayUtils.shuffle draw (List.filter (valid URL_parses) urls)
        ∧ activeVideoElement m' = VideoA
        ∧ inactiveVideoElement m' = VideoB.
Proof.
  intros Hvalid. unfold initialize, andThen at 1 2. simpl.
  destruct (setVideoUrls_returns urls
              (set_inactiveVideoElement VideoB (set_activeVideoElement VideoA m)) Hvalid)
    as (m' & Hset & Hurls & Ha & Hb).
  unfold andThen at 1. rewrite Hset. simpl.
  eexists. split; [reflexivity|]. done.
Qed.


Lemma filter_all_valid urls :
  Forall (λ url, valid URL_parses url = true) urls →
  List.filter (valid URL_parses) urls = urls.
Proof.
  induction 1 as [|url urls Hurl _ IH]; simpl; [done|].
  by rewrite Hurl, IH.
Qed.

End InitializationFacts.

(** ** Frames

    A relation between the state before and after is established for
    the small operations and carried through [;;], [try] and [forEach]. *)

Section Preserves.

Variable R : relation VideoManager.
Context `{!PreOrder R}.

Lemma preserves_modify f : (∀ m, R m (f m)) → preserves R (modify f).
Proof. intros Hf m. apply Hf. Qed.

Lemma preserves_throw error : preserves R (throw error).
Proof. intros m. simpl. reflexivity. Qed.

Lemma preserves_andThen a b : preserves R a → preserves R b → preserves R (a ;; b).
Proof.
  intros Ha Hb m. unfold andThen. specialize (Ha m).
  destruct (a m) as [m'|e m']; simpl in *; [|done].
  etransitivity; [exact Ha|apply Hb].
Qed.

Lemma preserves_try_catch a h :
  preserves R a → (∀ e, preserves R (h e)) → preserves R (try_catch a h).
Proof.
  intros Ha Hh m. unfold try_catch. specialize (Ha m).
  destruct (a m) as [m'|e m']; simpl in *; [done|].
  etransitivity; [exact Ha|apply Hh].
Qed.

Lemma preserves_try_finally a b :
  preserves R a → preserves R b → preserves R (try_finally a b).
Proof.
  intros Ha Hb m. unfold try_finally. specialize (Ha m).
  destruct (a m) as [m'|e m']; simpl in *.
  - etransitivity; [exact Ha|apply Hb].
  - specialize (Hb m'). destruct (b m'); simpl in *; by etransitivity.
Qed.

Lemma preserves_detached a :
  (∀ e m, R m (log e m)) → preserves R a → preserves R (detached a).
Proof.
  intros Hlog Ha. apply preserves_try_catch; [done|].
  intros e. apply preserves_modify, Hlog.
Qed.

Lemma preserves_forEach {A} (l : list A) f :
  (∀ x, preserves R (f x)) → preserves R (forEach l f).
Proof.
  intros Hf. induction l as [|x l IH]; simpl.
  - apply preserves_modify. intros m. reflexivity.
  - by apply preserves_andThen.
Qed.

Lemma preserves_forEach_live event f remaining k :
  (∀ callback, preserves R (f callback)) → preserves R (forEach_live event f remaining k).
Proof.
  intros Hf. revert k. induction remaining as [|remaining IH]; intros k; simpl.
  - apply preserves_modify. intros m. reflexivity.
  - apply preserves_andThen; [|apply IH].
    intros m. destruct (_ !! k); [apply Hf|reflexivity].
Qed.

(** An operation that first reads the state it runs on. *)
Lemma preserves_reading (a : VideoManager → M) :
  (∀ m0, preserves R (a m0)) → preserves R (λ m, a m m).
Proof. intros Ha m. apply Ha. Qed.

Lemma preserves_returned : preserves R Returned.
Proof. intros m. simpl. reflexivity. Qed.

End Preserves.

#[global] Instance passive_preorder : PreOrder passive.
Proof.
  split.
  - intros m. by repeat split.
  - intros m1 m2 m3 H12 H23. unfold passive in *.
    destruct_and!. repeat split; congruence.
Qed.

#[global] Instance same_cache_preorder : PreOrder same_cache.
Proof.
  split.
  - intros m. by repeat split.
  - intros m1 m2 m3 H12 H23. unfold same_cache in *.
    destruct_and!. repeat split; congruence.
Qed.

#[global] Instance calm_preorder : PreOrder calm.
Proof.
  split.
  - intros m. unfold calm. repeat split; auto; lia.
  - intros m1 m2 m3 H12 H23. unfold calm in *.
    destruct H12 as (?&?&?&?&?&Hb12&Hc12), H23 as (?&?&?&?&?&Hb23&Hc23).
    split; [congruence|]. split; [congruence|]. split; [lia|].
    split; [congruence|]. split; [congruence|]. split.
    + destruct Hb23 as [[? ?]|[? ?]]; [|by right].
      destruct Hb12 as [[? ?]|[? ?]]; [left|right]; split; congruence.
    + intros Hbusy. destruct (Hc12 Hbusy) as (Hf&?&?).
      destruct (Hc23 Hf) as (?&?&?). repeat split; congruence.
Qed.

Lemma passive_calm m m' : passive m m' → calm m m'.
Proof.
  unfold passive, calm. intros (?&?&?&?&?&?&?&?&?&?).
  repeat split; auto; try lia. congruence.
Qed.

Lemma preserves_passive_calm a : preserves passive a → preserves calm a.
Proof. intros Ha m. apply passive_calm, Ha. Qed.

Create HintDb frame.

#[global] Hint Resolve passive_preorder calm_preorder same_cache_preorder : frame.
#[global] Hint Resolve preserves_modify preserves_throw preserves_andThen
  preserves_try_catch preserves_try_finally preserves_detached
  preserves_forEach preserves_forEach_live preserves_returned : frame.

(** A setter of a field outside the relation. *)
Ltac frame_field :=
  intros;
  first [ progress unfold passive | progress unfold calm | progress unfold same_cache ];
  simpl; repeat split; intros; simpl in *; auto; try lia.

(** Decompose an operation along its structure; [frame_field] closes the
    leaves that only set a field. *)
Ltac frame :=
  repeat first
    [ match goal with |- PreOrder _ => exact _ end
    | solve [auto with frame nocore]
    | apply preserves_andThen
    | apply preserves_try_catch; [|intros ?]
    | apply preserves_try_finally
    | apply preserves_detached; [solve [frame_field]|]
    | apply preserves_forEach; intros ?
    | apply preserves_forEach_live; intros ?
    | apply preserves_modify; solve [frame_field]
    | apply preserves_throw
    | apply preserves_returned ].

(** [update_element] touches the two elements only. *)

Lemma update_element_config el f m : config (update_element el f m) = config m.
Proof. by destruct el. Qed.

Lemma update_element_videoUrls el f m : videoUrls (update_element el f m) = videoUrls m.
Proof. by destruct el. Qed.

Lemma update_element_currentIndex el f m : currentIndex (update_element el f m) = currentIndex m.
Proof. by destruct el. Qed.

Lemma update_element_activeVideoElement el f m : activeVideoElement (update_element el f m) = activeVideoElement m.
Proof. by destruct el. Qed.

Lemma update_element_inactiveVideoElement el f m : inactiveVideoElement (update_element el f m) = inactiveVideoElement m.
Proof. by destruct el. Qed.

Lemma update_element_isTransitioning el f m : isTransitioning (update_element el f m) = isTransitioning m.
Proof. by destruct el. Qed.

Lemma update_element_preloadedVideos el f m : preloadedVideos (update_element el f m) = preloadedVideos m.
Proof. by destruct el. Qed.

Lemma update_element_loadingPromises el f m : loadingPromises (update_element el f m) = loadingPromises m.
Proof. by destruct el. Qed.

Lemma update_element_errorCount el f m : errorCount (update_element el f m) = errorCount m.
Proof. by destruct el. Qed.

Lemma update_element_maxErrors el f m : maxErrors (update_element el f m) = maxErrors m.
Proof. by destruct el. Qed.

Lemma update_element_eventListeners el f m : eventListeners (update_element el f m) = eventListeners m.
Proof. by destruct el. Qed.

Lemma update_element_awaiting el f m : awaiting (update_element el f m) = awaiting m.
Proof. by destruct el. Qed.

Lemma update_element_retryTimers el f m : retryTimers (update_element el f m) = retryTimers m.
Proof. by destruct el. Qed.

Lemma update_element_preloads el f m : preloads (update_element el f m) = preloads m.
Proof. by destruct el. Qed.

Lemma update_element_effects el f m : effects (update_element el f m) = effects m.
Proof. by destruct el. Qed.

Create Rewrite HintDb fields.

#[global] Hint Rewrite update_element_config
  update_element_videoUrls
  update_element_currentIndex
  update_element_activeVideoElement
  update_element_inactiveVideoElement
  update_element_isTransitioning
  update_element_preloadedVideos
  update_element_loadingPromises
  update_element_errorCount
  update_element_maxErrors
  update_element_eventListeners
  update_element_awaiting
  update_element_retryTimers
  update_element_preloads
  update_element_effects : fields.

(** *** Operations that leave playback alone *)

Lemma log_passive e m : passive m (log e m).
Proof. frame_field. Qed.

Lemma update_element_passive el f m : passive m (update_element el f m).
Proof. unfold passive. autorewrite with fields. by split_and!. Qed.

#[global] Hint Resolve log_passive update_element_passive : frame.

Lemma on_passive event cb : preserves passive (on event cb).
Proof. unfold on. frame. Qed.

Lemma off_passive event cb : preserves passive (off event cb).
Proof.
  unfold off. apply (preserves_modify passive). intros m.
  destruct (eventListeners m !! event); [frame_field|reflexivity].
Qed.

Lemma off_id_passive event id : preserves passive (off_id event id).
Proof.
  unfold off_id. apply (preserves_modify passive). intros m.
  destruct (eventListeners m !! event); [frame_field|reflexivity].
Qed.

Lemma re_enter_passive c : preserves passive (re_enter c).
Proof. destruct c; simpl; [apply on_passive|apply off_id_passive]. Qed.

#[global] Hint Resolve on_passive off_passive off_id_passive re_enter_passive : frame.

Lemma call_passive event data cb : preserves passive (call event data cb).
Proof. unfold call. destruct (cb_throws cb data); frame. Qed.

#[global] Hint Resolve call_passive : frame.

Lemma emit_passive event data : preserves passive (emit event data).
Proof.
  intros m. unfold emit.
  destruct (eventListeners m !! event) as [listeners|]; [|reflexivity].
  apply (preserves_forEach_live passive). intros callback. frame.
Qed.

#[global] Hint Resolve emit_passive : frame.

Lemma cleanupPreloadQueue_passive : preserves passive cleanupPreloadQueue.
Proof. unfold cleanupPreloadQueue. frame. Qed.

Lemma preloadVideo_passive url : preserves passive (preloadVideo url).
Proof. unfold preloadVideo. frame. Qed.

#[global] Hint Resolve cleanupPreloadQueue_passive preloadVideo_passive : frame.

Lemma updatePreloadQueue_passive : preserves passive updatePreloadQueue.
Proof.
  unfold updatePreloadQueue. apply (preserves_andThen passive); [frame|].
  intros m. apply (preserves_forEach passive). intros i m'.
  destruct (_ && _); [|reflexivity].
  apply (preserves_detached passive); frame.
Qed.

Lemma preload_resolved_passive url ready : preserves passive (preload_resolved url ready).
Proof. unfold preload_resolved. frame. Qed.

Lemma preload_rejected_passive url : preserves passive (preload_rejected url).
Proof. unfold preload_rejected. frame. Qed.

#[global] Hint Resolve updatePreloadQueue_passive preload_resolved_passive
  preload_rejected_passive : frame.

Lemma playVideo_rest_passive : preserves passive playVideo_rest.
Proof. unfold playVideo_rest. frame. Qed.

Lemma setupActiveVideoListeners_passive : preserves passive setupActiveVideoListeners.
Proof. unfold setupActiveVideoListeners. frame. Qed.

Lemma play_rejected_passive error : preserves passive (play_rejected error).
Proof. unfold play_rejected. frame. Qed.

Lemma destroy_passive : preserves passive destroy.
Proof. unfold destroy. frame. Qed.

#[global] Hint Resolve playVideo_rest_passive setupActiveVideoListeners_passive
  play_rejected_passive destroy_passive : frame.

(** *** Operations that may begin a transition *)

Lemma log_calm e m : calm m (log e m).
Proof. apply passive_calm, log_passive. Qed.

#[global] Hint Resolve log_calm : frame.

Lemma emit_calm event data : preserves calm (emit event data).
Proof. apply preserves_passive_calm, emit_passive. Qed.

#[global] Hint Resolve emit_calm : frame.

Lemma playVideo_rejects index m :
  playVideo_guard m = true →
  playVideo index m = Thrown "Cannot play video: transitioning or no URLs" m.
Proof. intros Hguard. unfold playVideo. by rewrite Hguard. Qed.

Lemma playVideo_busy index m :
  isTransitioning m = true →
  playVideo index m = Thrown "Cannot play video: transitioning or no URLs" m.
Proof. intros Hbusy. apply playVideo_rejects. unfold playVideo_guard. by rewrite Hbusy. Qed.

(** An admitted [playVideo]: the flag, the cursor, the source of the
    inactive element and the pending load, nothing else. *)
Lemma playVideo_admitted index m :
  playVideo_guard m = false →
  ∃ m', playVideo index m = Returned m'
        ∧ isTransitioning m' = true
        ∧ currentIndex m' = Z.rem index (length_ (videoUrls m))
        ∧ (∃ onError timeout, awaiting m' = Some (AwaitCanPlay onError timeout))
        ∧ activeVideoElement m' = activeVideoElement m
        ∧ inactiveVideoElement m' = inactiveVideoElement m
        ∧ errorCount m' = errorCount m
        ∧ maxErrors m' = maxErrors m
        ∧ videoUrls m' = videoUrls m
        ∧ retryTimers m' = retryTimers m.
Proof.
  intros Hguard. unfold playVideo. rewrite Hguard.
  unfold andThen at 1 2. simpl.
  match goal with |- context [preloadedVideos ?s !! ?k] =>
    destruct (preloadedVideos s !! k) as [h|] end.
  - destruct (2 <=? readyState h).
    + unfold usePreloadedVideo, andThen, modify. simpl.
      eexists. split; [reflexivity|].
      simpl. autorewrite with fields. simpl. split_and!; eauto.
    + unfold loadNewVideo, andThen, modify. simpl.
      eexists. split; [reflexivity|].
      simpl. autorewrite with fields. simpl. split_and!; eauto.
  - unfold loadNewVideo, andThen, modify. simpl.
    eexists. split; [reflexivity|].
    simpl. autorewrite with fields. simpl. split_and!; eauto.
Qed.

Lemma playVideo_calm index : preserves calm (playVideo index).
Proof.
  intros m. destruct (playVideo_guard m) eqn:Hguard.
  - rewrite playVideo_rejects by done. reflexivity.
  - destruct (playVideo_admitted index m Hguard)
      as (m' & -> & Hflag & Hcur & (onError & timeout & Haw) & ? & ? & ? & ? & ? & ?).
    simpl. unfold calm. split_and!; auto; try lia.
    intros Hbusy. unfold playVideo_guard in Hguard. by rewrite Hbusy in Hguard.
Qed.

#[global] Hint Resolve playVideo_calm : frame.

Lemma playVideo_at_calm index : preserves calm (playVideo_at index).
Proof. destruct index; simpl; frame. Qed.

#[global] Hint Resolve playVideo_at_calm : frame.

Lemma playNext_calm : preserves calm playNext.
Proof. intros m. unfold playNext. apply playVideo_at_calm. Qed.

Lemma playPrevious_calm : preserves calm playPrevious.
Proof. intros m. unfold playPrevious. apply playVideo_at_calm. Qed.

Lemma playRandom_calm r : preserves calm (playRandom r).
Proof. intros m. unfold playRandom. apply playVideo_calm. Qed.

#[global] Hint Resolve playNext_calm playPrevious_calm playRandom_calm : frame.

Lemma retryCurrentVideo_calm : preserves calm retryCurrentVideo.
Proof.
  unfold retryCurrentVideo. apply (preserves_try_catch calm); [|intros e; frame].
  intros m. apply playVideo_calm.
Qed.

#[global] Hint Resolve retryCurrentVideo_calm : frame.

Lemma handleVideoError_calm video error : preserves calm (handleVideoError video error).
Proof.
  unfold handleVideoError.
  apply (preserves_andThen calm); [frame|].
  apply (preserves_andThen calm); [frame|].
  apply (preserves_andThen calm); [frame|].
  intros m. destruct (errorCount m >? maxErrors m).
  - apply (preserves_andThen calm); frame.
  - apply (preserves_modify calm). frame_field.
Qed.

#[global] Hint Resolve handleVideoError_calm : frame.

Lemma retry_timer_callback_calm : preserves calm retry_timer_callback.
Proof.
  intros m. unfold retry_timer_callback.
  destruct (negb (isTransitioning m)); [|reflexivity].
  apply (preserves_detached calm); frame.
Qed.

Lemma playVideo_catch_calm error : preserves calm (playVideo_catch error).
Proof.
  unfold playVideo_catch. apply (preserves_andThen calm); [frame|].
  intros m. apply (preserves_detached calm); frame.
Qed.

Lemma videoEventHandler_calm e target : preserves calm (videoEventHandler e target).
Proof. destruct e; simpl; frame. Qed.

#[global] Hint Resolve retry_timer_callback_calm playVideo_catch_calm
  videoEventHandler_calm : frame.

(** *** Operations that never throw *)

Lemma returns_modify f : returns (modify f).
Proof. by intros m. Qed.

Lemma returns_andThen a b : returns a → returns b → returns (a ;; b).
Proof.
  intros Ha Hb m. unfold andThen. rewrite (Ha m). apply Hb.
Qed.

Lemma returns_try_catch a h : (∀ e, returns (h e)) → returns (try_catch a h).
Proof.
  intros Hh m. unfold try_catch. destruct (a m) as [m'|e m']; [done|apply Hh].
Qed.

Lemma returns_detached a : returns (detached a).
Proof. apply returns_try_catch. intros e. apply returns_modify. Qed.

Lemma returns_forEach {A} (l : list A) f : (∀ x, returns (f x)) → returns (forEach l f).
Proof.
  intros Hf. induction l as [|x l IH]; simpl; [apply returns_modify|].
  by apply returns_andThen.
Qed.

Lemma returns_forEach_live event f remaining k :
  (∀ callback, returns (f callback)) → returns (forEach_live event f remaining k).
Proof.
  intros Hf. revert k. induction remaining as [|remaining IH]; intros k; simpl;
    [apply returns_modify|].
  apply returns_andThen; [|apply IH].
  intros m. destruct (_ !! k); [apply Hf|done].
Qed.

Lemma emit_returns event data : returns (emit event data).
Proof.
  intros m. unfold emit. destruct (eventListeners m !! event); [|done].
  apply returns_forEach_live. intros callback. apply returns_try_catch.
  intros e. apply returns_modify.
Qed.

Lemma updatePreloadQueue_returns : returns updatePreloadQueue.
Proof.
  unfold updatePreloadQueue, cleanupPreloadQueue.
  apply returns_andThen; [apply returns_modify|].
  intros m. apply returns_forEach. intros i m'.
  destruct (_ && _); [apply returns_detached|done].
Qed.

Lemma playVideo_rest_returns : returns playVideo_rest.
Proof.
  unfold playVideo_rest.
  apply returns_andThen; [apply updatePreloadQueue_returns|apply returns_modify].
Qed.

Lemma playVideo_catch_returns error : returns (playVideo_catch error).
Proof.
  unfold playVideo_catch. apply returns_andThen; [apply returns_modify|].
  intros m. apply returns_detached.
Qed.

(** *** What [handleVideoError] counts *)

Lemma playVideo_errorCount index m :
  errorCount (state_of (playVideo index m)) = errorCount m.
Proof.
  destruct (playVideo_guard m) eqn:Hguard.
  - by rewrite playVideo_rejects.
  - by destruct (playVideo_admitted index m Hguard) as (m' & -> & _ & _ & _ & _ & _ & ? & _).
Qed.

Lemma playNext_errorCount m : errorCount (state_of (playNext m)) = errorCount m.
Proof.
  unfold playNext. destruct (js_rem _ _); simpl; [apply playVideo_errorCount|done].
Qed.

Lemma handleVideoError_errorCount video error m :
  errorCount (state_of (handleVideoError video error m)) = errorCount m + 1.
Proof.
  unfold handleVideoError. unfold andThen at 1 2 3. simpl.
  set (m2 := log _ (set_errorCount _ m)).
  rewrite (emit_returns "videoError" (ErrorData video error) m2).
  destruct (emit_passive "videoError" (ErrorData video error) m2)
    as (_ & _ & _ & _ & _ & Hcount & _).
  set (m3 := state_of (emit _ _ m2)) in *.
  destruct (errorCount m3 >? maxErrors m3).
  - unfold andThen. simpl. rewrite playNext_errorCount. simpl. by rewrite Hcount.
  - simpl. by rewrite Hcount.
Qed.

Lemma playVideo_catch_errorCount error m :
  errorCount (state_of (playVideo_catch error m)) = errorCount m + 1.
Proof.
  unfold playVideo_catch, andThen, modify, detached, try_catch.
  set (m1 := log _ m).
  pose proof (handleVideoError_errorCount (inactiveVideoElement m1) error m1) as Hcount.
  destruct (handleVideoError _ _ m1); simpl in *; done.
Qed.

(** *** Resuming the running [playVideo] *)

Lemma playVideo_loaded_spec m :
  ∃ m', playVideo_loaded m = Returned m'
        ∧ awaiting m' = Some (AwaitCrossfade (crossfadeDuration (config m)))
        ∧ activeVideoElement m' = activeVideoElement m
        ∧ inactiveVideoElement m' = inactiveVideoElement m
        ∧ currentIndex m' = currentIndex m
        ∧ isTransitioning m' = isTransitioning m
        ∧ errorCount m' = errorCount m
        ∧ maxErrors m' = maxErrors m
        ∧ videoUrls m' = videoUrls m
        ∧ retryTimers m' = retryTimers m.
Proof.
  unfold playVideo_loaded, crossfade, andThen, modify. simpl.
  eexists. split; [reflexivity|].
  simpl. autorewrite with fields. simpl. by split_and!.
Qed.

Lemma crossfade_timer_callback_spec m :
  ∃ m', crossfade_timer_callback m = Returned m'
        ∧ activeVideoElement m' = inactiveVideoElement m
        ∧ inactiveVideoElement m' = activeVideoElement m
        ∧ currentIndex m' = currentIndex m
        ∧ isTransitioning m' = isTransitioning m
        ∧ awaiting m' = awaiting m
        ∧ errorCount m' = errorCount m
        ∧ maxErrors m' = maxErrors m
        ∧ videoUrls m' = videoUrls m
        ∧ retryTimers m' = retryTimers m.
Proof.
  unfold crossfade_timer_callback, setupActiveVideoListeners, andThen, modify. simpl.
  eexists. split; [reflexivity|].
  simpl. autorewrite with fields. simpl. by split_and!.
Qed.

(** The crossfade timer ends the transition: slots swapped, flag down. *)
Lemma playVideo_crossfaded_spec m :
  ∃ m', playVideo_crossfaded m = Returned m'
        ∧ activeVideoElement m' = inactiveVideoElement m
        ∧ inactiveVideoElement m' = activeVideoElement m
        ∧ currentIndex m' = currentIndex m
        ∧ isTransitioning m' = false
        ∧ awaiting m' = None
        ∧ errorCount m' = errorCount m
        ∧ maxErrors m' = maxErrors m
        ∧ videoUrls m' = videoUrls m
        ∧ retryTimers m' = retryTimers m.
Proof.
  unfold playVideo_crossfaded. unfold andThen at 1. simpl.
  destruct (crossfade_timer_callback_spec (set_awaiting None m))
    as (m1 & Hm1 & ? & ? & ? & ? & ? & ? & ? & ? & ?).
  unfold andThen. rewrite Hm1.
  unfold try_finally, try_catch. rewrite (playVideo_rest_returns m1).
  destruct (playVideo_rest_passive m1) as (? & ? & ? & ? & ? & ? & ? & ? & ? & _).
  simpl in *. eexists. split; [reflexivity|]. simpl. split_and!; congruence.
Qed.

(** A failed load ends the transition: slots as they were, flag down,
    one more error counted; a cursor that the transition set stays. *)
Lemma playVideo_load_failed_spec error m :
  ∃ m', playVideo_load_failed error m = Returned m'
        ∧ activeVideoElement m' = activeVideoElement m
        ∧ inactiveVideoElement m' = inactiveVideoElement m
        ∧ isTransitioning m' = false
        ∧ errorCount m' = errorCount m + 1
        ∧ maxErrors m' = maxErrors m
        ∧ videoUrls m' = videoUrls m
        ∧ (isTransitioning m = true →
           currentIndex m' = currentIndex m ∧ awaiting m' = None).
Proof.
  unfold playVideo_load_failed. unfold andThen. simpl.
  unfold try_finally. rewrite (playVideo_catch_returns error (set_awaiting None m)).
  destruct (playVideo_catch_calm error (set_awaiting None m))
    as (? & ? & _ & ? & ? & _ & Hbusy).
  pose proof (playVideo_catch_errorCount error (set_awaiting None m)).
  simpl in *. eexists. split; [reflexivity|]. simpl. split_and!; try congruence.
  intros Hflag. destruct (Hbusy Hflag) as (_ & ? & ?). by split.
Qed.

(** *** One step of the event loop *)

Lemma handler_calm e :
  match e with
  | Media _ _ | LoadTimerFires | CrossfadeTimerFires => True
  | _ => preserves calm (handler e)
  end.
Proof.
  destruct e; simpl; try done;
    first [ solve [frame] | solve [apply preserves_passive_calm; frame] | idtac ].
  - intros m. destruct (retryTimers m); [reflexivity|].
    apply (preserves_andThen calm); frame.
  - intros m. destruct (bool_decide _); [|reflexivity].
    apply passive_calm. apply (preserves_andThen passive); frame.
  - intros m. destruct (bool_decide _); [|reflexivity].
    apply passive_calm. apply (preserves_andThen passive); frame.
Qed.

Lemma calm_stepped e m m' : calm m m' → stepped e m m'.
Proof.
  intros (? & ? & ? & ? & ? & Hbegun & Hbusy). unfold stepped, same_slots.
  split_and!; auto.
  - intros Hflag. by destruct (Hbusy Hflag) as (_ & ? & _).
  - intros [w Hw] Hnone. destruct Hbegun as [[_ Haw]|[_ [w' Hw']]]; congruence.
  - intros Hflag Hdown. destruct (Hbusy Hflag) as (? & _). congruence.
  - unfold consistent. intros Hm.
    destruct Hbegun as [[-> ->]|[-> ?]]; [done|by split].
Qed.

Lemma loaded_stepped e m m1 :
  is_Some (awaiting m) → calm m m1 → stepped e m (state_of (playVideo_loaded m1)).
Proof.
  intros Hpending (? & ? & ? & ? & ? & _ & Hbusy).
  destruct (playVideo_loaded_spec m1) as (m' & -> & Haw & ? & ? & ? & ? & ? & ? & ? & ?).
  simpl. unfold stepped, same_slots. split_and!; try congruence; try lia.
  - left. split; congruence.
  - intros Hflag. destruct (Hbusy Hflag) as (_ & ? & _). congruence.
  - intros Hflag Hdown. destruct (Hbusy Hflag) as (? & _). congruence.
  - unfold consistent. intros Hm. apply Hm in Hpending.
    destruct (Hbusy Hpending) as (? & _). rewrite Haw. split; [by eexists|congruence].
Qed.

Lemma load_failed_stepped e error m m1 :
  e ≠ CrossfadeTimerFires → is_Some (awaiting m) → calm m m1 →
  stepped e m (state_of (playVideo_load_failed error m1)).
Proof.
  intros Hevent Hpending (? & ? & ? & ? & ? & _ & Hbusy).
  destruct (playVideo_load_failed_spec error m1)
    as (m' & -> & ? & ? & ? & ? & ? & ? & Hkept).
  simpl. unfold stepped, same_slots. split_and!; try congruence; try lia.
  - left. split; congruence.
  - intros Hflag. destruct (Hbusy Hflag) as (Hflag1 & ? & _).
    destruct (Hkept Hflag1). congruence.
  - intros _ _. right. split; [done|]. split; [split; congruence|lia].
  - unfold consistent. intros Hm. apply Hm in Hpending.
    destruct (Hbusy Hpending) as (Hflag1 & _). destruct (Hkept Hflag1) as (_ & ->).
    split; [congruence|]. by intros [? ?].
Qed.

Lemma step_stepped e m : stepped e m (step e m).
Proof.
  unfold step. pose proof (handler_calm e) as Hcalm.
  destruct e as [| | | | | | | | | |target ev| | | | | |];
    try (apply calm_stepped, Hcalm); clear Hcalm; simpl.
  - (* a media event *)
    unfold dispatch, andThen.
    set (first := if listening (element_state target m)
                  then videoEventHandler ev target else modify id).
    assert (Hfirst : calm m (state_of (first m))).
    { subst first. destruct (listening _); [apply videoEventHandler_calm|reflexivity]. }
    destruct (first m) as [m1|error m1]; simpl in Hfirst;
      [|by apply calm_stepped].
    destruct (decide (target = inactiveVideoElement m)); [|by apply calm_stepped].
    destruct (awaiting m) as [[[] timeout|duration]|] eqn:Haw, ev; simpl;
      first [ by apply calm_stepped
            | apply loaded_stepped; [by rewrite Haw|done]
            | apply load_failed_stepped; [done|by rewrite Haw|done] ].
  - (* the load timer *)
    destruct (awaiting m) as [[[] timeout|duration]|] eqn:Haw;
      try (apply calm_stepped; reflexivity);
      (apply load_failed_stepped; [done|by rewrite Haw|reflexivity]).
  - (* the crossfade timer *)
    destruct (awaiting m) as [[onError timeout|duration]|] eqn:Haw;
      try (apply calm_stepped; reflexivity).
    destruct (playVideo_crossfaded_spec m)
      as (m' & -> & ? & ? & ? & ? & ? & ? & ? & ? & ?).
    simpl. unfold stepped. split_and!; try congruence; try lia.
    + right. unfold awaits_crossfade, swapped. rewrite Haw. by split_and!.
    + intros _ _. left. by split.
    + unfold consistent. intros _. split; [congruence|]. intros [? ?]. congruence.
Qed.

Lemma run_app es1 es2 m : run (es1 ++ es2) m = run es2 (run es1 m).
Proof. apply fold_left_app. Qed.

Lemma run_cons e es m : run (e :: es) m = run es (step e m).
Proof. done. Qed.

Lemma run_snoc es e m : run (es ++ [e]) m = step e (run es m).
Proof. by rewrite run_app. Qed.

(** *** A transition from its admission to its settlement *)

(** Until the last event, the cursor and the slots are those the
    transition began with. *)
Lemma settles_before_last es last m :
  settles (es ++ [last]) m = true →
  isTransitioning (run es m) = true
  ∧ isTransitioning (step last (run es m)) = false
  ∧ currentIndex (run es m) = currentIndex m
  ∧ same_slots m (run es m).
Proof.
  revert m. induction es as [|e es IH]; intros m; cbn [app settles].
  - rewrite andb_true_iff, negb_true_iff. intros [? ?].
    unfold same_slots. by split_and!.
  - rewrite andb_true_iff. intros [Hflag Hrest].
    destruct (IH _ Hrest) as (Hrun & Hlast & Hcur & Hslots).
    rewrite !run_cons. split_and!; [done|done|..].
    + destruct (step_stepped e m) as (_ & _ & _ & _ & Hkept & _).
      rewrite Hcur. by apply Hkept.
    + destruct (step_stepped e m) as ([Hsame|(_ & _ & _ & Hdown)] & _).
      * unfold same_slots in *. destruct Hsame, Hslots. split; congruence.
      * destruct es; cbn [app settles] in Hrest; rewrite Hdown in Hrest; done.
Qed.

Lemma settles_cursor es m :
  settles es m = true → currentIndex (run es m) = currentIndex m.
Proof.
  revert m. induction es as [|e es IH]; intros m; cbn [settles]; [done|].
  rewrite andb_true_iff. intros [Hflag Hrest]. rewrite run_cons, (IH _ Hrest).
  destruct (step_stepped e m) as (_ & _ & _ & _ & Hkept & _). by apply Hkept.
Qed.

Lemma settles_flag es m : settles es m = true → isTransitioning (run es m) = false.
Proof.
  revert m. induction es as [|e es IH]; intros m; cbn [settles].
  - by rewrite negb_true_iff.
  - rewrite andb_true_iff. intros [_ Hrest]. rewrite run_cons. by apply IH.
Qed.

Lemma run_errorCount es m : errorCount m ≤ errorCount (run es m).
Proof.
  revert m. induction es as [|e es IH]; intros m; [simpl; lia|].
  rewrite run_cons. etransitivity; [|apply IH].
  by destruct (step_stepped e m) as (_ & ? & _).
Qed.

Lemma run_videoUrls es m : videoUrls (run es m) = videoUrls m.
Proof.
  revert m. induction es as [|e es IH]; intros m; [done|].
  rewrite run_cons, IH. by destruct (step_stepped e m) as (_ & _ & _ & ? & _).
Qed.

Lemma run_maxErrors es m : maxErrors (run es m) = maxErrors m.
Proof.
  revert m. induction es as [|e es IH]; intros m; [done|].
  rewrite run_cons, IH. by destruct (step_stepped e m) as (_ & _ & ? & _).
Qed.

(** ** The playlist after [initialize] (C5, C8) *)

(** Whenever the input has a valid entry, [initialize] returns and the
    stored playlist is a permutation of the valid entries of the input. *)
Lemma initialize_playlist_of_valid_entries
    (URL_parses : string → bool) (draw : nat → nat) (urls : list string)
    (m : VideoManager) :
  List.filter (valid URL_parses) urls ≠ [] →
  ∃ m', initialize URL_parses draw urls m = Returned m'
        ∧ videoUrls m' ≡ₚ List.filter (valid URL_parses) urls.
Proof.
  intros Hvalid.
  destruct (initialize_returns URL_parses draw urls m Hvalid) as (m' & Hinit & Hurls & _).
  exists m'. split; [done|]. rewrite Hurls. apply shuffle_Permutation.
Qed.

(** C5: for every non-empty input list of URLs (entries that are not
    blank and that [new URL] accepts), [initialize] returns and the
    stored playlist is a permutation of the input: it has the length of
    the input, the same URLs, each as often as the input has it, which
    is once when the input has no repeats. *)
Theorem initialize_playlist_is_permutation
    (URL_parses : string → bool) (draw : nat → nat) (urls : list string)
    (m : VideoManager) :
  urls ≠ [] →
  Forall (λ url, valid URL_parses url = true) urls →
  ∃ m', initialize URL_parses draw urls m = Returned m'
        ∧ videoUrls m' ≡ₚ urls
        ∧ length (videoUrls m') = length urls
        ∧ (∀ url, url ∈ videoUrls m' ↔ url ∈ urls)
        ∧ (NoDup urls → NoDup (videoUrls m')).
Proof.
  intros Hsome Hall.
  pose proof (filter_all_valid URL_parses urls Hall) as Hfilter.
  destruct (initialize_playlist_of_valid_entries URL_parses draw urls m)
    as (m' & Hinit & Hperm); [by rewrite Hfilter|].
  rewrite Hfilter in Hperm. exists m'. split_and!; [done|done|by rewrite Hperm| |].
  - intros url. by rewrite Hperm.
  - intros Hnodup. by rewrite Hperm.
Qed.

Lemma initialize_playlist_is_permutation_witness :
  ∃ m', initialize (accepts [url_a; url_b; url_c]) (λ _, 0%nat) [url_a; url_b; url_c]
          (constructor (default_config false)) = Returned m'
        ∧ videoUrls m' ≡ₚ [url_a; url_b; url_c]
        ∧ length (videoUrls m') = length [url_a; url_b; url_c]
        ∧ (∀ url, url ∈ videoUrls m' ↔ url ∈ [url_a; url_b; url_c])
        ∧ (NoDup [url_a; url_b; url_c] → NoDup (videoUrls m')).
Proof.
  apply (initialize_playlist_is_permutation (accepts [url_a; url_b; url_c]) (λ _, 0%nat)
           [url_a; url_b; url_c] (constructor (default_config false))).
  - done.
  - repeat constructor.
Defined.




(** ** Subscribers (C9) *)

Lemma calls_app l1 l2 : calls (l1 ++ l2) = calls l1 ++ calls l2.
Proof. apply omap_app. Qed.

Lemma listener_errors_app l1 l2 :
  listener_errors (l1 ++ l2) = (listener_errors l1 + listener_errors l2)%nat.
Proof. unfold listener_errors. by rewrite List.filter_app, length_app. Qed.

Lemma listener_errors_called event cb data :
  listener_errors [Called event cb data] = 0%nat.
Proof. done. Qed.

Lemma listener_errors_reported :
  listener_errors [Console "error" "Event listener error:"] = 1%nat.
Proof. done. Qed.

(** One subscriber that calls neither [on] nor [off], under its
    [try]/[catch]: called, and never throwing further. *)
Lemma guarded_call event data cb m :
  inert data cb →
  try_catch (call event data cb)
    (λ error, modify (log (Console "error" "Event listener error:"))) m
  = Returned (if cb_throws cb data
              then log (Console "error" "Event listener error:")
                     (log (Called event (cb_id cb) data) m)
              else log (Called event (cb_id cb) data) m).
Proof.
  unfold inert, try_catch, call, andThen, modify, throw. intros ->. simpl.
  by destruct (cb_throws cb data).
Qed.

(** The iteration from index [k] on, over subscribers that leave the
    subscriptions alone. *)
Lemma emit_forEach_live event data listeners remaining k m :
  eventListeners m !! event = Some listeners →
  Forall (inert data) listeners →
  (k + remaining = length listeners)%nat →
  ∃ m',
    forEach_live event (λ callback,
      try_catch (call event data callback)
        (λ error, modify (log (Console "error" "Event listener error:"))))
      remaining k m
    = Returned m'
    ∧ eventListeners m' = eventListeners m
    ∧ calls (effects m')
      = calls (effects m) ++ ((λ cb, (event, cb_id cb, data)) <$> drop k listeners)
    ∧ listener_errors (effects m')
      = (listener_errors (effects m)
         + length (List.filter (λ cb, cb_throws cb data) (drop k listeners)))%nat.
Proof.
  intros Hlisteners Hinert. revert k m Hlisteners.
  induction remaining as [|remaining IH]; intros k m Hlisteners Hk; cbn [forEach_live].
  - exists m. unfold modify. rewrite drop_ge by lia. simpl. rewrite app_nil_r.
    split_and!; [done..|lia].
  - unfold andThen at 1. rewrite Hlisteners. simpl default.
    destruct (listeners !! k) as [cb|] eqn:Hcb.
    2:{ apply lookup_ge_None in Hcb. lia. }
    rewrite guarded_call by (eapply Forall_lookup_1; eauto).
    rewrite (drop_S _ _ _ Hcb).
    match goal with |- context [forEach_live _ _ _ _ ?s] => destruct (IH (S k) s)
      as (m' & -> & Hsubs & Hcalls & Herrors) end.
    { by destruct (cb_throws cb data). }
    { lia. }
    exists m'. split; [done|]. rewrite Hsubs, Hcalls, Herrors.
    cbn [fmap list_fmap List.filter].
    destruct (cb_throws cb data); simpl;
      rewrite !calls_app, !listener_errors_app,
        ?listener_errors_called, ?listener_errors_reported; simpl;
      rewrite ?app_nil_r, <- ?app_assoc; (split_and!; [done|done|simpl; lia]).
Qed.

(** As long as no subscriber of the event calls [on] or [off] while it
    runs, [emit] returns, having invoked every subscriber of the event
    once, in the order of subscription and with the same payload,
    whichever of them throw; each throw is reported on the console. *)
Lemma emit_calls_every_inert_subscriber (event : string) (data : payload) (m : VideoManager) :
  Forall (inert data) (subscribers event m) →
  ∃ m',
    emit event data m = Returned m'
    ∧ calls (effects m')
      = calls (effects m) ++ ((λ cb, (event, cb_id cb, data)) <$> subscribers event m)
    ∧ listener_errors (effects m')
      = (listener_errors (effects m)
         + length (List.filter (λ cb, cb_throws cb data) (subscribers event m)))%nat.
Proof.
  unfold emit, subscribers.
  destruct (eventListeners m !! event) as [listeners|] eqn:Hlisteners; simpl.
  - intros Hinert.
    destruct (emit_forEach_live event data listeners (length listeners) 0 m Hlisteners Hinert)
      as (m' & Hm' & _ & Hcalls & Herrors); [done|].
    exists m'. by rewrite Hm', Hcalls, Herrors.
  - intros _. exists m. rewrite app_nil_r. split_and!; [done..|lia].
Qed.

(** A subscriber that always throws, followed by one that never does:
    both are called. *)
Example emit_after_a_throwing_subscriber :
  calls (effects (run [CallOn "playing" {| cb_id := 1; cb_throws := λ _, true;
                                           cb_calls := λ _, [] |};
                       CallOn "playing" listens;
                       CallEmit "playing" (OtherData 7)] manager_abc))
  = [("playing", 1%nat, OtherData 7); ("playing", 2%nat, OtherData 7)].
Proof. by vm_compute. Qed.

(** C9: a subscriber that unsubscribes itself and then throws, followed
    by a second subscriber.  [emit] calls the first; its [off] takes it
    out of the array [forEach] is walking, the second moves to index 0,
    and [forEach], going on to index 1, finds nothing there: the second
    subscriber, still subscribed, is never called. *)
Theorem emit_skips_subscriber_after_unsubscribe :
  cb_id <$> subscribers "playing"
              (run [CallOn "playing" unsubscribes_and_throws; CallOn "playing" listens]
                 manager_abc)
  = [1%nat; 2%nat]
  ∧ calls (effects (run [CallOn "playing" unsubscribes_and_throws; CallOn "playing" listens;
                         CallEmit "playing" (OtherData 7)] manager_abc))
    = [("playing", 1%nat, OtherData 7)]
  ∧ listener_errors
      (effects (run [CallOn "playing" unsubscribes_and_throws; CallOn "playing" listens;
                     CallEmit "playing" (OtherData 7)] manager_abc))
    = 1%nat
  ∧ cb_id <$> subscribers "playing"
                (run [CallOn "playing" unsubscribes_and_throws; CallOn "playing" listens;
                      CallEmit "playing" (OtherData 7)] manager_abc)
    = [2%nat].
Proof. by vm_compute. Qed.

(** ** Commands during a transition (C6) *)

(** C6: while a transition is in progress, [playNext] and
    [playPrevious] are rejected and change nothing: the cursor and the
    slots stay, and nothing is queued. *)
Theorem playNext_playPrevious_dropped_while_transitioning (m : VideoManager) :
  isTransitioning m = true →
  is_thrown (playNext m) = true ∧ is_thrown (playPrevious m) = true
  ∧ step CallPlayNext m = m ∧ step CallPlayPrevious m = m.
Proof.
  intros Hbusy. unfold step. simpl. unfold playNext, playPrevious.
  destruct (js_rem (currentIndex m + 1) _), (js_rem (currentIndex m - 1 + _) _);
    simpl; rewrite ?playVideo_busy by done; done.
Qed.

Lemma playNext_playPrevious_dropped_while_transitioning_witness :
  is_thrown (playNext (step (CallPlayVideo 1) playing_a)) = true
  ∧ is_thrown (playPrevious (step (CallPlayVideo 1) playing_a)) = true
  ∧ step CallPlayNext (step (CallPlayVideo 1) playing_a) = step (CallPlayVideo 1) playing_a
  ∧ step CallPlayPrevious (step (CallPlayVideo 1) playing_a)
    = step (CallPlayVideo 1) playing_a.
Proof.
  apply (playNext_playPrevious_dropped_while_transitioning
           (step (CallPlayVideo 1) playing_a)).
  by vm_compute.
Defined.

(** ** The cursor of [playVideo] (C1, C2) *)

Lemma step_playVideo_admitted index m :
  playVideo_guard m = false →
  isTransitioning (step (CallPlayVideo index) m) = true
  ∧ currentIndex (step (CallPlayVideo index) m) = Z.rem index (length_ (videoUrls m))
  ∧ is_Some (awaiting (step (CallPlayVideo index) m))
  ∧ same_slots m (step (CallPlayVideo index) m)
  ∧ errorCount (step (CallPlayVideo index) m) = errorCount m
  ∧ videoUrls (step (CallPlayVideo index) m) = videoUrls m.
Proof.
  intros Hguard. unfold step. simpl.
  destruct (playVideo_admitted index m Hguard)
    as (m' & -> & ? & ? & (onError & timeout & Haw) & ? & ? & ? & ? & ? & ?).
  simpl. unfold same_slots. rewrite Haw. by split_and!.
Qed.

(** From its admission to its settlement, however it settles and
    whatever else happens meanwhile, [playVideo(index)] leaves the cursor
    at [index % length], the truncating remainder. *)
Lemma playVideo_cursor index es m :
  playVideo_guard m = false →
  settles es (step (CallPlayVideo index) m) = true →
  currentIndex (run es (step (CallPlayVideo index) m))
  = Z.rem index (length_ (videoUrls m)).
Proof.
  intros Hguard Hsettles. rewrite (settles_cursor _ _ Hsettles).
  by destruct (step_playVideo_admitted index m Hguard) as (_ & ? & _).
Qed.

(** For an index that is not negative this is the mathematical modulo,
    inside the playlist. *)
Lemma playVideo_cursor_nonnegative index es m :
  playVideo_guard m = false →
  0 ≤ index →
  settles es (step (CallPlayVideo index) m) = true →
  currentIndex (run es (step (CallPlayVideo index) m))
  = index `mod` length_ (videoUrls m)
  ∧ 0 ≤ currentIndex (run es (step (CallPlayVideo index) m)) < length_ (videoUrls m).
Proof.
  intros Hguard Hindex Hsettles. rewrite (playVideo_cursor _ _ _ Hguard Hsettles).
  assert (0 < length_ (videoUrls m)) as Hlen.
  { unfold playVideo_guard in Hguard. apply orb_false_iff in Hguard as [_ Hlen].
    apply Z.eqb_neq in Hlen. unfold length_ in *. lia. }
  rewrite Z.rem_mod_nonneg by lia. split; [done|]. by apply Z.mod_pos_bound.
Qed.

(** C1 at the failing input: on the playlist [a, b, c], [playVideo(-1)]
    whose load and crossfade succeed leaves the cursor at [-1], outside
    the playlist, where the mathematical modulo is [2]. *)
Theorem playVideo_negative_index_leaves_negative_cursor :
  let m := run [CallPlayVideo (-1); Media VideoB CanPlay; CrossfadeTimerFires]
               manager_abc in
  settles [Media VideoB CanPlay; CrossfadeTimerFires]
          (step (CallPlayVideo (-1)) manager_abc) = true
  ∧ activeVideoElement m = VideoB
  ∧ currentIndex m = -1
  ∧ url (getCurrentVideoInfo m) = undefined
  ∧ (-1) `mod` length_ (videoUrls m) = 2.
Proof. by vm_compute. Qed.

(** C2, as stated, fails: with the cursor at 0, [playVideo(1)] whose
    load times out leaves the cursor at 1. *)
Lemma playVideo_failure_moves_cursor :
  currentIndex playing_a = 0
  ∧ settles [LoadTimerFires] (step (CallPlayVideo 1) playing_a) = true
  ∧ currentIndex (run [CallPlayVideo 1; LoadTimerFires] playing_a) = 1
  ∧ errorCount (run [CallPlayVideo 1; LoadTimerFires] playing_a) = 1.
Proof. by vm_compute. Qed.

(** C2, amended: when an admitted [playVideo(index)] fails, the cursor
    is at [index % length], where the call put it before loading; the
    slots are not swapped, the flag is down and the failure is counted. *)
Theorem playVideo_failure_leaves_cursor_at_target
    (index : Z) (es : list event) (last : event) (m : VideoManager) :
  playVideo_guard m = false →
  load_failure last = true →
  settles (es ++ [last]) (step (CallPlayVideo index) m) = true →
  currentIndex (run (es ++ [last]) (step (CallPlayVideo index) m))
  = Z.rem index (length_ (videoUrls m))
  ∧ same_slots m (run (es ++ [last]) (step (CallPlayVideo index) m))
  ∧ isTransitioning (run (es ++ [last]) (step (CallPlayVideo index) m)) = false
  ∧ errorCount m < errorCount (run (es ++ [last]) (step (CallPlayVideo index) m)).
Proof.
  intros Hguard Hfailure Hsettles.
  split; [by apply playVideo_cursor|].
  destruct (step_playVideo_admitted index m Hguard)
    as (_ & _ & _ & [Ha Hi] & Hcount & _).
  destruct (settles_before_last _ _ _ Hsettles) as (Hup & Hdown & _ & [Ha' Hi']).
  pose proof (run_errorCount es (step (CallPlayVideo index) m)) as Hmono.
  pose proof (settles_flag _ _ Hsettles) as Hflag.
  rewrite run_snoc in *.
  destruct (step_stepped last (run es (step (CallPlayVideo index) m)))
    as (_ & _ & _ & _ & _ & _ & Hlast & _).
  destruct (Hlast Hup Hdown) as [[-> _]|(_ & [Ha'' Hi''] & Hmore)]; [done|].
  split_and!; [|done|lia]. unfold same_slots. split; congruence.
Qed.

Lemma playVideo_failure_leaves_cursor_at_target_witness :
  currentIndex (run ([] ++ [LoadTimerFires]) (step (CallPlayVideo 1) playing_a))
  = Z.rem 1 (length_ (videoUrls playing_a))
  ∧ same_slots playing_a (run ([] ++ [LoadTimerFires]) (step (CallPlayVideo 1) playing_a))
  ∧ isTransitioning (run ([] ++ [LoadTimerFires]) (step (CallPlayVideo 1) playing_a))
    = false
  ∧ errorCount playing_a
    < errorCount (run ([] ++ [LoadTimerFires]) (step (CallPlayVideo 1) playing_a)).
Proof.
  apply (playVideo_failure_leaves_cursor_at_target 1 [] LoadTimerFires playing_a);
    by vm_compute.
Defined.

(** ** The slots (C7) *)

(** C7: an admitted [playVideo] that settles with the crossfade timer,
    whatever else happens meanwhile, leaves the two slots swapped; and
    no step of the manager changes the slots but the crossfade timer
    ending a crossfade, which swaps them. *)
Theorem playVideo_success_swaps_slots :
  (∀ (index : Z) (es : list event) (m : VideoManager),
     playVideo_guard m = false →
     settles (es ++ [CrossfadeTimerFires]) (step (CallPlayVideo index) m) = true →
     swapped m (run (es ++ [CrossfadeTimerFires]) (step (CallPlayVideo index) m)))
  ∧ (∀ (e : event) (m : VideoManager),
       same_slots m (step e m)
       ∨ (e = CrossfadeTimerFires ∧ awaits_crossfade m = true ∧ swapped m (step e m))).
Proof.
  split.
  - intros index es m Hguard Hsettles.
    destruct (step_playVideo_admitted index m Hguard) as (_ & _ & _ & [Ha Hi] & _).
    destruct (settles_before_last _ _ _ Hsettles) as (Hup & Hdown & _ & [Ha' Hi']).
    rewrite run_snoc.
    destruct (step_stepped CrossfadeTimerFires (run es (step (CallPlayVideo index) m)))
      as (_ & _ & _ & _ & _ & _ & Hlast & _).
    destruct (Hlast Hup Hdown) as [(_ & [Ha'' Hi''])|(? & _)]; [|done].
    unfold swapped. split; congruence.
  - intros e m. destruct (step_stepped e m) as ([?|(? & ? & ? & _)] & _); auto.
Qed.

Lemma playVideo_success_swaps_slots_witness :
  swapped playing_a
    (run ([Media VideoA CanPlay] ++ [CrossfadeTimerFires])
       (step (CallPlayVideo 1) playing_a)).
Proof.
  apply (proj1 playVideo_success_swaps_slots 1 [Media VideoA CanPlay] playing_a);
    by vm_compute.
Defined.

(** ** The transition flag (C10) *)

Lemma constructor_consistent cfg : consistent (constructor cfg).
Proof. unfold consistent. simpl. split; [done|]. by intros [? ?]. Qed.

Lemma run_consistent es m : consistent m → consistent (run es m).
Proof.
  revert m. induction es as [|e es IH]; intros m Hm; [done|].
  rewrite run_cons. apply IH.
  by destruct (step_stepped e m) as (_ & _ & _ & _ & _ & _ & _ & Hkept); apply Hkept.
Qed.

(** C10, as stated, fails: a [playVideo] call made during a transition
    settles at once, rejected, and the flag is up after it. *)
Lemma playVideo_rejected_leaves_flag_up :
  isTransitioning (step (CallPlayVideo 1) playing_a) = true
  ∧ playVideo 2 (step (CallPlayVideo 1) playing_a)
    = Thrown "Cannot play video: transitioning or no URLs"
             (step (CallPlayVideo 1) playing_a).
Proof. by vm_compute. Qed.

Lemma load_timer_settles m onError timeout :
  isTransitioning m = true →
  awaiting m = Some (AwaitCanPlay onError timeout) →
  awaiting (step LoadTimerFires m) = None
  ∧ isTransitioning (step LoadTimerFires m) = false.
Proof.
  intros Hflag Haw. unfold step. simpl. rewrite Haw.
  destruct onError;
    match goal with |- context [playVideo_load_failed ?error m] =>
      destruct (playVideo_load_failed_spec error m)
        as (m' & -> & _ & _ & ? & _ & _ & _ & Hkept) end;
    simpl; by destruct (Hkept Hflag).
Qed.

Lemma crossfade_timer_settles m duration :
  awaiting m = Some (AwaitCrossfade duration) →
  awaiting (step CrossfadeTimerFires m) = None
  ∧ isTransitioning (step CrossfadeTimerFires m) = false.
Proof.
  intros Haw. unfold step. simpl. rewrite Haw.
  by destruct (playVideo_crossfaded_spec m) as (m' & -> & _ & _ & _ & ? & ? & _).
Qed.

(** C10, amended.  A call that the guard rejects changes nothing, the
    flag included.  A call that the guard admits takes the flag up with
    its promise pending; whichever step leaves no promise of
    [playVideo] pending leaves the flag down; a timer that does so can
    always fire; and from then on, as before, the flag is up exactly
    while such a promise is pending. *)
Theorem playVideo_settles_with_flag_down (index : Z) (m : VideoManager) :
  (playVideo_guard m = true → state_of (playVideo index m) = m)
  ∧ (playVideo_guard m = false →
     isTransitioning (step (CallPlayVideo index) m) = true
     ∧ is_Some (awaiting (step (CallPlayVideo index) m)))
  ∧ (∀ e : event,
       is_Some (awaiting m) → awaiting (step e m) = None →
       isTransitioning (step e m) = false)
  ∧ (isTransitioning m = true → is_Some (awaiting m) →
     awaiting (step (bounding_timer m) m) = None
     ∧ isTransitioning (step (bounding_timer m) m) = false)
  ∧ (consistent m → ∀ es : list event, consistent (run es m)).
Proof.
  split_and!.
  - intros Hguard. by rewrite playVideo_rejects.
  - intros Hguard.
    by destruct (step_playVideo_admitted index m Hguard) as (? & _ & ? & _).
  - intros e. by destruct (step_stepped e m) as (_ & _ & _ & _ & _ & ? & _).
  - intros Hflag [[onError timeout|duration] Haw]; unfold bounding_timer; rewrite Haw.
    + by eapply load_timer_settles.
    + by eapply crossfade_timer_settles.
  - intros Hm es. by apply run_consistent.
Qed.

Lemma playVideo_settles_with_flag_down_witness :
  (isTransitioning (step (CallPlayVideo 2) manager_abc) = true
   ∧ is_Some (awaiting (step (CallPlayVideo 2) manager_abc)))
  ∧ (awaiting (step (bounding_timer (step (CallPlayVideo 1) playing_a))
                 (step (CallPlayVideo 1) playing_a)) = None
     ∧ isTransitioning (step (bounding_timer (step (CallPlayVideo 1) playing_a))
                          (step (CallPlayVideo 1) playing_a)) = false).
Proof.
  split.
  - refine (proj1 (proj2 (playVideo_settles_with_flag_down 2 manager_abc)) _).
    by vm_compute.
  - refine (proj1 (proj2 (proj2 (proj2
              (playVideo_settles_with_flag_down 2 (step (CallPlayVideo 1) playing_a)))))
              _ _).
    + by vm_compute.
    + vm_compute. by eexists.
Defined.

(** ** The preload cache after [updatePreloadQueue] (C3) *)

Lemma log_same_cache e m : same_cache m (log e m).
Proof. frame_field. Qed.

#[global] Hint Resolve log_same_cache : frame.

Lemma preloadVideo_same_cache url : preserves same_cache (preloadVideo url).
Proof. unfold preloadVideo. frame. Qed.

(** [updatePreloadQueue] leaves in the cache what [cleanupPreloadQueue]
    does not delete; the preloads it starts are not in the cache yet. *)
Lemma updatePreloadQueue_cache m :
  preloadedVideos (state_of (updatePreloadQueue m))
  = filter (λ kv, evicted m kv.1 = false) (preloadedVideos m)
  ∧ config (state_of (updatePreloadQueue m)) = config m
  ∧ videoUrls (state_of (updatePreloadQueue m)) = videoUrls m
  ∧ currentIndex (state_of (updatePreloadQueue m)) = currentIndex m.
Proof.
  unfold updatePreloadQueue, andThen, cleanupPreloadQueue, modify.
  match goal with |- context [forEach ?l ?f ?s] =>
    assert (same_cache s (state_of (forEach l f s))) as (-> & -> & -> & ->) end;
    [|done].
  apply (preserves_forEach same_cache). intros i m'.
  destruct (_ && _); [|reflexivity].
  apply (preserves_detached same_cache); [frame_field|apply preloadVideo_same_cache].
Qed.

Lemma indexOf_lookup_NoDup (l : list string) (i : nat) (u : string) :
  NoDup l → l !! i = Some u → indexOf l (Some u) = Z.of_nat i.
Proof.
  intros Hnodup. revert i. induction Hnodup as [|y l Hy _ IH]; intros i Hi; [done|].
  simpl. destruct i as [|i]; simpl in Hi.
  - injection Hi as ->. by rewrite decide_True.
  - rewrite decide_False.
    2:{ intros [= ->]. apply Hy. by eapply list_elem_of_lookup_2. }
    rewrite (IH i Hi). destruct (Z.of_nat i <? 0) eqn:Hneg; lia.
Qed.

(** The URL under a valid cursor of a playlist without repeats is at
    distance 0. *)
Lemma distance_current m :
  NoDup (videoUrls m) →
  0 ≤ currentIndex m < length_ (videoUrls m) →
  distance m (js_index (videoUrls m) (currentIndex m)) = Some 0.
Proof.
  intros Hnodup [Hlow Hhigh]. unfold distance, js_index, js_rem, length_ in *.
  rewrite (proj2 (Z.ltb_ge _ _)) by done.
  destruct (videoUrls m !! Z.to_nat (currentIndex m)) as [u|] eqn:Hu.
  - rewrite (indexOf_lookup_NoDup _ _ _ Hnodup Hu), Z2Nat.id by done.
    rewrite (proj2 (Z.eqb_neq _ _)) by lia. f_equal.
    replace (currentIndex m - currentIndex m + Z.of_nat (length (videoUrls m)))
      with (Z.of_nat (length (videoUrls m))) by lia.
    apply Z.rem_same. lia.
  - apply lookup_ge_None in Hu. lia.
Qed.

(** With a repeated URL the distance the code computes, from the first
    position of the URL ([indexOf]), can exceed the buffer size for the
    entry of the URL under the cursor, which [cleanupPreloadQueue]
    exempts by name: here [a], at the positions 0 and 3, under the
    cursor at 3. *)
Example updatePreloadQueue_keeps_current_url :
  currentIndex (state_of (updatePreloadQueue playing_second_a)) = 3
  ∧ preloadBufferSize (config (state_of (updatePreloadQueue playing_second_a))) = 1
  ∧ preloadedVideos (state_of (updatePreloadQueue playing_second_a)) !! Some url_a
    = Some {| h_src := Some url_a; readyState := 4 |}
  ∧ distance (state_of (updatePreloadQueue playing_second_a)) (Some url_a) = Some 2.
Proof. by vm_compute. Qed.

(** What [cleanupPreloadQueue] keeps is exempt or near. *)
Lemma updatePreloadQueue_kept (m : VideoManager) (url : key) (h : handle) :
  preloadedVideos (state_of (updatePreloadQueue m)) !! url = Some h →
  js_gt (distance m url) (preloadBufferSize (config m)) = false
  ∨ url = js_index (videoUrls m) (currentIndex m).
Proof.
  destruct (updatePreloadQueue_cache m) as (Hcache & _).
  rewrite Hcache. intros [_ Hkept]%map_lookup_filter_Some. simpl in Hkept.
  unfold evicted in Hkept. apply andb_false_iff in Hkept as [Hnear|Hsame]; [by left|].
  right. apply bool_decide_eq_false in Hsame. by apply dec_stable.
Qed.

Lemma indexOf_elem_of (l : list string) (u : string) :
  u ∈ l → ∃ i : nat, l !! i = Some u ∧ indexOf l (Some u) = Z.of_nat i.
Proof.
  induction l as [|y l IH]; intros Hu; [by apply elem_of_nil in Hu|].
  simpl. destruct (decide (Some u = Some y)) as [[= ->]|Hne]; [by exists 0%nat|].
  apply elem_of_cons in Hu as [->|Hu]; [done|].
  destruct (IH Hu) as (i & Hi & ->). exists (S i). split; [done|].
  rewrite (proj2 (Z.ltb_ge _ _)) by lia. lia.
Qed.

(** C3: after [updatePreloadQueue], on a manager whose cursor is below
    the length of the playlist and whose buffer size is not negative,
    every playlist URL that the cache holds stands at a position of the
    playlist whose wrapped forward distance from the cursor,
    [(entryIndex - currentIndex + length) mod length], is at most
    [preloadBufferSize]: no entry is retained from outside the window.
    In a playlist without repeats that position is the one the code
    computes the distance from. *)
Theorem updatePreloadQueue_evicts_outside_window
    (m : VideoManager) (url : string) (h : handle) :
  currentIndex m < length_ (videoUrls m) →
  0 ≤ preloadBufferSize (config m) →
  url ∈ videoUrls m →
  preloadedVideos (state_of (updatePreloadQueue m)) !! Some url = Some h →
  within_window (state_of (updatePreloadQueue m)) url
  ∧ (NoDup (videoUrls m) →
     js_gt (distance (state_of (updatePreloadQueue m)) (Some url))
           (preloadBufferSize (config (state_of (updatePreloadQueue m)))) = false).
Proof.
  intros Hhigh Hbuffer Hurl Hheld.
  destruct (updatePreloadQueue_cache m) as (_ & Hconfig & Hurls & Hcursor).
  unfold within_window, distance. rewrite Hconfig, Hurls, Hcursor.
  fold (distance m (Some url)).
  destruct (updatePreloadQueue_kept m (Some url) h Hheld) as [Hnear|Hcurrent].
  - split; [|done].
    destruct (indexOf_elem_of _ _ Hurl) as (i & Hi & Hindex).
    exists i. split; [done|].
    pose proof (lookup_lt_Some _ _ _ Hi) as Hbound.
    unfold distance, js_rem in Hnear. rewrite Hindex in Hnear.
    rewrite (proj2 (Z.eqb_neq _ _)) in Hnear by (unfold length_; lia).
    simpl in Hnear.
    rewrite <- Z.rem_mod_nonneg by (unfold length_ in *; lia).
    rewrite Z.gtb_ltb in Hnear. by apply Z.ltb_ge in Hnear.
  - unfold js_index in Hcurrent.
    destruct (currentIndex m <? 0) eqn:Hlow; [done|]. apply Z.ltb_ge in Hlow.
    split.
    + exists (Z.to_nat (currentIndex m)). split; [done|].
      rewrite Z2Nat.id by done.
      replace (currentIndex m - currentIndex m + length_ (videoUrls m))
        with (1 * length_ (videoUrls m)) by lia.
      by rewrite Z.mod_mul by lia.
    + intros Hnodup.
      pose proof (distance_current m Hnodup (conj Hlow Hhigh)) as Hzero.
      unfold js_index in Hzero. rewrite (proj2 (Z.ltb_ge _ _) Hlow) in Hzero.
      rewrite Hcurrent, Hzero. simpl.
      rewrite Z.gtb_ltb. apply Z.ltb_ge. lia.
Qed.

Lemma updatePreloadQueue_evicts_outside_window_witness :
  within_window (state_of (updatePreloadQueue playing_second_a)) url_a.
Proof.
  refine (proj1 (updatePreloadQueue_evicts_outside_window playing_second_a url_a
                   {| h_src := Some url_a; readyState := 4 |} _ _ _ _)).
  - by vm_compute.
  - by vm_compute.
  - apply (bool_decide_unpack _). by vm_compute.
  - by vm_compute.
Defined.

(** ** The error counter and the ceiling (C4) *)

Lemma counted_fields video error m :
  errorCount (counted video error m) = errorCount m + 1
  ∧ passive (set_errorCount (errorCount m + 1) m) (counted video error m).
Proof.
  unfold counted, andThen, modify.
  set (m2 := log _ (set_errorCount _ m)).
  pose proof (emit_passive "videoError" (ErrorData video error) m2) as Hpassive.
  rewrite (emit_returns "videoError" (ErrorData video error) m2). simpl.
  split; [by destruct Hpassive as (_ & _ & _ & _ & _ & -> & _)|].
  etransitivity; [|exact Hpassive]. subst m2. frame_field.
Qed.

(** The two branches of [handleVideoError]. *)
Lemma handleVideoError_branches video error m :
  handleVideoError video error m
  = if errorCount m + 1 >? maxErrors m
    then playNext (log (Announce SkippingToNext) (counted video error m))
    else Returned (set_retryTimers
                     (retryTimers (counted video error m) ++ [retryDelay (config m)])
                     (counted video error m)).
Proof.
  destruct (counted_fields video error m)
    as (Hcount & _ & _ & _ & _ & _ & _ & Hmax & _ & _ & Hconfig).
  simpl in Hmax, Hconfig. rewrite <- Hcount, <- Hmax, <- Hconfig.
  unfold handleVideoError, counted, andThen, modify.
  set (m2 := log _ (set_errorCount _ m)).
  rewrite (emit_returns "videoError" (ErrorData video error) m2). simpl.
  by destruct (_ >? _).
Qed.

Lemma playNext_admitted m :
  playVideo_guard m = false →
  isTransitioning (state_of (playNext m)) = true
  ∧ currentIndex (state_of (playNext m))
    = Z.rem (currentIndex m + 1) (length_ (videoUrls m))
  ∧ is_Some (awaiting (state_of (playNext m)))
  ∧ retryTimers (state_of (playNext m)) = retryTimers m.
Proof.
  intros Hguard. unfold playNext, js_rem.
  assert (length_ (videoUrls m) ≠ 0) as Hlen.
  { unfold playVideo_guard in Hguard. apply orb_false_iff in Hguard as [_ Hlen].
    by apply Z.eqb_neq. }
  rewrite (proj2 (Z.eqb_neq _ _) Hlen). simpl.
  destruct (playVideo_admitted (Z.rem (currentIndex m + 1) (length_ (videoUrls m))) m Hguard)
    as (m' & -> & ? & Hcur & (onError & timeout & Haw) & _ & _ & _ & _ & _ & ?).
  simpl. rewrite Hcur, Haw. split_and!; [done|by apply Z.rem_rem|by eexists|done].
Qed.

Lemma playNext_rejected m :
  playVideo_guard m = true → state_of (playNext m) = m.
Proof.
  intros Hguard. unfold playNext.
  destruct (js_rem _ _); simpl; [by rewrite playVideo_rejects|done].
Qed.

Lemma playNext_retryTimers m : retryTimers (state_of (playNext m)) = retryTimers m.
Proof.
  destruct (playVideo_guard m) eqn:Hguard.
  - by rewrite playNext_rejected.
  - by destruct (playNext_admitted m Hguard) as (_ & _ & _ & ?).
Qed.

Lemma initialize_maxErrors URL_parses draw urls m :
  maxErrors (state_of (initialize URL_parses draw urls m)) = maxErrors m.
Proof.
  unfold initialize, setVideoUrls, setupVideoElements, andThen, modify. simpl.
  repeat (destruct (_ =? _); simpl; try done).
Qed.

(** The retry timer on a manager with a transition in progress: the
    callback does nothing. *)
Lemma retry_timer_callback_busy m :
  isTransitioning m = true → retry_timer_callback m = Returned m.
Proof. intros Hbusy. unfold retry_timer_callback. by rewrite Hbusy. Qed.

(** Otherwise it plays the current index again. *)
Lemma retry_timer_callback_idle m :
  playVideo_guard m = false →
  retry_timer_callback m = playVideo (currentIndex m) m.
Proof.
  intros Hguard. unfold retry_timer_callback, detached, retryCurrentVideo, try_catch.
  destruct (playVideo_admitted (currentIndex m) m Hguard) as (m' & -> & _).
  unfold playVideo_guard in Hguard. apply orb_false_iff in Hguard as [-> _]. done.
Qed.

(** The eleventh failure, reported while a transition is in progress,
    calls [playNext], which is dropped: the cursor stays and no retry
    is scheduled. *)
Example eleventh_failure_during_transition_does_not_advance :
  errorCount ten_errors_then_loading = 10
  ∧ maxErrors ten_errors_then_loading = 10
  ∧ currentIndex ten_errors_then_loading = 1
  ∧ errorCount (state_of (handleVideoError VideoB "decode" ten_errors_then_loading)) = 11
  ∧ currentIndex (state_of (handleVideoError VideoB "decode" ten_errors_then_loading)) = 1
  ∧ retryTimers (state_of (handleVideoError VideoB "decode" ten_errors_then_loading))
    = retryTimers ten_errors_then_loading
  ∧ awaiting (state_of (handleVideoError VideoB "decode" ten_errors_then_loading))
    = awaiting ten_errors_then_loading.
Proof. by vm_compute. Qed.

(** C4: [playVideo(0)] and its ten retries all time out.  The eleventh
    failure takes the count above the ceiling, and [handleVideoError],
    called from the [catch] block of [playVideo] before [finally] has
    lowered the flag, announces the skip and calls [playNext], which the
    guard of [playVideo] rejects: the cursor is still 0, no transition
    has begun, no retry is scheduled, and the rejection reaches nobody. *)
Theorem eleven_load_failures_stall :
  errorCount (run eleven_load_failures manager_abc) = 11
  ∧ maxErrors (run eleven_load_failures manager_abc) = 10
  ∧ announced (effects (run eleven_load_failures manager_abc))
    = [Initialized; SkippingToNext]
  ∧ List.last (effects (run eleven_load_failures manager_abc)) (Announce Initialized)
    = Unhandled "Cannot play video: transitioning or no URLs"
  ∧ currentIndex (run eleven_load_failures manager_abc) = 0
  ∧ isTransitioning (run eleven_load_failures manager_abc) = false
  ∧ awaiting (run eleven_load_failures manager_abc) = None
  ∧ retryTimers (run eleven_load_failures manager_abc) = [].
Proof. by vm_compute. Qed.

(** While no transition is in progress the eleventh failure does
    advance. *)
Example eleventh_failure_advances_when_idle :
  let m := step (Media VideoB (Error "decode")) ten_errors in
  errorCount m = 11 ∧ currentIndex playing_a = 0 ∧ currentIndex m = 1
  ∧ isTransitioning m = true.
Proof. by vm_compute. Qed.

(** Every call of [handleVideoError] adds one to the error count, and
    no run of the manager lowers it.  Above the ceiling
    [handleVideoError] calls [playNext] at once and schedules nothing:
    this begins the transition to the next index when the flag is down
    and the playlist is not empty, and moves nothing while the flag is
    up, as it is in the [catch] block of [playVideo].  At or below the
    ceiling it schedules one retry after [retryDelay] and starts
    nothing; the retry callback does nothing during a transition and
    otherwise plays the current index.  The ceiling is 10 in every
    manager, and the default delay 1000. *)
Lemma error_counter_and_ceiling (video : element) (error : string) (m : VideoManager) :
  errorCount (state_of (handleVideoError video error m)) = errorCount m + 1
  ∧ (∀ es : list event, errorCount m ≤ errorCount (run es m))
  ∧ (maxErrors m < errorCount m + 1 →
     handleVideoError video error m
     = playNext (log (Announce SkippingToNext) (counted video error m))
     ∧ retryTimers (state_of (handleVideoError video error m)) = retryTimers m
     ∧ (playVideo_guard m = false →
        isTransitioning (state_of (handleVideoError video error m)) = true
        ∧ currentIndex (state_of (handleVideoError video error m))
          = Z.rem (currentIndex m + 1) (length_ (videoUrls m))
        ∧ is_Some (awaiting (state_of (handleVideoError video error m))))
     ∧ (isTransitioning m = true →
        currentIndex (state_of (handleVideoError video error m)) = currentIndex m
        ∧ awaiting (state_of (handleVideoError video error m)) = awaiting m))
  ∧ (errorCount m + 1 ≤ maxErrors m →
     retryTimers (state_of (handleVideoError video error m))
     = retryTimers m ++ [retryDelay (config m)]
     ∧ currentIndex (state_of (handleVideoError video error m)) = currentIndex m
     ∧ isTransitioning (state_of (handleVideoError video error m)) = isTransitioning m
     ∧ awaiting (state_of (handleVideoError video error m)) = awaiting m)
  ∧ (isTransitioning m = true → retry_timer_callback m = Returned m)
  ∧ (playVideo_guard m = false →
     retry_timer_callback m = playVideo (currentIndex m) m)
  ∧ (∀ cfg URL_parses draw urls es,
       maxErrors (run es (state_of (initialize URL_parses draw urls (constructor cfg))))
       = 10)
  ∧ (∀ mobile, retryDelay (default_config mobile) = 1000).
Proof.
  destruct (counted_fields video error m)
    as (Hcount & _ & _ & Hcur & Hflag & Haw & _ & Hmax & Hurls & Hretry & Hconfig).
  simpl in *.
  split; [apply handleVideoError_errorCount|].
  split; [intros es; apply run_errorCount|].
  split; [|split]; [| |split_and!].
  - intros Hover. apply Z.gtb_lt in Hover.
    rewrite handleVideoError_branches, Hover. split; [done|].
    set (m1 := log _ (counted video error m)).
    assert (playVideo_guard m1 = playVideo_guard m) as Hguard.
    { unfold playVideo_guard. subst m1. simpl. by rewrite Hflag, Hurls. }
    split_and!.
    + rewrite playNext_retryTimers. subst m1. simpl. done.
    + intros Hidle. rewrite <- Hguard in Hidle.
      destruct (playNext_admitted m1 Hidle) as (? & -> & ? & _).
      subst m1. simpl. by rewrite Hcur, Hurls.
    + intros Hbusy. rewrite playNext_rejected.
      * subst m1. simpl. done.
      * rewrite Hguard. unfold playVideo_guard. by rewrite Hbusy.
  - intros Hunder. rewrite handleVideoError_branches.
    rewrite Z.gtb_ltb, (proj2 (Z.ltb_ge _ _)) by lia. simpl.
    by rewrite Hretry.
  - apply retry_timer_callback_busy.
  - apply retry_timer_callback_idle.
  - intros cfg URL_parses draw urls es.
    by rewrite run_maxErrors, initialize_maxErrors.
  - by intros [].
Qed.

Lemma error_counter_and_ceiling_witness :
  isTransitioning (state_of (handleVideoError VideoB "decode" ten_errors)) = true
  ∧ currentIndex (state_of (handleVideoError VideoB "decode" ten_errors))
    = Z.rem (currentIndex ten_errors + 1) (length_ (videoUrls ten_errors))
  ∧ is_Some (awaiting (state_of (handleVideoError VideoB "decode" ten_errors))).
Proof.
  refine (proj1 (proj2 (proj2
            (proj1 (proj2 (proj2 (error_counter_and_ceiling VideoB "decode" ten_errors)))
               _))) _);
    by vm_compute.
Defined.

(** * Further properties of the manager *)

(** ** Navigation inside the playlist *)

#[global] Instance ranged_preorder : PreOrder ranged.
Proof.
  split.
  - intros m. by split.
  - intros m1 m2 m3 [Hurls12 H12] [Hurls23 H23]. split; [congruence|auto].
Qed.

#[global] Hint Resolve ranged_preorder : frame.

Ltac frame_field ::=
  intros;
  first [ progress unfold passive | progress unfold calm | progress unfold same_cache
        | progress unfold ranged, in_range ];
  simpl; repeat split; intros; simpl in *; auto; try lia.

Lemma passive_ranged m m' : passive m m' → ranged m m'.
Proof.
  unfold passive, ranged, in_range. intros (_ & _ & -> & _ & _ & _ & _ & -> & _). done.
Qed.

Lemma preserves_passive_ranged a : preserves passive a → preserves ranged a.
Proof. intros Ha m. apply passive_ranged, Ha. Qed.

Lemma log_ranged e m : ranged m (log e m).
Proof. apply passive_ranged, log_passive. Qed.

Lemma update_element_ranged el f m : ranged m (update_element el f m).
Proof. apply passive_ranged, update_element_passive. Qed.

Lemma emit_ranged event data : preserves ranged (emit event data).
Proof. apply preserves_passive_ranged, emit_passive. Qed.

Lemma updatePreloadQueue_ranged : preserves ranged updatePreloadQueue.
Proof. apply preserves_passive_ranged, updatePreloadQueue_passive. Qed.

Lemma setupActiveVideoListeners_ranged : preserves ranged setupActiveVideoListeners.
Proof. apply preserves_passive_ranged, setupActiveVideoListeners_passive. Qed.

#[global] Hint Resolve log_ranged update_element_ranged emit_ranged
  updatePreloadQueue_ranged setupActiveVideoListeners_ranged : frame.

(** The truncating remainder of an index from [-1] on is [-1] or an
    index of the playlist. *)
Lemma rem_in_range index len :
  -1 ≤ index → 0 < len → -1 ≤ Z.rem index len < len.
Proof.
  intros Hindex Hlen. destruct (decide (index = -1)) as [->|Hne].
  - destruct (decide (len = 1)) as [->|Hlen1]; [by vm_compute|].
    pose proof (Z.rem_opp_l' 1 len) as Hrem.
    rewrite (Z.rem_small 1 len) in Hrem by lia.
    change (- (1)) with (-1) in Hrem. lia.
  - rewrite Z.rem_mod_nonneg by lia. pose proof (Z.mod_pos_bound index len Hlen). lia.
Qed.

Lemma guard_length m : playVideo_guard m = false → 0 < length_ (videoUrls m).
Proof.
  unfold playVideo_guard. intros [_ Hlen%Z.eqb_neq]%orb_false_iff.
  unfold length_ in *. lia.
Qed.

Lemma playVideo_ranged index m :
  (in_range m → -1 ≤ index) → ranged m (state_of (playVideo index m)).
Proof.
  intros Hindex. destruct (playVideo_guard m) eqn:Hguard.
  - rewrite playVideo_rejects by done. reflexivity.
  - destruct (playVideo_admitted index m Hguard)
      as (m' & -> & _ & Hcur & _ & _ & _ & _ & _ & Hurls & _).
    simpl. split; [done|]. intros Hm. unfold in_range. rewrite Hcur, Hurls.
    apply rem_in_range; [auto|by apply guard_length].
Qed.

Lemma playNext_ranged : preserves ranged playNext.
Proof.
  intros m. unfold playNext, js_rem.
  destruct (length_ (videoUrls m) =? 0) eqn:Hlen; simpl; [reflexivity|].
  apply Z.eqb_neq in Hlen. apply playVideo_ranged. intros [Hlow Hhigh].
  pose proof (Z.rem_nonneg (currentIndex m + 1) (length_ (videoUrls m))). lia.
Qed.

Lemma playPrevious_ranged : preserves ranged playPrevious.
Proof.
  intros m. unfold playPrevious, js_rem.
  destruct (length_ (videoUrls m) =? 0) eqn:Hlen; simpl; [reflexivity|].
  apply Z.eqb_neq in Hlen. apply playVideo_ranged. intros [Hlow Hhigh].
  assert (0 < length_ (videoUrls m)) by (unfold length_ in *; lia).
  destruct (decide (0 ≤ currentIndex m - 1 + length_ (videoUrls m))).
  - pose proof (Z.rem_nonneg (currentIndex m - 1 + length_ (videoUrls m))
                  (length_ (videoUrls m))). lia.
  - replace (currentIndex m - 1 + length_ (videoUrls m)) with (-1) by lia.
    replace (length_ (videoUrls m)) with 1 by lia. by vm_compute.
Qed.

Lemma playRandom_ranged r : preserves ranged (playRandom r).
Proof.
  intros m. unfold playRandom. apply playVideo_ranged. intros _.
  destruct (_ =? _); lia.
Qed.

#[global] Hint Resolve playNext_ranged playPrevious_ranged playRandom_ranged : frame.

Lemma retryCurrentVideo_ranged : preserves ranged retryCurrentVideo.
Proof.
  unfold retryCurrentVideo. apply (preserves_try_catch ranged); [|intros e; frame].
  intros m. apply playVideo_ranged. by intros [? _].
Qed.

#[global] Hint Resolve retryCurrentVideo_ranged : frame.

Lemma handleVideoError_ranged video error : preserves ranged (handleVideoError video error).
Proof.
  unfold handleVideoError.
  apply (preserves_andThen ranged); [frame|].
  apply (preserves_andThen ranged); [frame|].
  apply (preserves_andThen ranged); [frame|].
  intros m. destruct (errorCount m >? maxErrors m).
  - apply (preserves_andThen ranged); frame.
  - apply (preserves_modify ranged). frame_field.
Qed.

#[global] Hint Resolve handleVideoError_ranged : frame.

Lemma retry_timer_callback_ranged : preserves ranged retry_timer_callback.
Proof.
  intros m. unfold retry_timer_callback.
  destruct (negb (isTransitioning m)); [|reflexivity].
  apply (preserves_detached ranged); frame.
Qed.

Lemma playVideo_catch_ranged error : preserves ranged (playVideo_catch error).
Proof.
  unfold playVideo_catch. apply (preserves_andThen ranged); [frame|].
  intros m. apply (preserves_detached ranged); frame.
Qed.

Lemma videoEventHandler_ranged e target : preserves ranged (videoEventHandler e target).
Proof. destruct e; simpl; frame. Qed.

#[global] Hint Resolve retry_timer_callback_ranged playVideo_catch_ranged
  videoEventHandler_ranged : frame.

Lemma playVideo_load_failed_ranged error : preserves ranged (playVideo_load_failed error).
Proof. unfold playVideo_load_failed, playVideo_finally. frame. Qed.

Lemma playVideo_loaded_ranged : preserves ranged playVideo_loaded.
Proof. unfold playVideo_loaded, crossfade. frame. Qed.

Lemma playVideo_crossfaded_ranged : preserves ranged playVideo_crossfaded.
Proof.
  unfold playVideo_crossfaded, crossfade_timer_callback, playVideo_rest, playVideo_finally.
  frame.
Qed.

#[global] Hint Resolve playVideo_load_failed_ranged playVideo_loaded_ranged
  playVideo_crossfaded_ranged : frame.

Lemma handler_ranged e : well_called e → preserves ranged (handler e).
Proof.
  destruct e; simpl; intros Hcalled;
    first [ solve [frame] | solve [apply preserves_passive_ranged; frame] | idtac ].
  - intros m. apply playVideo_ranged. lia.
  - intros m. unfold dispatch.
    apply (preserves_andThen ranged); [destruct (listening _); frame|].
    destruct (decide _); [|frame].
    destruct (awaiting m) as [[[] ?|?]|], e; frame.
  - intros m. destruct (awaiting m) as [[[] ?|?]|];
      first [ apply playVideo_load_failed_ranged | reflexivity ].
  - intros m. destruct (awaiting m) as [[? ?|?]|];
      first [ apply playVideo_crossfaded_ranged | reflexivity ].
  - intros m. destruct (retryTimers m); [reflexivity|].
    apply (preserves_andThen ranged); frame.
  - intros m. destruct (bool_decide _); [|reflexivity].
    apply passive_ranged. apply (preserves_andThen passive); frame.
  - intros m. destruct (bool_decide _); [|reflexivity].
    apply passive_ranged. apply (preserves_andThen passive); frame.
Qed.

Lemma run_ranged es m : Forall well_called es → ranged m (run es m).
Proof.
  intros Hes. revert m. induction Hes as [|e es He _ IH]; intros m; [reflexivity|].
  rewrite run_cons. etransitivity; [|apply IH]. by apply handler_ranged.
Qed.

Lemma initialize_currentIndex URL_parses draw urls m :
  currentIndex (state_of (initialize URL_parses draw urls m)) = currentIndex m.
Proof.
  unfold initialize, setVideoUrls, setupVideoElements, andThen, modify. simpl.
  repeat (destruct (_ =? _); simpl; try done).
Qed.

Lemma js_index_in_range {A} (l : list A) (i : Z) :
  0 ≤ i < length_ l → is_Some (js_index l i).
Proof.
  intros [Hlow Hhigh]. unfold js_index, length_ in *.
  rewrite (proj2 (Z.ltb_ge _ _)) by done. apply lookup_lt_is_Some. lia.
Qed.

(** X1: From initialization on, whatever happens, the cursor is [-1] or an
    index of the playlist, as long as the application calls [playVideo]
    with indices that are not negative; the playlist is never changed;
    and once the cursor has left [-1], [getCurrentVideoInfo] reports a
    URL. *)
Theorem cursor_stays_in_playlist
    (URL_parses : string → bool) (draw : nat → nat) (urls : list string) (cfg : Config)
    (es : list event) :
  Forall well_called es →
  in_range (run es (state_of (initialize URL_parses draw urls (constructor cfg))))
  ∧ videoUrls (run es (state_of (initialize URL_parses draw urls (constructor cfg))))
    = videoUrls (state_of (initialize URL_parses draw urls (constructor cfg)))
  ∧ (0 ≤ currentIndex
           (run es (state_of (initialize URL_parses draw urls (constructor cfg)))) →
     is_Some (url (getCurrentVideoInfo
                     (run es (state_of
                                (initialize URL_parses draw urls (constructor cfg))))))).
Proof.
  intros Hes.
  set (m0 := state_of (initialize URL_parses draw urls (constructor cfg))).
  destruct (run_ranged es m0 Hes) as [Hurls Hrange].
  assert (in_range m0) as Hm0.
  { unfold in_range. subst m0. rewrite initialize_currentIndex. simpl.
    unfold length_. lia. }
  split_and!; [auto|done|].
  intros Hplayed. simpl. apply js_index_in_range.
  destruct (Hrange Hm0). lia.
Qed.

Lemma cursor_stays_in_playlist_witness :
  in_range (run [CallPlayVideo 7; LoadTimerFires; RetryTimerFires; CallPlayPrevious]
              (state_of (initialize (accepts [url_a; url_b; url_c]) draw_last
                           [url_a; url_b; url_c] (constructor (default_config false))))).
Proof.
  refine (proj1 (cursor_stays_in_playlist (accepts [url_a; url_b; url_c]) draw_last
                   [url_a; url_b; url_c] (default_config false)
                   [CallPlayVideo 7; LoadTimerFires; RetryTimerFires; CallPlayPrevious] _)).
  repeat constructor. by vm_compute.
Defined.

Lemma playPrevious_admitted m :
  playVideo_guard m = false →
  isTransitioning (state_of (playPrevious m)) = true
  ∧ currentIndex (state_of (playPrevious m))
    = Z.rem (currentIndex m - 1 + length_ (videoUrls m)) (length_ (videoUrls m)).
Proof.
  intros Hguard. unfold playPrevious, js_rem.
  pose proof (guard_length m Hguard) as Hlen.
  rewrite (proj2 (Z.eqb_neq _ _)) by lia. simpl.
  destruct (playVideo_admitted
              (Z.rem (currentIndex m - 1 + length_ (videoUrls m)) (length_ (videoUrls m)))
              m Hguard) as (m' & -> & ? & Hcur & _).
  simpl. rewrite Hcur. split; [done|]. apply Z.rem_rem. lia.
Qed.

(** X2: [playNext] and [playPrevious], admitted on a manager whose cursor
    is [-1] or an index of the playlist, move the cursor by one modulo
    the length of the playlist: forward from the last index to 0,
    backward from 0 to the last index, and never outside the playlist. *)
Theorem playNext_playPrevious_wrap (m : VideoManager) :
  playVideo_guard m = false →
  in_range m →
  currentIndex (step CallPlayNext m) = (currentIndex m + 1) `mod` length_ (videoUrls m)
  ∧ currentIndex (step CallPlayPrevious m)
    = (currentIndex m - 1) `mod` length_ (videoUrls m)
  ∧ (currentIndex m = length_ (videoUrls m) - 1 → currentIndex (step CallPlayNext m) = 0)
  ∧ (currentIndex m = 0 →
     currentIndex (step CallPlayPrevious m) = length_ (videoUrls m) - 1)
  ∧ 0 ≤ currentIndex (step CallPlayNext m) < length_ (videoUrls m)
  ∧ 0 ≤ currentIndex (step CallPlayPrevious m) < length_ (videoUrls m).
Proof.
  intros Hguard [Hlow Hhigh]. pose proof (guard_length m Hguard) as Hlen.
  unfold step. simpl.
  destruct (playNext_admitted m Hguard) as (_ & -> & _).
  destruct (playPrevious_admitted m Hguard) as (_ & ->).
  rewrite Z.rem_mod_nonneg by lia.
  assert (Z.rem (currentIndex m - 1 + length_ (videoUrls m)) (length_ (videoUrls m))
          = (currentIndex m - 1) `mod` length_ (videoUrls m)) as ->.
  { destruct (decide (0 ≤ currentIndex m - 1 + length_ (videoUrls m))).
    - rewrite Z.rem_mod_nonneg by lia.
      replace (currentIndex m - 1 + length_ (videoUrls m))
        with (currentIndex m - 1 + 1 * length_ (videoUrls m)) by lia.
      apply Z_mod_plus_full.
    - replace (currentIndex m) with (-1) by lia.
      replace (length_ (videoUrls m)) with 1 by lia. by vm_compute. }
  pose proof (Z.mod_pos_bound (currentIndex m + 1) _ Hlen).
  pose proof (Z.mod_pos_bound (currentIndex m - 1) _ Hlen).
  split_and!; try done; try lia.
  - intros ->. replace (length_ (videoUrls m) - 1 + 1) with (length_ (videoUrls m)) by lia.
    apply Z_mod_same_full.
  - intros ->. rewrite <- (Z_mod_plus_full (0 - 1) 1 (length_ (videoUrls m))).
    rewrite Z.mod_small; lia.
Qed.

Lemma playNext_playPrevious_wrap_witness :
  currentIndex (step CallPlayNext (run [CallPlayNext; Media VideoA CanPlay;
                                        CrossfadeTimerFires; CallPlayNext;
                                        Media VideoB CanPlay; CrossfadeTimerFires]
                                       playing_a)) = 0
  ∧ currentIndex (step CallPlayPrevious playing_a) = length_ (videoUrls playing_a) - 1.
Proof.
  split.
  - refine (proj1 (proj2 (proj2
      (playNext_playPrevious_wrap
         (run [CallPlayNext; Media VideoA CanPlay; CrossfadeTimerFires; CallPlayNext;
               Media VideoB CanPlay; CrossfadeTimerFires] playing_a) _ _))) _);
      by vm_compute.
  - refine (proj1 (proj2 (proj2 (proj2
      (playNext_playPrevious_wrap playing_a _ _)))) _); by vm_compute.
Defined.

(** X3: [playRandom], admitted, puts the cursor on an index of the
    playlist, whatever [Math.random] yields. *)
Theorem playRandom_inside_playlist (r : nat) (m : VideoManager) :
  playVideo_guard m = false →
  isTransitioning (step (CallPlayRandom r) m) = true
  ∧ 0 ≤ currentIndex (step (CallPlayRandom r) m) < length_ (videoUrls m)
  ∧ is_Some (js_index (videoUrls m) (currentIndex (step (CallPlayRandom r) m))).
Proof.
  intros Hguard. pose proof (guard_length m Hguard) as Hlen.
  unfold step. simpl. unfold playRandom.
  rewrite (proj2 (Z.eqb_neq _ _)) by lia.
  destruct (playVideo_admitted (Z.of_nat (r `mod` length (videoUrls m))) m Hguard)
    as (m' & -> & ? & Hcur & _).
  simpl. rewrite Hcur.
  assert (0 ≤ Z.of_nat (r `mod` length (videoUrls m)) < length_ (videoUrls m)) as Hr.
  { unfold length_ in *.
    pose proof (Nat.mod_upper_bound r (length (videoUrls m))). lia. }
  rewrite Z.rem_small by done. split_and!; [done|lia|lia|by apply js_index_in_range].
Qed.

Lemma playRandom_inside_playlist_witness :
  isTransitioning (step (CallPlayRandom 8) playing_a) = true
  ∧ 0 ≤ currentIndex (step (CallPlayRandom 8) playing_a) < length_ (videoUrls playing_a)
  ∧ is_Some (js_index (videoUrls playing_a)
               (currentIndex (step (CallPlayRandom 8) playing_a))).
Proof. refine (playRandom_inside_playlist 8 playing_a _). by vm_compute. Defined.

(** ** [getCurrentVideoInfo] *)

(** X4: After [playVideo(index)] with an index that is not negative has
    been admitted and has settled, by success or by failure,
    [getCurrentVideoInfo] reports the index modulo the length of the
    playlist, that length, and the URL the playlist has there. *)
Theorem getCurrentVideoInfo_after_playVideo
    (target : Z) (es : list event) (m : VideoManager) :
  playVideo_guard m = false →
  0 ≤ target →
  settles es (step (CallPlayVideo target) m) = true →
  index (getCurrentVideoInfo (run es (step (CallPlayVideo target) m)))
  = target `mod` length_ (videoUrls m)
  ∧ total (getCurrentVideoInfo (run es (step (CallPlayVideo target) m)))
    = length_ (videoUrls m)
  ∧ url (getCurrentVideoInfo (run es (step (CallPlayVideo target) m)))
    = videoUrls m !! Z.to_nat (target `mod` length_ (videoUrls m))
  ∧ is_Some (url (getCurrentVideoInfo (run es (step (CallPlayVideo target) m)))).
Proof.
  intros Hguard Htarget Hsettles. pose proof (guard_length m Hguard) as Hlen.
  destruct (playVideo_cursor_nonnegative target es m Hguard Htarget Hsettles)
    as [Hcur Hin].
  destruct (step_playVideo_admitted target m Hguard) as (_ & _ & _ & _ & _ & Hurls0).
  pose proof (run_videoUrls es (step (CallPlayVideo target) m)) as Hurls.
  rewrite Hurls0 in Hurls. simpl. rewrite Hcur, Hurls.
  pose proof (Z.mod_pos_bound target _ Hlen).
  assert (js_index (videoUrls m) (target `mod` length_ (videoUrls m))
          = videoUrls m !! Z.to_nat (target `mod` length_ (videoUrls m))) as Hjs.
  { unfold js_index. by rewrite (proj2 (Z.ltb_ge _ _)) by lia. }
  split_and!; [done|done|done|]. by apply js_index_in_range.
Qed.

Lemma getCurrentVideoInfo_after_playVideo_witness :
  index (getCurrentVideoInfo
           (run [Media VideoA CanPlay; CrossfadeTimerFires]
              (step (CallPlayVideo 7) playing_a)))
  = 7 `mod` length_ (videoUrls playing_a).
Proof.
  refine (proj1 (getCurrentVideoInfo_after_playVideo 7
                   [Media VideoA CanPlay; CrossfadeTimerFires] playing_a _ _ _));
    by vm_compute.
Defined.

(** ** What an admitted [playVideo] loads *)

Lemma element_state_update_element el f m :
  element_state el (update_element el f m) = f (element_state el m).
Proof. by destruct el. Qed.

(** The promise an admitted [playVideo index] awaits and the source it
    gives the inactive element, by what the cache holds for the target;
    the cache and the event loop's queues stay as they are. *)
Lemma playVideo_admitted_load index m :
  playVideo_guard m = false →
  config (state_of (playVideo index m)) = config m
  ∧ preloadedVideos (state_of (playVideo index m)) = preloadedVideos m
  ∧ loadingPromises (state_of (playVideo index m)) = loadingPromises m
  ∧ preloads (state_of (playVideo index m)) = preloads m
  ∧ eventListeners (state_of (playVideo index m)) = eventListeners m
  ∧ match preloadedVideos m
          !! js_index (videoUrls m) (Z.rem index (length_ (videoUrls m))) with
    | Some preloadedVideo =>
        if 2 <=? readyState preloadedVideo
        then awaiting (state_of (playVideo index m)) = Some (AwaitCanPlay false 5000)
             ∧ src (element_state (inactiveVideoElement m) (state_of (playVideo index m)))
               = h_src preloadedVideo
        else awaiting (state_of (playVideo index m))
             = Some (AwaitCanPlay true (loadTimeout (config m)))
             ∧ src (element_state (inactiveVideoElement m) (state_of (playVideo index m)))
               = js_index (videoUrls m) (Z.rem index (length_ (videoUrls m)))
    | None =>
        awaiting (state_of (playVideo index m))
        = Some (AwaitCanPlay true (loadTimeout (config m)))
        ∧ src (element_state (inactiveVideoElement m) (state_of (playVideo index m)))
          = js_index (videoUrls m) (Z.rem index (length_ (videoUrls m)))
    end.
Proof.
  intros Hguard. unfold playVideo. rewrite Hguard.
  unfold andThen, modify. simpl.
  destruct (preloadedVideos m
              !! js_index (videoUrls m) (Z.rem index (length_ (videoUrls m)))) as [h|].
  - destruct (2 <=? readyState h).
    + unfold usePreloadedVideo, andThen, modify. simpl.
      autorewrite with fields. by destruct (inactiveVideoElement m).
    + unfold loadNewVideo, andThen, modify. simpl.
      autorewrite with fields. by destruct (inactiveVideoElement m).
  - unfold loadNewVideo, andThen, modify. simpl.
    autorewrite with fields. by destruct (inactiveVideoElement m).
Qed.

(** ** The retry after a failed load *)

(** A failed load below the ceiling: one retry scheduled, the flag
    down, the cursor where it was. *)
Lemma playVideo_load_failed_below_ceiling error m :
  errorCount m + 1 ≤ maxErrors m →
  retryTimers (state_of (playVideo_load_failed error m))
  = retryTimers m ++ [retryDelay (config m)]
  ∧ isTransitioning (state_of (playVideo_load_failed error m)) = false
  ∧ awaiting (state_of (playVideo_load_failed error m)) = None
  ∧ currentIndex (state_of (playVideo_load_failed error m)) = currentIndex m
  ∧ videoUrls (state_of (playVideo_load_failed error m)) = videoUrls m
  ∧ errorCount (state_of (playVideo_load_failed error m)) = errorCount m + 1.
Proof.
  intros Hbelow.
  unfold playVideo_load_failed, playVideo_catch, playVideo_finally, try_finally, detached,
    try_catch, andThen, modify. simpl.
  set (m1 := log _ (set_awaiting None m)).
  rewrite (handleVideoError_branches (inactiveVideoElement m) error m1).
  replace (errorCount m1 + 1 >? maxErrors m1) with false.
  2:{ subst m1. simpl. symmetry. rewrite Z.gtb_ltb. apply Z.ltb_ge. lia. }
  destruct (counted_fields (inactiveVideoElement m) error m1)
    as (Hcount & _ & _ & Hcur & _ & Haw & _ & _ & Hurls & Hretry & _).
  simpl in *. by rewrite Hretry, Haw, Hcur, Hurls, Hcount.
Qed.

(** X5: A load that times out below the error ceiling is retried: the
    failure schedules one retry after [retryDelay] and lowers the flag,
    and when the retry timer fires the manager begins a transition to
    the same index. *)
Theorem failed_load_is_retried (target : Z) (m : VideoManager) :
  playVideo_guard m = false →
  retryTimers m = [] →
  errorCount m + 1 ≤ maxErrors m →
  retryTimers (run [CallPlayVideo target; LoadTimerFires] m) = [retryDelay (config m)]
  ∧ isTransitioning (run [CallPlayVideo target; LoadTimerFires] m) = false
  ∧ errorCount (run [CallPlayVideo target; LoadTimerFires] m) = errorCount m + 1
  ∧ retryTimers (run [CallPlayVideo target; LoadTimerFires; RetryTimerFires] m) = []
  ∧ isTransitioning (run [CallPlayVideo target; LoadTimerFires; RetryTimerFires] m) = true
  ∧ currentIndex (run [CallPlayVideo target; LoadTimerFires; RetryTimerFires] m)
    = Z.rem target (length_ (videoUrls m))
  ∧ is_Some (awaiting (run [CallPlayVideo target; LoadTimerFires; RetryTimerFires] m)).
Proof.
  intros Hguard Hnone Hbelow. pose proof (guard_length m Hguard) as Hlen.
  change (run [CallPlayVideo target; LoadTimerFires; RetryTimerFires] m)
    with (step RetryTimerFires (run [CallPlayVideo target; LoadTimerFires] m)).
  change (run [CallPlayVideo target; LoadTimerFires] m)
    with (step LoadTimerFires (step (CallPlayVideo target) m)).
  destruct (playVideo_admitted_load target m Hguard) as (Hconfig1 & _).
  destruct (playVideo_admitted target m Hguard)
    as (m1 & Hplay & Hflag1 & Hcur1 & (onError & timeout & Haw1) & _ & _ & Hcount1 & Hmax1
        & Hurls1 & Hretry1).
  assert (step (CallPlayVideo target) m = m1) as -> by (unfold step; simpl; by rewrite Hplay).
  rewrite Hplay in Hconfig1. simpl in Hconfig1.
  set (m2 := step LoadTimerFires m1).
  assert (retryTimers m2 = [retryDelay (config m)]
          ∧ isTransitioning m2 = false ∧ awaiting m2 = None
          ∧ currentIndex m2 = currentIndex m1 ∧ videoUrls m2 = videoUrls m1
          ∧ errorCount m2 = errorCount m1 + 1)
    as (Hretry2 & Hflag2 & Haw2 & Hcur2 & Hurls2 & Hcount2).
  { subst m2. unfold step. simpl handler. rewrite Haw1.
    assert (errorCount m1 + 1 ≤ maxErrors m1) as Hbelow1 by lia.
    destruct onError;
      [pose proof (playVideo_load_failed_below_ceiling "Video load timeout" m1 Hbelow1) as H
      |pose proof (playVideo_load_failed_below_ceiling "Preloaded video setup timeout" m1
                     Hbelow1) as H];
      rewrite Hretry1, Hnone, Hconfig1 in H; exact H. }
  assert (playVideo_guard (set_retryTimers [] m2) = false) as Hguard2.
  { unfold playVideo_guard. simpl. rewrite Hflag2, Hurls2, Hurls1. simpl.
    apply Z.eqb_neq. lia. }
  assert (step RetryTimerFires m2 = state_of (playVideo (currentIndex m2) (set_retryTimers [] m2)))
    as ->.
  { unfold step. simpl handler. rewrite Hretry2. unfold andThen, modify.
    by rewrite (retry_timer_callback_idle _ Hguard2). }
  destruct (playVideo_admitted (currentIndex m2) _ Hguard2)
    as (m3 & -> & Hflag3 & Hcur3 & (onError3 & timeout3 & Haw3) & _ & _ & _ & _ & _ & Hretry3).
  simpl in *. rewrite Hretry3, Hflag3, Hcur3, Haw3, Hcur2, Hcur1, Hurls2, Hurls1, Hcount2, Hcount1.
  split_and!; try done. by apply Z.rem_rem, Z.neq_sym, Z.lt_neq.
Qed.

Lemma failed_load_is_retried_witness :
  retryTimers (run [CallPlayVideo 1; LoadTimerFires] playing_a) = [1000]
  ∧ currentIndex (run [CallPlayVideo 1; LoadTimerFires; RetryTimerFires] playing_a) = 1.
Proof.
  pose proof (failed_load_is_retried 1 playing_a) as H.
  refine (let H' := H _ _ _ in conj (proj1 H') (proj1 (proj2 (proj2 (proj2 (proj2 (proj2 H')))))));
    by vm_compute.
Defined.

(** ** The preload window after [updatePreloadQueue] *)

Lemma updatePreloadQueue_rounds m :
  updatePreloadQueue m
  = forEach (seq 1 (Z.to_nat (preloadBufferSize (config m)))) preload_round
      (state_of (cleanupPreloadQueue m)).
Proof. reflexivity. Qed.

Lemma nextUrl_same_cache m m' i : same_cache m m' → nextUrl m' i = nextUrl m i.
Proof. unfold nextUrl. by intros (_ & _ & -> & ->). Qed.

Lemma not_covered m u :
  ¬ covered m u ↔ preloadedVideos m !! u = None ∧ u ∉ loadingPromises m.
Proof.
  unfold covered. rewrite eq_None_not_Some. tauto.
Qed.

(** One round: nothing when the URL is covered, one preload started
    otherwise. *)
Lemma preload_round_covered i m :
  covered m (nextUrl m i) → preload_round i m = Returned m.
Proof.
  intros Hcovered. unfold preload_round.
  destruct (bool_decide _ && bool_decide _) eqn:Htest; [|done].
  apply andb_true_iff in Htest as [Hcache%bool_decide_eq_true Hloading%bool_decide_eq_true].
  exfalso. by apply (not_covered m (nextUrl m i)).
Qed.

Lemma preload_round_starts i m :
  ¬ covered m (nextUrl m i) →
  ∃ m', preload_round i m = Returned m'
        ∧ same_cache m m'
        ∧ loadingPromises m' = {[nextUrl m i]} ∪ loadingPromises m
        ∧ preloads m' = preloads m ++ [nextUrl m i].
Proof.
  intros [Hcache Hloading]%not_covered. unfold preload_round.
  rewrite !bool_decide_eq_true_2 by done. simpl.
  unfold detached, try_catch, preloadVideo, andThen, modify. simpl.
  eexists. split; [reflexivity|]. split; [frame_field|done].
Qed.

(** The rounds of the loop: the cache stays; each URL of the rounds ends
    covered; what is started was not covered, and is started once. *)
Lemma rounds_spec l m :
  ∃ m' new,
    forEach l preload_round m = Returned m'
    ∧ same_cache m m'
    ∧ preloads m' = preloads m ++ new
    ∧ loadingPromises m' = list_to_set new ∪ loadingPromises m
    ∧ NoDup new
    ∧ (∀ u, u ∈ new → ¬ covered m u)
    ∧ (∀ i, i ∈ l → covered m' (nextUrl m i)).
Proof.
  revert m. induction l as [|i l IH]; intros m.
  - exists m, []. simpl. split_and!; try done.
    + by rewrite app_nil_r.
    + by rewrite (left_id_L ∅ (∪)).
    + constructor.
    + intros u Hu. by apply elem_of_nil in Hu.
    + intros i Hi. by apply elem_of_nil in Hi.
  - cbn [forEach]. unfold andThen.
    destruct (decide (covered m (nextUrl m i))) as [Hcovered|Hnot].
    + rewrite preload_round_covered by done.
      destruct (IH m) as (m' & new & -> & Hsame & Hpre & Hload & Hnodup & Hnew & Hall).
      exists m', new. split_and!; try done.
      intros j [->|Hj]%elem_of_cons; [|by apply Hall].
      destruct Hsame as (Hcache & _). unfold covered in *. rewrite Hcache, Hload.
      destruct Hcovered; [by left|right; apply elem_of_union; by right].
    + destruct (preload_round_starts i m Hnot) as (m1 & -> & Hsame1 & Hload1 & Hpre1).
      destruct (IH m1) as (m' & new & -> & Hsame & Hpre & Hload & Hnodup & Hnew & Hall).
      assert (covered m1 (nextUrl m i)) as Hnow.
      { right. rewrite Hload1. apply elem_of_union. left. by apply elem_of_singleton. }
      assert (∀ u, covered m u → covered m1 u) as Hmono.
      { intros u [Hu|Hu]; [left|right].
        - by destruct Hsame1 as (-> & _).
        - rewrite Hload1. apply elem_of_union. by right. }
      exists m', (nextUrl m i :: new). split_and!.
      * done.
      * by etransitivity.
      * by rewrite Hpre, Hpre1, <- app_assoc.
      * rewrite Hload, Hload1, list_to_set_cons. apply set_eq. intros u.
        rewrite !elem_of_union. tauto.
      * constructor; [|done]. intros Hin. by apply (Hnew _ Hin).
      * intros u [->|Hu]%elem_of_cons; [done|]. intros Hu'. by apply (Hnew u Hu), Hmono.
      * intros j [->|Hj]%elem_of_cons.
        -- destruct Hsame as (Hcache & _). unfold covered in *. rewrite Hcache, Hload.
           destruct Hnow; [by left|right; apply elem_of_union; by right].
        -- rewrite <- (nextUrl_same_cache m m1 j Hsame1). by apply Hall.
Qed.

Lemma cleanupPreloadQueue_fields m :
  preloadedVideos (state_of (cleanupPreloadQueue m))
  = filter (λ kv, evicted m kv.1 = false) (preloadedVideos m)
  ∧ loadingPromises (state_of (cleanupPreloadQueue m)) = loadingPromises m
  ∧ preloads (state_of (cleanupPreloadQueue m)) = preloads m
  ∧ config (state_of (cleanupPreloadQueue m)) = config m
  ∧ videoUrls (state_of (cleanupPreloadQueue m)) = videoUrls m
  ∧ currentIndex (state_of (cleanupPreloadQueue m)) = currentIndex m.
Proof. done. Qed.


(** What [updatePreloadQueue] does to the cache and the loads in
    flight. *)
Lemma updatePreloadQueue_spec m :
  ∃ m' new,
    updatePreloadQueue m = Returned m'
    ∧ preloadedVideos m' = filter (λ kv, evicted m kv.1 = false) (preloadedVideos m)
    ∧ config m' = config m ∧ videoUrls m' = videoUrls m ∧ currentIndex m' = currentIndex m
    ∧ preloads m' = preloads m ++ new
    ∧ loadingPromises m' = list_to_set new ∪ loadingPromises m
    ∧ NoDup new
    ∧ (∀ u, u ∈ new → preloadedVideos m' !! u = None ∧ u ∉ loadingPromises m)
    ∧ (∀ i, i ∈ seq 1 (Z.to_nat (preloadBufferSize (config m))) →
            covered m' (nextUrl m i)).
Proof.
  rewrite updatePreloadQueue_rounds.
  destruct (cleanupPreloadQueue_fields m)
    as (Hcache0 & Hload0 & Hpre0 & Hconfig0 & Hurls0 & Hcur0).
  destruct (rounds_spec (seq 1 (Z.to_nat (preloadBufferSize (config m))))
              (state_of (cleanupPreloadQueue m)))
    as (m' & new & -> & (Hcache & Hconfig & Hurls & Hcur) & Hpre & Hload & Hnodup & Hnew
        & Hall).
  exists m', new. split_and!; try congruence.
  - intros u Hu. apply Hnew, not_covered in Hu as [Hu1 Hu2]. split; congruence.
  - intros i Hi. specialize (Hall i Hi). unfold nextUrl in *. by rewrite <- Hurls0, <- Hcur0.
Qed.






(** ** From a finished preload to playback *)

Lemma step_preload_resolved u ready m :
  u ∈ preloads m →
  step (PreloadCanPlayThrough u ready) m
  = state_of (preload_resolved u ready (set_preloads (remove_one u (preloads m)) m)).
Proof.
  intros Hu. unfold step. simpl handler. by rewrite bool_decide_eq_true_2.
Qed.

(** X8: When a preload in flight for [u] fires [canplaythrough], the cache
    gets the element under [u] and [u] is no longer loading.  A later
    admitted [playVideo] whose target is [u] gives the inactive element
    the cached source; with [readyState >= 2] it waits for [canplay]
    under the 5 s timer, with no [error] listener, otherwise it loads
    afresh under [loadTimeout]. *)
Theorem preloaded_video_is_used (u : key) (ready target : Z) (m : VideoManager) :
  u ∈ preloads m →
  playVideo_guard m = false →
  js_index (videoUrls m) (Z.rem target (length_ (videoUrls m))) = u →
  preloadedVideos (step (PreloadCanPlayThrough u ready) m) !! u
  = Some {| h_src := u; readyState := ready |}
  ∧ (u ∉ loadingPromises (step (PreloadCanPlayThrough u ready) m))
  ∧ src (element_state (inactiveVideoElement m)
           (run [PreloadCanPlayThrough u ready; CallPlayVideo target] m)) = u
  ∧ awaiting (run [PreloadCanPlayThrough u ready; CallPlayVideo target] m)
    = Some (if 2 <=? ready then AwaitCanPlay false 5000
            else AwaitCanPlay true (loadTimeout (config m))).
Proof.
  intros Hu Hguard Htarget.
  change (run [PreloadCanPlayThrough u ready; CallPlayVideo target] m)
    with (step (CallPlayVideo target) (step (PreloadCanPlayThrough u ready) m)).
  rewrite step_preload_resolved by done.
  set (m1 := state_of (preload_resolved u ready _)).
  assert (preloadedVideos m1 !! u = Some {| h_src := u; readyState := ready |}) as Hcache.
  { subst m1. unfold preload_resolved, andThen, modify. simpl. apply lookup_insert_eq. }
  assert (passive m m1) as (_ & Hinactive & _ & Hflag & _ & _ & _ & Hurls & _ & Hconfig).
  { subst m1. etransitivity; [|apply preload_resolved_passive]. frame_field. }
  split_and!; [done| | |].
  - subst m1. unfold preload_resolved, andThen, modify. simpl.
    intros [_ Hin]%elem_of_difference. apply Hin. by apply elem_of_singleton.
  - assert (playVideo_guard m1 = false) as Hguard1.
    { unfold playVideo_guard in *. by rewrite Hflag, Hurls. }
    destruct (playVideo_admitted_load target m1 Hguard1) as (_ & _ & _ & _ & _ & Hload).
    rewrite Hurls, Htarget, Hcache, Hinactive in Hload. simpl in Hload.
    unfold step. simpl handler. by destruct (2 <=? ready); destruct Hload as [_ ->].
  - assert (playVideo_guard m1 = false) as Hguard1.
    { unfold playVideo_guard in *. by rewrite Hflag, Hurls. }
    destruct (playVideo_admitted_load target m1 Hguard1) as (_ & _ & _ & _ & _ & Hload).
    rewrite Hurls, Htarget, Hcache, Hconfig in Hload. simpl in Hload.
    unfold step. simpl handler. by destruct (2 <=? ready); destruct Hload as [-> _].
Qed.

Lemma preloaded_video_is_used_witness :
  awaiting (run [PreloadCanPlayThrough (Some url_b) 4; CallPlayVideo 1]
              (state_of (updatePreloadQueue playing_a)))
  = Some (AwaitCanPlay false 5000).
Proof.
  refine (proj2 (proj2 (proj2 (preloaded_video_is_used (Some url_b) 4 1
                                 (state_of (updatePreloadQueue playing_a)) _ _ _)))).
  - apply (bool_decide_unpack _). by vm_compute.
  - by vm_compute.
  - by vm_compute.
Defined.

(** ** Errors while a cached video is set up *)

(** X9: While [playVideo] waits for a cached video (no [error] listener on
    the promise) and the inactive element carries no handler of the
    manager, an [error] event of that element changes nothing: the
    failure is noticed only when the 5 s timer fires, which then counts
    it and lowers the flag.  The same event during a fresh load rejects
    the promise at once. *)
Theorem error_during_cached_setup_waits_for_timer
    (message : string) (timeout : Z) (m : VideoManager) :
  listening (element_state (inactiveVideoElement m) m) = false →
  (awaiting m = Some (AwaitCanPlay false timeout) →
   step (Media (inactiveVideoElement m) (Error message)) m = m
   ∧ isTransitioning (step LoadTimerFires m) = false
   ∧ errorCount (step LoadTimerFires m) = errorCount m + 1)
  ∧ (awaiting m = Some (AwaitCanPlay true timeout) →
     isTransitioning (step (Media (inactiveVideoElement m) (Error message)) m) = false
     ∧ errorCount (step (Media (inactiveVideoElement m) (Error message)) m)
       = errorCount m + 1).
Proof.
  intros Hquiet. split; intros Haw.
  - destruct (playVideo_load_failed_spec "Preloaded video setup timeout" m)
      as (m' & Hfailed & _ & _ & Hflag & Hcount & _).
    unfold step. simpl handler. unfold dispatch.
    rewrite Hquiet, decide_True, Haw, Hfailed by done. done.
  - destruct (playVideo_load_failed_spec ("Video load error: " +:+ message) m)
      as (m' & Hfailed & _ & _ & Hflag & Hcount & _).
    unfold step. simpl handler. unfold dispatch.
    rewrite Hquiet, decide_True, Haw by done.
    unfold andThen, modify, id. by rewrite Hfailed.
Qed.

Lemma error_during_cached_setup_waits_for_timer_witness :
  awaiting (set_awaiting (Some (AwaitCanPlay false 5000)) playing_a)
  = Some (AwaitCanPlay false 5000)
  ∧ step (Media (inactiveVideoElement
                   (set_awaiting (Some (AwaitCanPlay false 5000)) playing_a))
                (Error "decode"))
         (set_awaiting (Some (AwaitCanPlay false 5000)) playing_a)
    = set_awaiting (Some (AwaitCanPlay false 5000)) playing_a.
Proof.
  split; [reflexivity|].
  refine (proj1 (proj1 (error_during_cached_setup_waits_for_timer "decode" 5000
                          (set_awaiting (Some (AwaitCanPlay false 5000)) playing_a) _) _));
    reflexivity.
Defined.

(** ** The listeners of the inactive element *)

#[global] Instance same_listeners_preorder : PreOrder same_listeners.
Proof.
  split.
  - intros m. by split_and!.
  - intros m1 m2 m3 (?&?&?&?) (?&?&?&?). split_and!; congruence.
Qed.

#[global] Instance keeps_quiet_preorder : PreOrder keeps_quiet.
Proof. split; unfold keeps_quiet; [by intros m|intros m1 m2 m3; auto]. Qed.

#[global] Hint Resolve same_listeners_preorder keeps_quiet_preorder : frame.

Ltac frame_field ::=
  intros;
  first [ progress unfold passive | progress unfold calm | progress unfold same_cache
        | progress unfold ranged, in_range | progress unfold same_listeners ];
  simpl; repeat split; intros; simpl in *; auto; try lia.

Lemma same_listeners_quiet m m' : same_listeners m m' → keeps_quiet m m'.
Proof.
  intros (Hactive & Hinactive & HA & HB) [Hne Hquiet]. unfold quiet.
  rewrite Hactive, Hinactive. split; [done|].
  destruct (inactiveVideoElement m); simpl in *; congruence.
Qed.

Lemma preserves_same_listeners_quiet a :
  preserves same_listeners a → preserves keeps_quiet a.
Proof. intros Ha m. apply same_listeners_quiet, Ha. Qed.

Lemma log_same_listeners e m : same_listeners m (log e m).
Proof. frame_field. Qed.

(** Setting anything but the listeners of an element. *)
Lemma update_element_same_listeners el f m :
  (∀ v, listening (f v) = listening v) → same_listeners m (update_element el f m).
Proof. intros Hf. unfold same_listeners. destruct el; simpl; by split_and!. Qed.

Lemma set_src_same_listeners el u m : same_listeners m (update_element el (set_src u) m).
Proof. by apply update_element_same_listeners. Qed.

Lemma set_opacity_same_listeners el o m :
  same_listeners m (update_element el (set_opacity o) m).
Proof. by apply update_element_same_listeners. Qed.

Lemma set_paused_same_listeners el p m :
  same_listeners m (update_element el (set_paused p) m).
Proof. by apply update_element_same_listeners. Qed.

#[global] Hint Resolve log_same_listeners set_src_same_listeners
  set_opacity_same_listeners set_paused_same_listeners : frame.

Lemma on_same_listeners event cb : preserves same_listeners (on event cb).
Proof. unfold on. frame. Qed.

Lemma off_same_listeners event cb : preserves same_listeners (off event cb).
Proof.
  unfold off. apply (preserves_modify same_listeners). intros m.
  destruct (eventListeners m !! event); [frame_field|reflexivity].
Qed.

Lemma re_enter_same_listeners c : preserves same_listeners (re_enter c).
Proof.
  destruct c as [event cb|event id]; simpl; [apply on_same_listeners|].
  unfold off_id. apply (preserves_modify same_listeners). intros m.
  destruct (eventListeners m !! event); [frame_field|reflexivity].
Qed.

#[global] Hint Resolve on_same_listeners off_same_listeners re_enter_same_listeners : frame.

Lemma emit_same_listeners event data : preserves same_listeners (emit event data).
Proof.
  intros m. unfold emit.
  destruct (eventListeners m !! event) as [listeners|]; [|reflexivity].
  apply (preserves_forEach_live same_listeners). intros callback. unfold call.
  apply (preserves_try_catch same_listeners); [|intros error; frame].
  apply (preserves_andThen same_listeners); [frame|].
  apply (preserves_andThen same_listeners); [frame|].
  destruct (cb_throws _ _); frame.
Qed.

#[global] Hint Resolve emit_same_listeners : frame.

Lemma updatePreloadQueue_same_listeners : preserves same_listeners updatePreloadQueue.
Proof.
  unfold updatePreloadQueue, cleanupPreloadQueue.
  apply (preserves_andThen same_listeners); [frame|].
  intros m. apply (preserves_forEach same_listeners). intros i m'.
  destruct (_ && _); [|reflexivity].
  apply (preserves_detached same_listeners); [frame_field|unfold preloadVideo; frame].
Qed.

Lemma playVideo_same_listeners index : preserves same_listeners (playVideo index).
Proof.
  intros m. unfold playVideo. destruct (playVideo_guard m); [reflexivity|].
  apply (preserves_andThen same_listeners); [frame|].
  apply (preserves_andThen same_listeners); [frame|].
  intros m'. destruct (preloadedVideos m' !! _) as [h|]; [destruct (2 <=? _)|];
    unfold usePreloadedVideo, loadNewVideo; frame.
Qed.

Lemma playVideo_at_same_listeners index : preserves same_listeners (playVideo_at index).
Proof. destruct index; simpl; [apply playVideo_same_listeners|frame]. Qed.

Lemma playNext_same_listeners : preserves same_listeners playNext.
Proof. intros m. apply playVideo_at_same_listeners. Qed.

Lemma playPrevious_same_listeners : preserves same_listeners playPrevious.
Proof. intros m. apply playVideo_at_same_listeners. Qed.

Lemma playRandom_same_listeners r : preserves same_listeners (playRandom r).
Proof. intros m. apply playVideo_same_listeners. Qed.

#[global] Hint Resolve updatePreloadQueue_same_listeners playVideo_same_listeners
  playNext_same_listeners playPrevious_same_listeners playRandom_same_listeners : frame.

Lemma retryCurrentVideo_same_listeners : preserves same_listeners retryCurrentVideo.
Proof.
  unfold retryCurrentVideo. apply (preserves_try_catch same_listeners); [|intros e; frame].
  intros m. apply playVideo_same_listeners.
Qed.

Lemma handleVideoError_same_listeners video error :
  preserves same_listeners (handleVideoError video error).
Proof.
  unfold handleVideoError.
  apply (preserves_andThen same_listeners); [frame|].
  apply (preserves_andThen same_listeners); [frame|].
  apply (preserves_andThen same_listeners); [frame|].
  intros m. destruct (errorCount m >? maxErrors m).
  - apply (preserves_andThen same_listeners); frame.
  - apply (preserves_modify same_listeners). frame_field.
Qed.

#[global] Hint Resolve retryCurrentVideo_same_listeners handleVideoError_same_listeners
  : frame.

Lemma retry_timer_callback_same_listeners : preserves same_listeners retry_timer_callback.
Proof.
  intros m. unfold retry_timer_callback.
  destruct (negb (isTransitioning m)); [|reflexivity].
  apply (preserves_detached same_listeners); frame.
Qed.

Lemma playVideo_catch_same_listeners error :
  preserves same_listeners (playVideo_catch error).
Proof.
  unfold playVideo_catch. apply (preserves_andThen same_listeners); [frame|].
  intros m. apply (preserves_detached same_listeners); frame.
Qed.

Lemma videoEventHandler_same_listeners e target :
  preserves same_listeners (videoEventHandler e target).
Proof. destruct e; simpl; frame. Qed.

#[global] Hint Resolve retry_timer_callback_same_listeners playVideo_catch_same_listeners
  videoEventHandler_same_listeners : frame.

Lemma playVideo_load_failed_same_listeners error :
  preserves same_listeners (playVideo_load_failed error).
Proof. unfold playVideo_load_failed, playVideo_finally. frame. Qed.

Lemma playVideo_loaded_same_listeners : preserves same_listeners playVideo_loaded.
Proof. unfold playVideo_loaded, crossfade. frame. Qed.

Lemma playVideo_rest_same_listeners : preserves same_listeners playVideo_rest.
Proof. unfold playVideo_rest. frame. Qed.

#[global] Hint Resolve playVideo_load_failed_same_listeners playVideo_loaded_same_listeners
  playVideo_rest_same_listeners : frame.

(** The swap at the end of a crossfade moves the listeners to the new
    active element. *)
Lemma crossfade_timer_callback_listeners m :
  activeVideoElement m ≠ inactiveVideoElement m →
  activeVideoElement (state_of (crossfade_timer_callback m)) = inactiveVideoElement m
  ∧ inactiveVideoElement (state_of (crossfade_timer_callback m)) = activeVideoElement m
  ∧ listening (element_state (inactiveVideoElement m) (state_of (crossfade_timer_callback m)))
    = true
  ∧ listening (element_state (activeVideoElement m) (state_of (crossfade_timer_callback m)))
    = false.
Proof.
  unfold crossfade_timer_callback, setupActiveVideoListeners, andThen, modify. simpl.
  destruct (activeVideoElement m), (inactiveVideoElement m); simpl; done.
Qed.

Lemma crossfade_timer_callback_quiet : preserves keeps_quiet crossfade_timer_callback.
Proof.
  intros m [Hne _].
  destruct (crossfade_timer_callback_listeners m Hne) as (Hactive & Hinactive & _ & Hoff).
  unfold quiet. rewrite Hactive, Hinactive. split; [congruence|done].
Qed.

Lemma destroy_quiet : preserves keeps_quiet destroy.
Proof.
  intros m [Hne _]. unfold quiet, destroy, andThen, modify. simpl.
  autorewrite with fields. simpl.
  destruct (activeVideoElement m), (inactiveVideoElement m); simpl; done.
Qed.

Lemma playVideo_crossfaded_quiet : preserves keeps_quiet playVideo_crossfaded.
Proof.
  unfold playVideo_crossfaded, playVideo_finally.
  apply (preserves_andThen keeps_quiet);
    [apply preserves_same_listeners_quiet; frame|].
  apply (preserves_andThen keeps_quiet); [apply crossfade_timer_callback_quiet|].
  apply preserves_same_listeners_quiet. frame.
Qed.

Lemma handler_quiet e : preserves keeps_quiet (handler e).
Proof.
  destruct e; simpl;
    first [ solve [apply preserves_same_listeners_quiet; frame] | idtac ].
  - apply destroy_quiet.
  - apply preserves_same_listeners_quiet. intros m. unfold dispatch.
    apply (preserves_andThen same_listeners); [destruct (listening _); frame|].
    destruct (decide _); [|frame].
    destruct (awaiting m) as [[[] ?|?]|], e; frame.
  - apply preserves_same_listeners_quiet. intros m.
    destruct (awaiting m) as [[[] ?|?]|]; first [ apply playVideo_load_failed_same_listeners
                                                | reflexivity ].
  - intros m. destruct (awaiting m) as [[?|?]|];
      first [ apply playVideo_crossfaded_quiet | reflexivity ].
  - apply preserves_same_listeners_quiet. intros m. destruct (retryTimers m); [reflexivity|].
    apply (preserves_andThen same_listeners); frame.
  - apply preserves_same_listeners_quiet. intros m.
    destruct (bool_decide _); [|reflexivity].
    unfold preload_resolved. apply (preserves_andThen same_listeners); frame.
  - apply preserves_same_listeners_quiet. intros m.
    destruct (bool_decide _); [|reflexivity].
    unfold preload_rejected. apply (preserves_andThen same_listeners); frame.
Qed.

Lemma run_quiet es m : quiet m → quiet (run es m).
Proof.
  revert m. induction es as [|e es IH]; intros m Hm; [done|].
  rewrite run_cons. apply IH. by apply (handler_quiet e m).
Qed.

Lemma initialize_quiet URL_parses draw urls cfg :
  quiet (state_of (initialize URL_parses draw urls (constructor cfg))).
Proof.
  unfold initialize, setVideoUrls, setupVideoElements, andThen, modify, quiet. simpl.
  repeat (destruct (_ =? _); simpl; try done).
Qed.

(** A media event of the inactive element, with no load pending, does
    nothing. *)
Lemma dispatch_quiet e m :
  quiet m → awaits_load m = false →
  dispatch (inactiveVideoElement m) e m = Returned m.
Proof.
  intros [_ Hoff] Hidle. unfold dispatch. rewrite Hoff, decide_True by done.
  unfold awaits_load in Hidle. unfold andThen, modify.
  destruct (awaiting m) as [[? ?|?]|]; [done|..]; by destruct e.
Qed.

(** X10: After [initialize], whatever events follow, the two slots name
    different elements and the inactive one never carries the
    manager's media listeners: while no load is pending, a media event
    of the inactive element changes nothing (no counted error, nothing
    emitted). *)
Theorem inactive_element_never_listens
    (URL_parses : string → bool) (draw : nat → nat) (urls : list string) (cfg : Config)
    (es : list event) (e : media_event) :
  awaits_load (run es (state_of (initialize URL_parses draw urls (constructor cfg)))) = false →
  activeVideoElement (run es (state_of (initialize URL_parses draw urls (constructor cfg))))
  ≠ inactiveVideoElement (run es (state_of (initialize URL_parses draw urls (constructor cfg))))
  ∧ listening
      (element_state
         (inactiveVideoElement
            (run es (state_of (initialize URL_parses draw urls (constructor cfg)))))
         (run es (state_of (initialize URL_parses draw urls (constructor cfg))))) = false
  ∧ step (Media (inactiveVideoElement
                   (run es (state_of (initialize URL_parses draw urls (constructor cfg)))))
                e)
         (run es (state_of (initialize URL_parses draw urls (constructor cfg))))
    = run es (state_of (initialize URL_parses draw urls (constructor cfg))).
Proof.
  intros Hidle.
  pose proof (run_quiet es _ (initialize_quiet URL_parses draw urls cfg)) as Hquiet.
  destruct Hquiet as [Hne Hoff]. split_and!; [done|done|].
  unfold step. simpl handler. by rewrite dispatch_quiet.
Qed.

Lemma inactive_element_never_listens_witness :
  listening
    (element_state
       (inactiveVideoElement
          (run [CallPlayVideo 0; Media VideoB CanPlay; CrossfadeTimerFires]
             (state_of (initialize (accepts [url_a; url_b; url_c]) draw_last
                          [url_a; url_b; url_c] (constructor (default_config false))))))
       (run [CallPlayVideo 0; Media VideoB CanPlay; CrossfadeTimerFires]
          (state_of (initialize (accepts [url_a; url_b; url_c]) draw_last
                       [url_a; url_b; url_c] (constructor (default_config false))))))
  = false.
Proof.
  refine (proj1 (proj2 (inactive_element_never_listens
                          (accepts [url_a; url_b; url_c]) draw_last
                          [url_a; url_b; url_c] (default_config false)
                          [CallPlayVideo 0; Media VideoB CanPlay; CrossfadeTimerFires]
                          (Error "decode") _))).
  by vm_compute.
Defined.

(** ** [destroy] *)

Lemma destroy_returns : returns destroy.
Proof. unfold destroy. repeat apply returns_andThen; apply returns_modify. Qed.

Lemma destroy_fields m :
  preloadedVideos (state_of (destroy m)) = ∅
  ∧ loadingPromises (state_of (destroy m)) = ∅
  ∧ eventListeners (state_of (destroy m)) = ∅
  ∧ preloads (state_of (destroy m)) = preloads m
  ∧ listening (element_state (activeVideoElement m) (state_of (destroy m))) = false
  ∧ listening (element_state (inactiveVideoElement m) (state_of (destroy m))) = false.
Proof.
  unfold destroy, andThen, modify. simpl. autorewrite with fields. simpl.
  destruct (activeVideoElement m), (inactiveVideoElement m); simpl; done.
Qed.

(** [destroy] finds nothing to do on a manager with nothing cached, no
    load recorded, no subscription and no media listener. *)
Lemma destroy_cleared m :
  preloadedVideos m = ∅ → loadingPromises m = ∅ → eventListeners m = ∅ →
  listening (element_state (activeVideoElement m) m) = false →
  listening (element_state (inactiveVideoElement m) m) = false →
  destroy m = Returned m.
Proof.
  destruct m as [? ? ? [] [] active inactive ? ? ? ? ? ? ? ? ? ?]. simpl.
  intros -> -> -> Hactive Hinactive.
  unfold destroy, andThen, modify, set_effects. simpl.
  rewrite map_to_list_empty. simpl. rewrite app_nil_r.
  destruct active, inactive; simpl in *; subst; reflexivity.
Qed.

(** X11: [destroy], which never throws, empties the cache, the loads in
    flight as the manager records them and the subscriptions, and takes
    the media listeners off both slots: after it [emit] calls nobody.
    A second [destroy] changes nothing. *)
Theorem destroy_clears_and_is_idempotent (m : VideoManager) (event : string) (data : payload) :
  destroy m = Returned (state_of (destroy m))
  ∧ preloadedVideos (state_of (destroy m)) = ∅
  ∧ loadingPromises (state_of (destroy m)) = ∅
  ∧ eventListeners (state_of (destroy m)) = ∅
  ∧ listening (element_state (activeVideoElement m) (state_of (destroy m))) = false
  ∧ listening (element_state (inactiveVideoElement m) (state_of (destroy m))) = false
  ∧ emit event data (state_of (destroy m)) = Returned (state_of (destroy m))
  ∧ destroy (state_of (destroy m)) = Returned (state_of (destroy m)).
Proof.
  destruct (destroy_fields m) as (Hcache & Hloading & Hsubs & _ & Hactive & Hinactive).
  split_and!; try done.
  - unfold emit. by rewrite Hsubs, lookup_empty.
  - destruct (destroy_passive m) as (Hsame & Hsame' & _).
    apply destroy_cleared; try done; by rewrite ?Hsame, ?Hsame'.
Qed.

(** X12: [destroy] cancels nothing: the pending promise of [playVideo], the
    retry timers and the preloads in flight stay.  So a retry scheduled
    before [destroy] still begins a transition after it, and a preload
    that completes after it puts its element back into the cache. *)
Theorem destroy_cancels_nothing (u : key) (ready : Z) (m : VideoManager) :
  playVideo_guard m = false →
  retryTimers m ≠ [] →
  u ∈ preloads m →
  awaiting (state_of (destroy m)) = awaiting m
  ∧ retryTimers (state_of (destroy m)) = retryTimers m
  ∧ preloads (state_of (destroy m)) = preloads m
  ∧ isTransitioning (run [CallDestroy; RetryTimerFires] m) = true
  ∧ is_Some (awaiting (run [CallDestroy; RetryTimerFires] m))
  ∧ preloadedVideos (run [CallDestroy; PreloadCanPlayThrough u ready] m) !! u
    = Some {| h_src := u; readyState := ready |}.
Proof.
  intros Hguard Htimers Hu.
  destruct (destroy_passive m) as (_ & _ & Hcur & Hflag & Haw & _ & _ & Hurls & Hretry & _).
  destruct (destroy_fields m) as (_ & _ & _ & Hpre & _).
  change (run [CallDestroy; RetryTimerFires] m)
    with (step RetryTimerFires (state_of (destroy m))).
  change (run [CallDestroy; PreloadCanPlayThrough u ready] m)
    with (step (PreloadCanPlayThrough u ready) (state_of (destroy m))).
  set (m' := state_of (destroy m)) in *.
  split_and!; [done|done|done| | |].
  - unfold step. simpl handler. rewrite Hretry.
    destruct (retryTimers m) as [|d rest]; [done|].
    unfold andThen, modify.
    assert (playVideo_guard (set_retryTimers rest m') = false) as Hguard'.
    { unfold playVideo_guard in *. simpl. by rewrite Hflag, Hurls. }
    rewrite (retry_timer_callback_idle _ Hguard').
    by destruct (playVideo_admitted (currentIndex (set_retryTimers rest m')) _ Hguard')
      as (m2 & -> & ? & _).
  - unfold step. simpl handler. rewrite Hretry.
    destruct (retryTimers m) as [|d rest]; [done|].
    unfold andThen, modify.
    assert (playVideo_guard (set_retryTimers rest m') = false) as Hguard'.
    { unfold playVideo_guard in *. simpl. by rewrite Hflag, Hurls. }
    rewrite (retry_timer_callback_idle _ Hguard').
    destruct (playVideo_admitted (currentIndex (set_retryTimers rest m')) _ Hguard')
      as (m2 & -> & _ & _ & (onError & timeout & Haw2) & _). simpl. rewrite Haw2. by eexists.
  - rewrite step_preload_resolved by (by rewrite Hpre).
    unfold preload_resolved, andThen, modify. simpl. apply lookup_insert_eq.
Qed.

Lemma destroy_cancels_nothing_witness :
  isTransitioning
    (run [CallDestroy; RetryTimerFires]
       (run [CallUpdatePreloadQueue; CallPlayVideo 1; LoadTimerFires] playing_a)) = true.
Proof.
  refine (proj1 (proj2 (proj2 (proj2
            (destroy_cancels_nothing (Some url_b) 4
               (run [CallUpdatePreloadQueue; CallPlayVideo 1; LoadTimerFires] playing_a)
               _ _ _))))).
  - by vm_compute.
  - by vm_compute.
  - apply (bool_decide_unpack _). by vm_compute.
Defined.

(** ** Subscribing and unsubscribing *)

Lemma on_subscribers event cb m :
  subscribers event (state_of (on event cb m)) = subscribers event m ++ [cb].
Proof. unfold subscribers, on, modify. simpl. by rewrite lookup_insert_eq. Qed.

Lemma off_subscribers event cb m :
  subscribers event (state_of (off event cb m))
  = remove_first (cb_id cb) (subscribers event m).
Proof.
  unfold subscribers, off, modify. simpl.
  destruct (eventListeners m !! event) as [listeners|] eqn:Hlisteners; simpl.
  - by rewrite lookup_insert_eq.
  - by rewrite Hlisteners.
Qed.

Lemma on_subscribers_ne event other cb m :
  other ≠ event → subscribers other (state_of (on event cb m)) = subscribers other m.
Proof. intros Hne. unfold subscribers, on, modify. simpl. by rewrite lookup_insert_ne. Qed.

Lemma off_subscribers_ne event other cb m :
  other ≠ event → subscribers other (state_of (off event cb m)) = subscribers other m.
Proof.
  intros Hne. unfold subscribers, off, modify. simpl.
  destruct (eventListeners m !! event); simpl; [by rewrite lookup_insert_ne|done].
Qed.

Lemma remove_first_middle id l cb rest :
  id ∉ cb_id <$> l → cb_id cb = id → remove_first id (l ++ cb :: rest) = l ++ rest.
Proof.
  intros Hl Hcb. induction l as [|x l IH]; simpl.
  - by rewrite decide_True.
  - rewrite fmap_cons, not_elem_of_cons in Hl. destruct Hl as [Hx Hl].
    rewrite decide_False by done. by rewrite IH.
Qed.

Lemma remove_first_absent id l : id ∉ cb_id <$> l → remove_first id l = l.
Proof.
  intros Hl. induction l as [|x l IH]; simpl; [done|].
  rewrite fmap_cons, not_elem_of_cons in Hl. destruct Hl as [Hx Hl].
  rewrite decide_False by done. by rewrite IH.
Qed.

(** X13: For a callback not yet subscribed to [event]: [on] appends it to
    the subscribers; [on] then [off] restores them; [off] alone changes
    nothing; subscribed twice and unsubscribed once, it stays
    subscribed once.  The subscribers of another event are untouched
    by both. *)
Theorem on_off_round_trip (event other : string) (cb : callback) (m : VideoManager) :
  ¬ subscribed cb (subscribers event m) →
  other ≠ event →
  subscribers event (state_of (on event cb m)) = subscribers event m ++ [cb]
  ∧ subscribers event (run [CallOn event cb; CallOff event cb] m) = subscribers event m
  ∧ subscribers event (state_of (off event cb m)) = subscribers event m
  ∧ subscribers event (run [CallOn event cb; CallOn event cb; CallOff event cb] m)
    = subscribers event m ++ [cb]
  ∧ subscribers other (state_of (on event cb m)) = subscribers other m
  ∧ subscribers other (state_of (off event cb m)) = subscribers other m.
Proof.
  unfold subscribed. intros Hnew Hne.
  change (run [CallOn event cb; CallOff event cb] m)
    with (state_of (off event cb (state_of (on event cb m)))).
  change (run [CallOn event cb; CallOn event cb; CallOff event cb] m)
    with (state_of (off event cb (state_of (on event cb (state_of (on event cb m)))))).
  rewrite !off_subscribers, !on_subscribers. split_and!.
  - done.
  - rewrite (remove_first_middle _ _ cb []) by done. by rewrite app_nil_r.
  - by apply remove_first_absent.
  - rewrite <- app_assoc. by rewrite (remove_first_middle _ _ cb [cb]).
  - by apply on_subscribers_ne.
  - by apply off_subscribers_ne.
Qed.

Lemma on_off_round_trip_witness :
  subscribers "videoEnded"
    (run [CallOn "videoEnded" {| cb_id := 1; cb_throws := λ _, false; cb_calls := λ _, [] |};
          CallOff "videoEnded" {| cb_id := 1; cb_throws := λ _, false; cb_calls := λ _, [] |}]
       playing_a)
  = subscribers "videoEnded" playing_a.
Proof.
  refine (proj1 (proj2 (on_off_round_trip "videoEnded" "playing"
                          {| cb_id := 1; cb_throws := λ _, false; cb_calls := λ _, [] |} playing_a _ _))).
  - unfold subscribed. apply (bool_decide_unpack _). by vm_compute.
  - apply (bool_decide_unpack _). by vm_compute.
Defined.

(** ** The error count over a session *)

(** X14: No event lowers the error count or moves the ceiling, a successful
    playback included.  So once the count has reached the ceiling, every
    later failure, after whatever events, schedules no retry: it is
    answered by [playNext], which on an idle manager begins a transition
    to the entry after the cursor. *)
Theorem error_ceiling_is_permanent
    (es : list event) (video : element) (error : string) (m : VideoManager) :
  maxErrors m ≤ errorCount m →
  maxErrors (run es m) ≤ errorCount (run es m)
  ∧ retryTimers (state_of (handleVideoError video error (run es m)))
    = retryTimers (run es m)
  ∧ (playVideo_guard (run es m) = false →
     isTransitioning (state_of (handleVideoError video error (run es m))) = true
     ∧ currentIndex (state_of (handleVideoError video error (run es m)))
       = Z.rem (currentIndex (run es m) + 1) (length_ (videoUrls m))).
Proof.
  intros Hceiling.
  pose proof (run_errorCount es m) as Hcount.
  pose proof (run_maxErrors es m) as Hmax.
  pose proof (run_videoUrls es m) as Hurls.
  set (m' := run es m) in *.
  split; [lia|].
  rewrite (handleVideoError_branches video error m').
  replace (errorCount m' + 1 >? maxErrors m') with true
    by (symmetry; apply Z.gtb_lt; lia).
  destruct (counted_fields video error m')
    as (_ & _ & _ & Hcur & Hflag & _ & _ & _ & Hurls' & Hretry & _).
  simpl in Hcur, Hflag, Hurls', Hretry.
  split.
  - by rewrite playNext_retryTimers.
  - intros Hguard.
    assert (playVideo_guard (log (Announce SkippingToNext) (counted video error m')) = false)
      as Hguard'.
    { unfold playVideo_guard in *. simpl. by rewrite Hflag, Hurls'. }
    destruct (playNext_admitted _ Hguard') as (Hup & Hnext & _).
    simpl in Hnext. rewrite Hup, Hnext, Hcur, Hurls', Hurls. done.
Qed.

Lemma error_ceiling_is_permanent_witness :
  maxErrors (run [CallPlayVideo 1; Media VideoA CanPlay; CrossfadeTimerFires] ten_errors)
  ≤ errorCount (run [CallPlayVideo 1; Media VideoA CanPlay; CrossfadeTimerFires] ten_errors).
Proof.
  refine (proj1 (error_ceiling_is_permanent
                   [CallPlayVideo 1; Media VideoA CanPlay; CrossfadeTimerFires]
                   VideoA "decode" ten_errors _)).
  by vm_compute.
Defined.

(** ** What a completed transition shows *)

#[global] Instance same_elements_preorder : PreOrder same_elements.
Proof.
  split.
  - intros m. by split_and!.
  - intros m1 m2 m3 (?&?&?&?) (?&?&?&?). split_and!; congruence.
Qed.

#[global] Hint Resolve same_elements_preorder : frame.

Ltac frame_field ::=
  intros;
  first [ progress unfold passive | progress unfold calm | progress unfold same_cache
        | progress unfold ranged, in_range | progress unfold same_listeners
        | progress unfold same_elements ];
  simpl; repeat split; intros; simpl in *; auto; try lia.

Lemma log_same_elements e m : same_elements m (log e m).
Proof. frame_field. Qed.

#[global] Hint Resolve log_same_elements : frame.

Lemma updatePreloadQueue_same_elements : preserves same_elements updatePreloadQueue.
Proof.
  unfold updatePreloadQueue, cleanupPreloadQueue.
  apply (preserves_andThen same_elements); [frame|].
  intros m. apply (preserves_forEach same_elements). intros i m'.
  destruct (_ && _); [|reflexivity].
  apply (preserves_detached same_elements); [frame_field|unfold preloadVideo; frame].
Qed.

(** The rest of the [try] block leaves the elements alone and ends
    with the announcement. *)
Lemma playVideo_rest_elements m :
  same_elements m (state_of (playVideo_rest m))
  ∧ List.last (effects (state_of (playVideo_rest m))) (Announce Initialized)
    = Announce (PlayingVideo (currentIndex m + 1) (length_ (videoUrls m))).
Proof.
  unfold playVideo_rest, andThen, modify.
  pose proof (updatePreloadQueue_same_elements m) as Hsame.
  destruct (updatePreloadQueue_passive m) as (_ & _ & Hcur & _ & _ & _ & _ & Hurls & _).
  rewrite (updatePreloadQueue_returns m) in *. simpl in *.
  split; [etransitivity; [exact Hsame|frame_field]|].
  unfold log. simpl. rewrite Hcur, Hurls. apply List.last_last.
Qed.

(** An admitted [playVideo] sets the source of the inactive element and
    nothing else of the two elements. *)
Lemma playVideo_admitted_elements index m :
  playVideo_guard m = false →
  activeVideoElement m ≠ inactiveVideoElement m →
  cache_sound m →
  element_state (inactiveVideoElement m) (state_of (playVideo index m))
  = set_src (js_index (videoUrls m) (Z.rem index (length_ (videoUrls m))))
            (element_state (inactiveVideoElement m) m)
  ∧ element_state (activeVideoElement m) (state_of (playVideo index m))
    = element_state (activeVideoElement m) m.
Proof.
  intros Hguard Hne Hsound. unfold playVideo. rewrite Hguard.
  unfold andThen, modify. simpl.
  destruct (preloadedVideos m
              !! js_index (videoUrls m) (Z.rem index (length_ (videoUrls m))))
    as [h|] eqn:Hcache.
  - rewrite <- (Hsound _ _ Hcache) at 2. destruct (2 <=? readyState h).
    + unfold usePreloadedVideo, andThen, modify. simpl.
      destruct (activeVideoElement m), (inactiveVideoElement m); simpl; done.
    + unfold loadNewVideo, andThen, modify. simpl.
      rewrite (Hsound _ _ Hcache).
      destruct (activeVideoElement m), (inactiveVideoElement m); simpl; done.
  - unfold loadNewVideo, andThen, modify. simpl.
    destruct (activeVideoElement m), (inactiveVideoElement m); simpl; done.
Qed.

(** [crossfade] starts the inactive element and turns the opacities. *)
Lemma playVideo_loaded_elements m :
  activeVideoElement m ≠ inactiveVideoElement m →
  element_state (inactiveVideoElement m) (state_of (playVideo_loaded m))
  = set_opacity (Some 1) (set_paused false (element_state (inactiveVideoElement m) m))
  ∧ element_state (activeVideoElement m) (state_of (playVideo_loaded m))
    = set_opacity (Some 0) (element_state (activeVideoElement m) m).
Proof.
  intros Hne. unfold playVideo_loaded, crossfade, andThen, modify. simpl.
  autorewrite with fields. simpl.
  destruct (activeVideoElement m), (inactiveVideoElement m); simpl; done.
Qed.

Lemma element_state_set_isTransitioning el flag m :
  element_state el (set_isTransitioning flag m) = element_state el m.
Proof. by destruct el. Qed.

Lemma same_elements_element_state el m m' :
  same_elements m m' → element_state el m' = element_state el m.
Proof. intros (_ & _ & HA & HB). by destruct el. Qed.

(** The end of the crossfade pauses the element that was active and
    moves the media listeners to the one that was inactive. *)
Lemma playVideo_crossfaded_elements m :
  activeVideoElement m ≠ inactiveVideoElement m →
  element_state (inactiveVideoElement m) (state_of (playVideo_crossfaded m))
  = set_listening true (element_state (inactiveVideoElement m) m)
  ∧ element_state (activeVideoElement m) (state_of (playVideo_crossfaded m))
    = set_listening false (set_paused true (element_state (activeVideoElement m) m))
  ∧ List.last (effects (state_of (playVideo_crossfaded m))) (Announce Initialized)
    = Announce (PlayingVideo (currentIndex m + 1) (length_ (videoUrls m))).
Proof.
  intros Hne.
  unfold playVideo_crossfaded, andThen, modify, try_finally, try_catch, playVideo_finally.
  cbn beta iota.
  destruct (crossfade_timer_callback_spec (set_awaiting None m))
    as (m1 & Hm1 & Hactive & Hinactive & Hcur & _ & _ & _ & _ & Hurls & _).
  assert (element_state (inactiveVideoElement m) m1
          = set_listening true (element_state (inactiveVideoElement m) m)
          ∧ element_state (activeVideoElement m) m1
            = set_listening false (set_paused true (element_state (activeVideoElement m) m)))
    as [Hshown Hhidden].
  { assert (m1 = state_of (crossfade_timer_callback (set_awaiting None m))) as ->
      by by rewrite Hm1.
    unfold crossfade_timer_callback, setupActiveVideoListeners, andThen, modify. simpl.
    destruct (activeVideoElement m), (inactiveVideoElement m); simpl; done. }
  rewrite Hm1. cbn beta iota. rewrite (playVideo_rest_returns m1).
  unfold modify. cbn [state_of].
  destruct (playVideo_rest_elements m1) as (Hsame & Hlast).
  rewrite !element_state_set_isTransitioning, !(same_elements_element_state _ _ _ Hsame).
  change (effects (set_isTransitioning false (state_of (playVideo_rest m1))))
    with (effects (state_of (playVideo_rest m1))).
  rewrite Hlast, Hshown, Hhidden. simpl in Hcur, Hurls. by rewrite Hcur, Hurls.
Qed.

(** X15: An admitted [playVideo] whose load and crossfade complete: the
    element that was inactive is the active one, shows the playlist
    entry under the cursor, visible, playing and with the media
    listeners on; the element that was active is hidden and paused,
    without listeners; the flag is down, and the position is announced
    last. *)
Theorem playVideo_success_shows_target (target : Z) (m : VideoManager) :
  playVideo_guard m = false →
  quiet m →
  cache_sound m →
  activeVideoElement
    (run [CallPlayVideo target; Media (inactiveVideoElement m) CanPlay; CrossfadeTimerFires] m)
  = inactiveVideoElement m
  ∧ element_state (inactiveVideoElement m)
      (run [CallPlayVideo target; Media (inactiveVideoElement m) CanPlay;
            CrossfadeTimerFires] m)
    = {| src := js_index (videoUrls m) (Z.rem target (length_ (videoUrls m)));
         opacity := Some 1; paused := false; listening := true;
         configured := configured (element_state (inactiveVideoElement m) m) |}
  ∧ element_state (activeVideoElement m)
      (run [CallPlayVideo target; Media (inactiveVideoElement m) CanPlay;
            CrossfadeTimerFires] m)
    = {| src := src (element_state (activeVideoElement m) m);
         opacity := Some 0; paused := true; listening := false;
         configured := configured (element_state (activeVideoElement m) m) |}
  ∧ isTransitioning
      (run [CallPlayVideo target; Media (inactiveVideoElement m) CanPlay;
            CrossfadeTimerFires] m) = false
  ∧ List.last
      (effects (run [CallPlayVideo target; Media (inactiveVideoElement m) CanPlay;
                     CrossfadeTimerFires] m)) (Announce Initialized)
    = Announce (PlayingVideo (Z.rem target (length_ (videoUrls m)) + 1)
                             (length_ (videoUrls m))).
Proof.
  intros Hguard [Hne Hquiet] Hsound.
  change (run [CallPlayVideo target; Media (inactiveVideoElement m) CanPlay;
               CrossfadeTimerFires] m)
    with (step CrossfadeTimerFires
            (step (Media (inactiveVideoElement m) CanPlay)
               (step (CallPlayVideo target) m))).
  destruct (playVideo_admitted_elements target m Hguard Hne Hsound) as [Hsrc1 Hkept1].
  destruct (playVideo_admitted target m Hguard)
    as (m1 & Hplay & Hflag1 & Hcur1 & (onError & timeout & Haw1) & Hactive1 & Hinactive1
        & _ & _ & Hurls1 & _).
  assert (step (CallPlayVideo target) m = m1) as -> by (unfold step; simpl; by rewrite Hplay).
  rewrite Hplay in Hsrc1, Hkept1. simpl in Hsrc1, Hkept1.
  assert (step (Media (inactiveVideoElement m) CanPlay) m1 = state_of (playVideo_loaded m1))
    as ->.
  { assert (listening (element_state (inactiveVideoElement m1) m1) = false) as Hquiet1.
    { rewrite Hinactive1, Hsrc1. exact Hquiet. }
    unfold step. simpl handler. rewrite <- Hinactive1. unfold dispatch.
    rewrite decide_True by done. rewrite Hquiet1, Haw1. by destruct onError. }
  assert (activeVideoElement m1 ≠ inactiveVideoElement m1) as Hne1 by congruence.
  destruct (playVideo_loaded_elements m1 Hne1) as [Hshown2 Hhidden2].
  destruct (playVideo_loaded_spec m1)
    as (m2 & Hloaded & Haw2 & Hactive2 & Hinactive2 & Hcur2 & _ & _ & _ & Hurls2 & _).
  rewrite Hloaded in *. simpl in Hshown2, Hhidden2. simpl state_of.
  assert (step CrossfadeTimerFires m2 = state_of (playVideo_crossfaded m2)) as ->.
  { unfold step. simpl handler. by rewrite Haw2. }
  assert (activeVideoElement m2 ≠ inactiveVideoElement m2) as Hne2 by congruence.
  destruct (playVideo_crossfaded_elements m2 Hne2) as (Hshown3 & Hhidden3 & Hlast).
  destruct (playVideo_crossfaded_spec m2)
    as (m3 & Hdone & Hactive3 & _ & _ & Hflag3 & _).
  rewrite Hdone in *. simpl in Hshown3, Hhidden3, Hlast. simpl state_of.
  rewrite Hinactive2, Hinactive1 in Hshown3. rewrite Hinactive1 in Hshown2.
  rewrite Hactive2, Hactive1 in Hhidden3. rewrite Hactive1 in Hhidden2.
  rewrite Hshown3, Hshown2, Hsrc1, Hhidden3, Hhidden2, Hkept1, Hlast, Hcur2, Hcur1, Hurls2,
    Hurls1.
  split_and!; [congruence|done|done|done|done].
Qed.

Lemma playVideo_success_shows_target_witness :
  isTransitioning
    (run [CallPlayVideo 1; Media (inactiveVideoElement playing_a) CanPlay;
          CrossfadeTimerFires] playing_a) = false.
Proof.
  refine (proj1 (proj2 (proj2 (proj2
            (playVideo_success_shows_target 1 playing_a _ _ _))))).
  - by vm_compute.
  - split; by vm_compute.
  - intros url h. vm_compute. done.
Defined.

(** ** A preload that fails *)

Lemma step_preload_rejected u m :
  u ∈ preloads m →
  step (PreloadFails u) m
  = state_of (preload_rejected u (set_preloads (remove_one u (preloads m)) m)).
Proof.
  intros Hu. unfold step. simpl handler. by rewrite bool_decide_eq_true_2.
Qed.

(** X16: A preload that fails leaves the cache as it was and is forgotten:
    its URL is no longer recorded as loading.  So the next
    [updatePreloadQueue] that finds the URL in its window starts the
    preload again. *)
Theorem failed_preload_is_started_again (u : key) (i : nat) (m : VideoManager) :
  u ∈ preloads m →
  preloadedVideos m !! u = None →
  1 ≤ Z.of_nat i ≤ preloadBufferSize (config m) →
  nextUrl m i = u →
  preloadedVideos (step (PreloadFails u) m) = preloadedVideos m
  ∧ (u ∉ loadingPromises (step (PreloadFails u) m))
  ∧ u ∈ loadingPromises (run [PreloadFails u; CallUpdatePreloadQueue] m)
  ∧ ∃ new, preloads (run [PreloadFails u; CallUpdatePreloadQueue] m)
           = remove_one u (preloads m) ++ new
           ∧ u ∈ new.
Proof.
  intros Hu Hcache Hi Hnext.
  change (run [PreloadFails u; CallUpdatePreloadQueue] m)
    with (state_of (updatePreloadQueue (step (PreloadFails u) m))).
  rewrite step_preload_rejected by done.
  set (m1 := state_of (preload_rejected u _)).
  assert (preloadedVideos m1 = preloadedVideos m
          ∧ loadingPromises m1 = loadingPromises m ∖ {[u]}
          ∧ preloads m1 = remove_one u (preloads m)
          ∧ config m1 = config m ∧ videoUrls m1 = videoUrls m
          ∧ currentIndex m1 = currentIndex m)
    as (Hcache1 & Hload1 & Hpre1 & Hconfig1 & Hurls1 & Hcur1) by done.
  assert (u ∉ loadingPromises m1) as Hgone.
  { rewrite Hload1. intros [_ Hin]%elem_of_difference. apply Hin. by apply elem_of_singleton. }
  destruct (updatePreloadQueue_spec m1)
    as (m' & new & -> & Hcache' & _ & _ & _ & Hpre' & Hload' & _ & _ & Hall).
  simpl state_of.
  assert (u ∈ new) as Hnew.
  { destruct (Hall i) as [[h Hh]|Hloading].
    - apply elem_of_seq. rewrite Hconfig1. lia.
    - unfold nextUrl in *. rewrite Hurls1, Hcur1, Hnext, Hcache' in Hh.
      apply map_lookup_filter_Some in Hh as [Hh _]. congruence.
    - unfold nextUrl in *. rewrite Hurls1, Hcur1, Hnext, Hload' in Hloading.
      apply elem_of_union in Hloading as [Hin|Hin]; [by apply elem_of_list_to_set in Hin|done]. }
  split_and!; [done|done| |].
  - rewrite Hload'. apply elem_of_union. left. by apply elem_of_list_to_set.
  - exists new. by rewrite Hpre', Hpre1.
Qed.

Lemma failed_preload_is_started_again_witness :
  Some url_b ∈ loadingPromises
                 (run [PreloadFails (Some url_b); CallUpdatePreloadQueue]
                    (state_of (updatePreloadQueue playing_a))).
Proof.
  refine (proj1 (proj2 (proj2 (failed_preload_is_started_again (Some url_b) 1
                                 (state_of (updatePreloadQueue playing_a)) _ _ _ _)))).
  - apply (bool_decide_unpack _). by vm_compute.
  - by vm_compute.
  - by vm_compute.
  - by vm_compute.
Defined.

(** ** Media events that only inform *)

Lemma re_enter_same_elements c : preserves same_elements (re_enter c).
Proof.
  destruct c as [event cb|event id]; simpl.
  - unfold on. frame.
  - unfold off_id. apply (preserves_modify same_elements). intros m.
    destruct (eventListeners m !! event); [frame_field|reflexivity].
Qed.

#[global] Hint Resolve re_enter_same_elements : frame.

Lemma emit_same_elements event data : preserves same_elements (emit event data).
Proof.
  intros m. unfold emit.
  destruct (eventListeners m !! event) as [listeners|]; [|reflexivity].
  apply (preserves_forEach_live same_elements). intros callback. unfold call.
  apply (preserves_try_catch same_elements); [|intros error; frame].
  apply (preserves_andThen same_elements); [frame|].
  apply (preserves_andThen same_elements); [frame|].
  destruct (cb_throws _ _); frame.
Qed.

#[global] Hint Resolve emit_same_elements : frame.

(** X17: A media event other than [canplay] and [error], on either element,
    listened to or not, leaves playback as it is: the slots and the two
    elements, the cursor, the flag, the pending promise, the error
    count, the retry timers and the playlist.  An [ended] event in
    particular is only passed on to the subscribers; the manager does
    not advance by itself. *)
Theorem media_events_leave_playback_alone
    (target : element) (e : media_event) (m : VideoManager) :
  load_outcome e = false →
  passive m (step (Media target e) m)
  ∧ same_elements m (step (Media target e) m).
Proof.
  intros He. unfold step. simpl handler.
  assert (dispatch target e m
          = (if listening (element_state target m)
             then videoEventHandler e target else modify id) m) as ->.
  { unfold dispatch, andThen.
    destruct ((if listening (element_state target m)
               then videoEventHandler e target else modify id) m) as [m'|error m'];
      [|done].
    destruct (decide _); [|done].
    destruct (awaiting m) as [[[] ?|?]|], e; done. }
  destruct (listening (element_state target m)); [|by split].
  destruct e; try done; simpl; split.
  all: match goal with
       | |- passive _ _ => idtac
       | |- same_elements ?m (state_of (?a ?m)) =>
           change (same_elements m (state_of (a m)));
           revert m; change (preserves same_elements a); frame
       end.
  all: match goal with
       | |- passive ?m (state_of (?a ?m)) =>
           revert m; change (preserves passive a); frame
       end.
Qed.

Lemma media_events_leave_playback_alone_witness :
  currentIndex (step (Media VideoB Ended) playing_a) = currentIndex playing_a.
Proof.
  refine (proj1 (proj2 (proj2 (proj1
            (media_events_leave_playback_alone VideoB Ended playing_a _))))).
  reflexivity.
Defined.

(** * Properties of utils.js *)

(** ** [ArrayUtils.chunk] *)

Lemma js_slice_inside {A} (array : list A) (i size : Z) :
  0 ≤ i → 1 ≤ size →
  js_slice array i (i + size)
  = take (Z.to_nat (Z.min size (length_ array - i))) (drop (Z.to_nat i) array).
Proof.
  intros Hi Hsize. unfold js_slice.
  rewrite (proj2 (Z.ltb_ge i 0)), (proj2 (Z.ltb_ge (i + size) 0)) by lia.
  destruct (decide (i ≤ length_ array)).
  - rewrite (Z.min_l i) by done. f_equal. lia.
  - rewrite (Z.min_r i) by lia. rewrite !drop_ge by (unfold length_ in *; lia).
    by rewrite !take_nil.
Qed.

(** The loop from a position [i] inside the array or at its end, with
    fuel for the iterations left. *)
Lemma chunk_from_spec {A} (fuel : nat) (array : list A) (size i : Z)
    (chunks : list (list A)) :
  1 ≤ size → 0 ≤ i →
  (Z.to_nat (length_ array - i) < fuel)%nat →
  ∃ rest,
    ArrayUtils.chunk_from fuel array size i chunks = Some (chunks ++ rest)
    ∧ concat rest = drop (Z.to_nat i) array
    ∧ Forall (λ c, 1 ≤ length_ c ≤ size) rest
    ∧ (length_ array ≤ i → rest = [])
    ∧ (∀ k c, rest !! k = Some c → (S k < length rest)%nat → length_ c = size).
Proof.
  intros Hsize. revert i chunks.
  induction fuel as [|fuel IH]; intros i chunks Hi Hfuel; [lia|].
  cbn [ArrayUtils.chunk_from]. destruct (i <? length_ array) eqn:Hin.
  - apply Z.ltb_lt in Hin.
    destruct (IH (i + size) (chunks ++ [js_slice array i (i + size)]))
      as (rest & -> & Hconcat & Hall & Hend & Hfull); [lia|lia|].
    exists (js_slice array i (i + size) :: rest).
    assert (length_ (js_slice array i (i + size)) = Z.min size (length_ array - i))
      as Hlength.
    { rewrite js_slice_inside by done. unfold length_ in *.
      rewrite length_take, length_drop. lia. }
    split_and!.
    + by rewrite <- app_assoc.
    + simpl. rewrite Hconcat, js_slice_inside by done.
      destruct (decide (i + size ≤ length_ array)).
      * rewrite Z.min_l by lia.
        replace (Z.to_nat (i + size)) with (Z.to_nat i + Z.to_nat size)%nat by lia.
        by rewrite <- drop_drop, take_drop.
      * rewrite Z.min_r by lia.
        rewrite (drop_ge array (Z.to_nat (i + size))) by (unfold length_ in *; lia).
        rewrite app_nil_r. apply take_ge. rewrite length_drop. unfold length_ in *. lia.
    + constructor; [lia|done].
    + lia.
    + intros [|k] c Hc Hk; simpl in *.
      * injection Hc as <-. rewrite Hlength.
        destruct (decide (length_ array ≤ i + size)) as [Hlast|]; [|lia].
        rewrite (Hend Hlast) in Hk. simpl in Hk. lia.
      * apply (Hfull k c Hc). lia.
  - apply Z.ltb_ge in Hin. exists []. rewrite app_nil_r. split_and!; try done.
    simpl. symmetry. apply drop_ge. unfold length_ in *. lia.
Qed.

(** X18: With a size of at least 1 and fuel for its iterations, [chunk]
    returns, and its chunks are the array cut in order into pieces
    that are not empty and hold [size] elements, the last one maybe
    fewer. *)
Theorem chunk_partitions {A} (fuel : nat) (array : list A) (size : Z) :
  1 ≤ size →
  (length array < fuel)%nat →
  ∃ chunks,
    ArrayUtils.chunk fuel array size = Some chunks
    ∧ concat chunks = array
    ∧ Forall (λ c, 1 ≤ length_ c ≤ size) chunks
    ∧ (∀ k c, chunks !! k = Some c → (S k < length chunks)%nat → length_ c = size).
Proof.
  intros Hsize Hfuel.
  destruct (chunk_from_spec fuel array size 0 [] Hsize) as (rest & Hrest & ? & ? & _ & ?);
    [lia|unfold length_; lia|].
  exists rest. split_and!; done.
Qed.

Lemma chunk_partitions_witness :
  ∃ chunks,
    ArrayUtils.chunk 6 [url_a; url_b; url_c; url_d; url_a] 2 = Some chunks
    ∧ concat chunks = [url_a; url_b; url_c; url_d; url_a]
    ∧ Forall (λ c, 1 ≤ length_ c ≤ 2) chunks
    ∧ (∀ k c, chunks !! k = Some c → (S k < length chunks)%nat → length_ c = 2).
Proof.
  apply (chunk_partitions 6 [url_a; url_b; url_c; url_d; url_a] 2); [lia|simpl; lia].
Defined.

Lemma chunk_from_diverges {A} (fuel : nat) (array : list A) (size i : Z)
    (chunks : list (list A)) :
  size ≤ 0 → i < length_ array →
  ArrayUtils.chunk_from fuel array size i chunks = None.
Proof.
  intros Hsize. revert i chunks. induction fuel as [|fuel IH]; intros i chunks Hi; [done|].
  cbn [ArrayUtils.chunk_from]. rewrite (proj2 (Z.ltb_lt _ _) Hi). apply IH. lia.
Qed.

(** X19: With a size that is not positive, [chunk] of a non-empty array never
    returns: its loop is still running after any number of iterations. *)
Theorem chunk_nonpositive_size_never_returns {A} (fuel : nat) (array : list A) (size : Z) :
  size ≤ 0 →
  array ≠ [] →
  ArrayUtils.chunk fuel array size = None.
Proof.
  intros Hsize Harray. apply chunk_from_diverges; [done|].
  destruct array; [done|]. unfold length_. simpl. lia.
Qed.

Lemma chunk_nonpositive_size_never_returns_witness :
  ArrayUtils.chunk 1000 [url_a; url_b] 0 = None.
Proof.
  apply (chunk_nonpositive_size_never_returns 1000 [url_a; url_b] 0); [lia|done].
Defined.

(** ** [ErrorUtils.retry] *)

(** [n] rejected attempts in a row, none of them the last one allowed:
    the loop waits after each and goes on. *)
Lemma retry_from_rejected {A} (n fuel : nat) (func : Z → ErrorUtils.settled A)
    (maxAttempts baseDelay attempt : Z) (waited : list Z) :
  1 ≤ attempt →
  attempt + Z.of_nat n ≤ maxAttempts →
  (∀ j, attempt ≤ j < attempt + Z.of_nat n → ∃ error, func j = ErrorUtils.Rejected error) →
  ErrorUtils.retry_from (n + fuel) func maxAttempts baseDelay attempt waited
  = ErrorUtils.retry_from fuel func maxAttempts baseDelay (attempt + Z.of_nat n)
      (waited ++ ((λ j, baseDelay * 2 ^ j) <$> seqZ (attempt - 1) (Z.of_nat n))).
Proof.
  revert attempt waited. induction n as [|n IH]; intros attempt waited Hattempt Hmax Hfail.
  - simpl. by rewrite Z.add_0_r, app_nil_r.
  - cbn [Nat.add ErrorUtils.retry_from].
    rewrite (proj2 (Z.leb_le attempt maxAttempts)) by lia.
    destruct (Hfail attempt) as [error ->]; [lia|].
    rewrite (proj2 (Z.eqb_neq attempt maxAttempts)) by lia.
    rewrite (seqZ_cons (attempt - 1) (Z.of_nat (S n))) by lia.
    replace (Z.succ (attempt - 1)) with (attempt + 1 - 1) by lia.
    replace (Z.pred (Z.of_nat (S n))) with (Z.of_nat n) by lia.
    replace (attempt + Z.of_nat (S n)) with (attempt + 1 + Z.of_nat n) by lia.
    rewrite IH; [|lia|lia|intros j Hj; apply Hfail; lia].
    by rewrite fmap_cons, <- app_assoc.
Qed.





(** X21: When all [maxAttempts] attempts fail, [retry] rejects with the
    error of the last one, having waited after every attempt but the
    last. *)
Theorem retry_rejects_with_last_error {A} (fuel : nat) (func : Z → ErrorUtils.settled A)
    (maxAttempts baseDelay : Z) (last : string) :
  1 ≤ maxAttempts →
  (∀ j, 1 ≤ j < maxAttempts → ∃ error, func j = ErrorUtils.Rejected error) →
  func maxAttempts = ErrorUtils.Rejected last →
  (Z.to_nat maxAttempts ≤ fuel)%nat →
  ErrorUtils.retry fuel func maxAttempts baseDelay
  = Some (ErrorUtils.Rejected last, backoff baseDelay (maxAttempts - 1)).
Proof.
  intros Hmax Hfail Hlast Hfuel. unfold ErrorUtils.retry, backoff.
  replace fuel with (Z.to_nat (maxAttempts - 1) + S (fuel - Z.to_nat maxAttempts))%nat
    by lia.
  rewrite retry_from_rejected; [|lia|lia|intros j Hj; apply Hfail; lia].
  rewrite Z2Nat.id by lia. replace (1 + (maxAttempts - 1)) with maxAttempts by lia.
  cbn [ErrorUtils.retry_from]. rewrite Z.leb_refl, Hlast, Z.eqb_refl. done.
Qed.

Lemma retry_rejects_with_last_error_witness :
  ErrorUtils.retry (A := string) 3
    (λ attempt, if attempt <? 3 then ErrorUtils.Rejected "offline"
                else ErrorUtils.Rejected "timeout") 3 1000
  = Some (ErrorUtils.Rejected "timeout", backoff 1000 (3 - 1)).
Proof.
  apply (retry_rejects_with_last_error (A := string) 3
           (λ attempt, if attempt <? 3 then ErrorUtils.Rejected "offline"
                       else ErrorUtils.Rejected "timeout") 3 1000 "timeout").
  - lia.
  - intros j Hj. exists "offline". by rewrite (proj2 (Z.ltb_lt j 3)) by lia.
  - reflexivity.
  - simpl. lia.
Defined.

(** ** [PerformanceUtils.throttle] *)

(** Induction on a call and the calls nested in it. *)
Lemma invocation_nested_ind {A} (P : PerformanceUtils.invocation A → Prop) :
  (∀ args nested throws,
     Forall P nested → P (PerformanceUtils.Invoke args nested throws)) →
  ∀ c, P c.
Proof.
  intros Hstep. fix IH 1. intros [args nested throws]. apply Hstep.
  induction nested as [|c nested IHnested]; constructor; [apply IH|exact IHnested].
Qed.

Lemma throttle_run_snoc {A} (es : list (PerformanceUtils.closure_event
                                          (PerformanceUtils.invocation A))) e :
  throttle_run (es ++ [e]) = PerformanceUtils.throttle_step (throttle_run es) e.
Proof. unfold throttle_run. by rewrite fold_left_app. Qed.

Lemma throttle_run_app {A} (es1 es2 : list (PerformanceUtils.closure_event
                                              (PerformanceUtils.invocation A))) :
  throttle_run (es1 ++ es2)
  = fold_left PerformanceUtils.throttle_step es2 (throttle_run es1).
Proof. unfold throttle_run. by rewrite fold_left_app. Qed.

(** A call made while [inThrottle] is set is dropped, with whatever its
    [func] would have done. *)
Lemma throttle_executedFunction_dropped {A} (c : PerformanceUtils.invocation A) s :
  PerformanceUtils.inThrottle s = true → PerformanceUtils.throttle_executedFunction c s = s.
Proof. intros Hset. destruct c. simpl. by rewrite Hset. Qed.

(** What a call does: it sets [inThrottle] unless its [func] throws,
    never unsets it, keeps a timer pending whenever [inThrottle] is set,
    and only adds to the calls [func] has received, its own arguments
    first when [inThrottle] was unset. *)
Lemma throttle_executedFunction_spec {A} (c : PerformanceUtils.invocation A) s :
  (PerformanceUtils.inThrottle s = true → (1 ≤ PerformanceUtils.throttle_timers s)%nat) →
  (PerformanceUtils.inThrottle (PerformanceUtils.throttle_executedFunction c s) = true →
   (1 ≤ PerformanceUtils.throttle_timers (PerformanceUtils.throttle_executedFunction c s))%nat)
  ∧ (PerformanceUtils.inThrottle s = true →
     PerformanceUtils.inThrottle (PerformanceUtils.throttle_executedFunction c s) = true)
  ∧ (PerformanceUtils.func_throws c = false →
     PerformanceUtils.inThrottle (PerformanceUtils.throttle_executedFunction c s) = true)
  ∧ (PerformanceUtils.inThrottle s = false →
     ∃ inner,
       PerformanceUtils.throttle_applied (PerformanceUtils.throttle_executedFunction c s)
       = PerformanceUtils.throttle_applied s ++ PerformanceUtils.invoked c :: inner
       ∧ (PerformanceUtils.nested_calls c = [] → inner = [])).
Proof.
  revert s. induction c as [args nested throws IH] using invocation_nested_ind.
  intros s Htimer. cbn [PerformanceUtils.throttle_executedFunction].
  destruct (PerformanceUtils.inThrottle s) eqn:Hset; cbn [negb].
  { rewrite Hset. split_and!; [done|done|done|done]. }
  set (s1 := {| PerformanceUtils.inThrottle := false;
                PerformanceUtils.throttle_timers := PerformanceUtils.throttle_timers s;
                PerformanceUtils.throttle_applied :=
                  PerformanceUtils.throttle_applied s ++ [args] |}).
  assert ((PerformanceUtils.inThrottle
             (fold_left (λ s c', PerformanceUtils.throttle_executedFunction c' s) nested s1)
           = true →
           (1 ≤ PerformanceUtils.throttle_timers
                  (fold_left (λ s c', PerformanceUtils.throttle_executedFunction c' s)
                     nested s1))%nat)
          ∧ ∃ inner,
              PerformanceUtils.throttle_applied
                (fold_left (λ s c', PerformanceUtils.throttle_executedFunction c' s)
                   nested s1)
              = PerformanceUtils.throttle_applied s1 ++ inner
              ∧ (nested = [] → inner = [])) as (Htimer' & inner & Happlied & Hnone).
  { assert (PerformanceUtils.inThrottle s1 = true →
            (1 ≤ PerformanceUtils.throttle_timers s1)%nat) as Htimer1 by done.
    clearbody s1. revert s1 Htimer1.
    induction IH as [|c nested Hc _ IHnested]; intros s1 Htimer1; cbn [fold_left].
    - split; [done|]. exists []. by rewrite app_nil_r.
    - destruct (Hc s1 Htimer1) as (Htimer2 & _ & _ & Hadded).
      destruct (IHnested _ Htimer2) as (Htimer3 & rest & -> & _).
      split; [done|].
      destruct (PerformanceUtils.inThrottle s1) eqn:Hset1.
      + rewrite throttle_executedFunction_dropped by done. by exists rest.
      + destruct (Hadded eq_refl) as (inner & -> & _).
        exists ((PerformanceUtils.invoked c :: inner) ++ rest).
        by rewrite app_assoc. }
  destruct throws; cbn [PerformanceUtils.inThrottle PerformanceUtils.throttle_timers
                          PerformanceUtils.throttle_applied PerformanceUtils.func_throws
                          PerformanceUtils.invoked PerformanceUtils.nested_calls].
  - split_and!; [done|done|done|].
    intros _. exists inner. rewrite Happlied. subst s1. simpl. by rewrite <- app_assoc.
  - split_and!; [lia|done|done|].
    intros _. exists inner. rewrite Happlied. subst s1. simpl. by rewrite <- app_assoc.
Qed.

(** Over any run, [inThrottle] is set only while a timer is pending. *)
Lemma throttle_run_timer {A} (es : list (PerformanceUtils.closure_event
                                           (PerformanceUtils.invocation A))) :
  PerformanceUtils.inThrottle (throttle_run es) = true →
  (1 ≤ PerformanceUtils.throttle_timers (throttle_run es))%nat.
Proof.
  induction es as [|e es IH] using rev_ind; [done|].
  rewrite throttle_run_snoc. destruct e as [c|]; simpl.
  - by apply throttle_executedFunction_spec.
  - unfold PerformanceUtils.throttle_timer_callback.
    destruct (PerformanceUtils.throttle_timers (throttle_run es)) eqn:Htimers; [|done].
    rewrite Htimers. done.
Qed.

(** Calls made while [inThrottle] is set are dropped. *)
Lemma throttle_dropped {A} (more : list (PerformanceUtils.invocation A)) s :
  PerformanceUtils.inThrottle s = true →
  fold_left PerformanceUtils.throttle_step (PerformanceUtils.Call <$> more) s = s.
Proof.
  intros Hset. induction more as [|b more IH]; [done|].
  simpl. by rewrite throttle_executedFunction_dropped.
Qed.

(** X22: After a call on which [func] does not throw, whether it ran [func]
    or was dropped, the calls that follow before the timer fires never
    reach [func], not even once the timer has fired: there is no
    trailing call.  The first call after the timer runs [func] at once,
    with the calls its [func] makes itself, if any. *)
Theorem throttle_drops_calls_until_timer {A}
    (es : list (PerformanceUtils.closure_event (PerformanceUtils.invocation A)))
    (a b : PerformanceUtils.invocation A) (more : list (PerformanceUtils.invocation A)) :
  PerformanceUtils.func_throws a = false →
  PerformanceUtils.throttle_applied
    (throttle_run (es ++ PerformanceUtils.Call a :: (PerformanceUtils.Call <$> more)))
  = PerformanceUtils.throttle_applied (throttle_run (es ++ [PerformanceUtils.Call a]))
  ∧ PerformanceUtils.throttle_applied
      (throttle_run (es ++ PerformanceUtils.Call a :: (PerformanceUtils.Call <$> more)
                        ++ [PerformanceUtils.TimerFires]))
    = PerformanceUtils.throttle_applied (throttle_run (es ++ [PerformanceUtils.Call a]))
  ∧ ∃ inner,
      PerformanceUtils.throttle_applied
        (throttle_run (es ++ PerformanceUtils.Call a :: (PerformanceUtils.Call <$> more)
                          ++ [PerformanceUtils.TimerFires; PerformanceUtils.Call b]))
      = PerformanceUtils.throttle_applied (throttle_run (es ++ [PerformanceUtils.Call a]))
        ++ PerformanceUtils.invoked b :: inner
      ∧ (PerformanceUtils.nested_calls b = [] → inner = []).
Proof.
  intros Ha.
  assert (PerformanceUtils.inThrottle (throttle_run (es ++ [PerformanceUtils.Call a])) = true)
    as Hset.
  { rewrite throttle_run_snoc. simpl.
    by apply throttle_executedFunction_spec; [apply throttle_run_timer|]. }
  pose proof (throttle_run_timer (es ++ [PerformanceUtils.Call a]) Hset) as Htimer.
  assert (∀ rest,
            throttle_run
              (es ++ PerformanceUtils.Call a :: (PerformanceUtils.Call <$> more) ++ rest)
            = fold_left PerformanceUtils.throttle_step rest
                (throttle_run (es ++ [PerformanceUtils.Call a]))) as Hrest.
  { intros rest.
    replace (es ++ PerformanceUtils.Call a :: (PerformanceUtils.Call <$> more) ++ rest)
      with ((es ++ [PerformanceUtils.Call a]) ++ (PerformanceUtils.Call <$> more) ++ rest)
      by (by rewrite <- app_assoc).
    rewrite throttle_run_app, fold_left_app. by rewrite throttle_dropped. }
  split_and!.
  - rewrite <- (app_nil_r (PerformanceUtils.Call <$> more)). by rewrite Hrest.
  - rewrite Hrest. simpl. unfold PerformanceUtils.throttle_timer_callback.
    by destruct (PerformanceUtils.throttle_timers _).
  - rewrite Hrest. cbn [fold_left PerformanceUtils.throttle_step].
    unfold PerformanceUtils.throttle_timer_callback.
    destruct (PerformanceUtils.throttle_timers
                (throttle_run (es ++ [PerformanceUtils.Call a]))) as [|pending] eqn:Hpending;
      [lia|].
    match goal with |- context [PerformanceUtils.throttle_executedFunction b ?s] =>
      destruct (throttle_executedFunction_spec b s) as (_ & _ & _ & Hruns) end; [done|].
    exact (Hruns eq_refl).
Qed.

Lemma throttle_drops_calls_until_timer_witness :
  ∃ inner,
    PerformanceUtils.throttle_applied
      (throttle_run
         ([] ++ PerformanceUtils.Call (PerformanceUtils.Invoke 1%nat [] false)
             :: (PerformanceUtils.Call <$> [PerformanceUtils.Invoke 2%nat [] false;
                                            chain 3%nat 1])
             ++ [PerformanceUtils.TimerFires;
                 PerformanceUtils.Call (PerformanceUtils.Invoke 4%nat [] false)]))
    = PerformanceUtils.throttle_applied
        (throttle_run ([] ++ [PerformanceUtils.Call (PerformanceUtils.Invoke 1%nat [] false)]))
      ++ PerformanceUtils.invoked (PerformanceUtils.Invoke 4%nat [] false) :: inner
    ∧ (PerformanceUtils.nested_calls (PerformanceUtils.Invoke 4%nat [] false) = [] →
       inner = []).
Proof.
  refine (proj2 (proj2 (throttle_drops_calls_until_timer []
                          (PerformanceUtils.Invoke 1%nat [] false)
                          (PerformanceUtils.Invoke 4%nat [] false)
                          [PerformanceUtils.Invoke 2%nat [] false; chain 3%nat 1] _))).
  reflexivity.
Defined.

Lemma firings_snoc {A} (es : list (PerformanceUtils.closure_event A)) e :
  firings (es ++ [e])
  = (firings es + match e with PerformanceUtils.TimerFires => 1 | _ => 0 end)%nat.
Proof.
  unfold firings. rewrite List.filter_app, length_app. by destruct e.
Qed.

(** X23: A function that neither throws nor calls its throttled version is
    run by it at most once more than the timer has fired. *)
Theorem throttle_bounds_executions {A}
    (es : list (PerformanceUtils.closure_event (PerformanceUtils.invocation A))) :
  Forall plain es →
  (length (PerformanceUtils.throttle_applied (throttle_run es)) ≤ 1 + firings es)%nat.
Proof.
  intros Hplain.
  assert ((length (PerformanceUtils.throttle_applied (throttle_run es))
           + (if PerformanceUtils.inThrottle (throttle_run es) then 0 else 1)
           ≤ 1 + firings es)%nat
          ∧ (PerformanceUtils.throttle_timers (throttle_run es)
             = if PerformanceUtils.inThrottle (throttle_run es) then 1 else 0)%nat)
    as [Hbound _]; [|lia].
  induction es as [|e es IH] using rev_ind; [by vm_compute|].
  apply Forall_app in Hplain as [Hes [He _]%Forall_cons].
  destruct (IH Hes) as [Hbound Htimer].
  rewrite throttle_run_snoc, firings_snoc.
  destruct e as [[args nested throws]|]; simpl in *.
  - destruct He as [-> ->].
    destruct (PerformanceUtils.inThrottle (throttle_run es)) eqn:Hset; simpl.
    + rewrite Hset. split; [lia|done].
    + rewrite length_app. simpl. split; [lia|]. by rewrite Htimer.
  - unfold PerformanceUtils.throttle_timer_callback. rewrite Htimer.
    destruct (PerformanceUtils.inThrottle (throttle_run es)) eqn:Hset; simpl.
    + split; [lia|done].
    + rewrite Hset. split; [lia|done].
Qed.

Lemma throttle_bounds_executions_witness :
  (length (PerformanceUtils.throttle_applied
             (throttle_run
                [PerformanceUtils.Call (PerformanceUtils.Invoke 1%nat [] false);
                 PerformanceUtils.Call (PerformanceUtils.Invoke 2%nat [] false);
                 PerformanceUtils.TimerFires;
                 PerformanceUtils.Call (PerformanceUtils.Invoke 3%nat [] false)]))
   ≤ 1 + firings [PerformanceUtils.Call (PerformanceUtils.Invoke 1%nat [] false);
                  PerformanceUtils.Call (PerformanceUtils.Invoke 2%nat [] false);
                  PerformanceUtils.TimerFires;
                  PerformanceUtils.Call (PerformanceUtils.Invoke 3%nat [] false)])%nat.
Proof.
  apply (throttle_bounds_executions
           [PerformanceUtils.Call (PerformanceUtils.Invoke 1%nat [] false);
            PerformanceUtils.Call (PerformanceUtils.Invoke 2%nat [] false);
            PerformanceUtils.TimerFires;
            PerformanceUtils.Call (PerformanceUtils.Invoke 3%nat [] false)]).
  repeat constructor.
Defined.

(** A chain of nested calls on a throttle that is open. *)
Lemma throttle_chain {A} (args : A) (depth : nat) s :
  PerformanceUtils.inThrottle s = false →
  PerformanceUtils.throttle_executedFunction (chain args depth) s
  = {| PerformanceUtils.inThrottle := true;
       PerformanceUtils.throttle_timers := PerformanceUtils.throttle_timers s + S depth;
       PerformanceUtils.throttle_applied :=
         PerformanceUtils.throttle_applied s ++ replicate (S depth) args |}.
Proof.
  revert s. induction depth as [|depth IH]; intros s Hopen;
    cbn [chain PerformanceUtils.throttle_executedFunction]; rewrite Hopen; cbn [negb].
  - simpl. f_equal. lia.
  - cbn [fold_left]. rewrite IH by done. simpl.
    rewrite <- app_assoc. simpl. f_equal. lia.
Qed.

(** X26: A call whose [func] calls the throttled function again, and so on
    [depth] calls deep, made first: [func] runs [depth + 1] times at
    once, before any timer has fired, and as many timers are started;
    nothing bounds the runs of such a [func]. *)
Theorem throttle_does_not_bound_reentrant_func {A} (args : A) (depth : nat) :
  PerformanceUtils.throttle_applied
    (throttle_run [PerformanceUtils.Call (chain args depth)])
  = replicate (S depth) args
  ∧ firings [PerformanceUtils.Call (chain args depth)] = 0%nat
  ∧ PerformanceUtils.throttle_timers
      (throttle_run [PerformanceUtils.Call (chain args depth)]) = S depth.
Proof.
  unfold throttle_run. cbn [fold_left PerformanceUtils.throttle_step].
  rewrite throttle_chain by done. done.
Qed.

(** ** [PerformanceUtils.debounce] *)

Lemma debounce_run_app {A} (es1 es2 : list (PerformanceUtils.closure_event A)) :
  debounce_run (es1 ++ es2) = fold_left PerformanceUtils.debounce_step es2 (debounce_run es1).
Proof. unfold debounce_run. by rewrite fold_left_app. Qed.

Lemma debounce_calls {A} (calls : list A) (last : A) (s : PerformanceUtils.debounced A) :
  fold_left PerformanceUtils.debounce_step (PerformanceUtils.Call <$> calls ++ [last]) s
  = {| PerformanceUtils.timeout := Some last;
       PerformanceUtils.debounce_applied := PerformanceUtils.debounce_applied s |}.
Proof.
  revert s. induction calls as [|a calls IH]; intros s; [done|].
  simpl. by rewrite IH.
Qed.

(** X24: A burst of calls to a debounced function runs [func] once, when the
    timer fires, with the arguments of the last call: no call runs it
    at once, the earlier arguments are lost, and a timer firing again
    runs nothing. *)
Theorem debounce_runs_last_call_once {A}
    (es : list (PerformanceUtils.closure_event A)) (calls : list A) (last : A) :
  PerformanceUtils.debounce_applied
    (debounce_run (es ++ (PerformanceUtils.Call <$> calls ++ [last])))
  = PerformanceUtils.debounce_applied (debounce_run es)
  ∧ PerformanceUtils.debounce_applied
      (debounce_run (es ++ (PerformanceUtils.Call <$> calls ++ [last])
                        ++ [PerformanceUtils.TimerFires]))
    = PerformanceUtils.debounce_applied (debounce_run es) ++ [last]
  ∧ debounce_run (es ++ (PerformanceUtils.Call <$> calls ++ [last])
                     ++ [PerformanceUtils.TimerFires; PerformanceUtils.TimerFires])
    = debounce_run (es ++ (PerformanceUtils.Call <$> calls ++ [last])
                       ++ [PerformanceUtils.TimerFires]).
Proof.
  rewrite !debounce_run_app, !fold_left_app, !debounce_calls. done.
Qed.

(** ** [UrlUtils.getExtension] and [UrlUtils.isVideo] *)

Lemma split_nonempty c s : UrlUtils.split c s ≠ [].
Proof.
  destruct s as [|a s]; simpl; [done|].
  destruct (Ascii.eqb a c); [done|]. by destruct (UrlUtils.split c s).
Qed.

Lemma split_absent c s : occurs c s = false → UrlUtils.split c s = [s].
Proof.
  induction s as [|a s IH]; simpl; [done|].
  intros [Ha Hs]%orb_false_iff. rewrite Ha. by rewrite (IH Hs).
Qed.

(** Splitting at a separator splits what is on either side of it. *)
Lemma split_separator c pre s :
  UrlUtils.split c (pre +:+ String c s) = UrlUtils.split c pre ++ UrlUtils.split c s.
Proof.
  induction pre as [|a pre IH]; simpl.
  - by rewrite Ascii.eqb_refl.
  - destruct (Ascii.eqb a c); [by rewrite IH|].
    rewrite IH. pose proof (split_nonempty c pre).
    by destruct (UrlUtils.split c pre).
Qed.

Lemma last_split c pre ext :
  occurs c ext = false →
  List.last (UrlUtils.split c (pre +:+ String c ext)) EmptyString = ext.
Proof.
  intros Hext. rewrite split_separator, (split_absent c ext Hext).
  apply List.last_last.
Qed.

Lemma lower_dot c : Ascii.eqb (UrlUtils.lower c) UrlUtils.dot = Ascii.eqb c UrlUtils.dot.
Proof. destruct c as [[] [] [] [] [] [] [] []]; by vm_compute. Qed.

Lemma lower_lower c : UrlUtils.lower (UrlUtils.lower c) = UrlUtils.lower c.
Proof. destruct c as [[] [] [] [] [] [] [] []]; by vm_compute. Qed.

Lemma occurs_toLowerCase s :
  occurs UrlUtils.dot (UrlUtils.toLowerCase s) = occurs UrlUtils.dot s.
Proof. induction s as [|a s IH]; simpl; [done|]. by rewrite lower_dot, IH. Qed.

Lemma toLowerCase_idempotent s :
  UrlUtils.toLowerCase (UrlUtils.toLowerCase s) = UrlUtils.toLowerCase s.
Proof. induction s as [|a s IH]; simpl; [done|]. by rewrite lower_lower, IH. Qed.

(** X25: The extension of a path is what follows its last dot, in lower
    case, whatever comes before; so [isVideo] looks at nothing else,
    and ignores the case.  A path without a dot is its own extension,
    and a URL that does not parse has the empty one and is no video. *)
Theorem getExtension_follows_last_dot (pre other ext path : string) :
  occurs UrlUtils.dot ext = false →
  occurs UrlUtils.dot path = false →
  UrlUtils.getExtension (Some (pre +:+ "." +:+ ext)) = UrlUtils.toLowerCase ext
  ∧ UrlUtils.isVideo (Some (pre +:+ "." +:+ ext))
    = UrlUtils.isVideo (Some (other +:+ "." +:+ UrlUtils.toLowerCase ext))
  ∧ UrlUtils.getExtension (Some path) = UrlUtils.toLowerCase path
  ∧ UrlUtils.getExtension None = ""
  ∧ UrlUtils.isVideo None = false.
Proof.
  intros Hext Hpath.
  assert (∀ p e, occurs UrlUtils.dot e = false →
                 UrlUtils.getExtension (Some (p +:+ "." +:+ e)) = UrlUtils.toLowerCase e)
    as Hlast.
  { intros p e He. unfold UrlUtils.getExtension.
    change ("." +:+ e) with (String UrlUtils.dot e). by rewrite last_split. }
  split_and!.
  - by apply Hlast.
  - unfold UrlUtils.isVideo. rewrite !Hlast; [|by rewrite occurs_toLowerCase|done].
    by rewrite toLowerCase_idempotent.
  - unfold UrlUtils.getExtension. by rewrite split_absent.
  - done.
  - done.
Qed.

Lemma getExtension_follows_last_dot_witness :
  UrlUtils.isVideo (Some ("/clips/intro.v2" +:+ "." +:+ "MP4"))
  = UrlUtils.isVideo (Some ("/a" +:+ "." +:+ UrlUtils.toLowerCase "MP4")).
Proof.
  refine (proj1 (proj2 (getExtension_follows_last_dot "/clips/intro.v2" "/a" "MP4" "/video"
                          _ _))); reflexivity.
Defined.
